(** * logsift: topic filters, the Logger facade and runtime configuration

    A shallow embedding of [filter.go] and [log.go].

    Go values that are shared and mutated live in a store and are named
    by their address: the [logger] structs, the filters behind the
    [Filter] interface, and the [logrus.Logger] they write to.  Every
    function of the package is a function from the store to an outcome
    that carries the store it leaves behind.  The frames of the callers
    are an argument of every function that ends in [withSource], since
    that is where [runtime.Caller] reads them.

    One thread of control is modelled.  The lock of the concurrent filter
    is part of its state, taken and released by each method, so that a
    call on a held lock is seen to wait; interleavings are not modelled.
    Rendering, the output writer ([SetOutput]) and hooks ([AddHook]) are
    left to [logrus]: the sink keeps what it is handed.  A map given to
    [SetMap] is taken by value; a caller that keeps writing to the map it
    handed over is outside the operations modelled here. *)

From Stdlib Require Import Ascii.
From stdpp Require Import base option list strings gmap pretty.

Open Scope string_scope.

(** ** Outcomes

    A Go call returns, panics, ends the process ([os.Exit]), or never
    comes back because it waits for a lock.  Deferred calls have run when
    a panic leaves a function, so a panic still carries a state. *)

Inductive Outcome (S A : Type) : Type :=
| Ok (a : A) (s : S)
| Panic (s : S)
| Exit (s : S)
| Block.

Arguments Ok {S A} a s.
Arguments Panic {S A} s.
Arguments Exit {S A} s.
Arguments Block {S A}.

Definition M (S A : Type) : Type := S → Outcome S A.

Definition ret {S A} (a : A) : M S A := λ s, Ok a s.

Definition bind {S A B} (m : M S A) (k : A → M S B) : M S B :=
  λ s, match m s with
       | Ok a s' => k a s'
       | Panic s' => Panic s'
       | Exit s' => Exit s'
       | Block => Block
       end.

Notation "x <- m ;; k" := (bind m (λ x, k))
  (at level 100, m at next level, right associativity).
Notation "m ;; k" := (bind m (λ _, k))
  (at level 100, right associativity).

(** ** Go maps of type [map[string]bool]

    A map value is a reference that may be nil.  Reading, deleting from
    and ranging over a nil map are allowed; storing into it panics. *)

Abbreviation gomap := (option (gmap string bool)).

Definition go_make : gomap := Some ∅.

Definition go_store (m : gomap) (k : string) (v : bool) : option gomap :=
  match m with
  | Some g => Some (Some (<[k:=v]> g))
  | None => None
  end.

Definition go_delete (m : gomap) (k : string) : gomap := delete k <$> m.

Definition go_len (m : gomap) : nat := from_option size 0 m.

Definition go_has (m : gomap) (k : string) : bool :=
  match m ≫= (.!! k) with Some _ => true | None => false end.

Definition go_keys (m : gomap) : list string :=
  from_option (λ g, (map_to_list g).*1) [] m.

Definition go_isnil (m : gomap) : bool :=
  match m with None => true | Some _ => false end.

(** The four loops of [filter.go]; both filter structs run the same ones. *)

(** [for _, filter := range filters { if filter != "" { m[filter] = true } }] *)
Fixpoint rangeAdd (fs : list string) (m : gomap) : option gomap :=
  match fs with
  | [] => Some m
  | x :: rest =>
      if String.eqb x "" then rangeAdd rest m
      else go_store m x true ≫= rangeAdd rest
  end.

(** [for _, filter := range filters { if filter != "" { delete(m, filter) } }] *)
Fixpoint rangeRemove (fs : list string) (m : gomap) : gomap :=
  match fs with
  | [] => m
  | x :: rest =>
      if String.eqb x "" then rangeRemove rest m
      else rangeRemove rest (go_delete m x)
  end.

(** [for filter := range m { if filter == "" { delete(m, filter) } }],
    over the keys in the order the runtime happens to produce them. *)
Fixpoint rangeStripKeys (keys : list string) (m : gomap) : gomap :=
  match keys with
  | [] => m
  | k :: rest =>
      rangeStripKeys rest (if String.eqb k "" then go_delete m k else m)
  end.

Definition rangeStrip (m : gomap) : gomap := rangeStripKeys (go_keys m) m.

(** [for _, value := range values { if _, ok := m[value]; ok { return true } }
     return false] *)
Fixpoint rangeAllows (values : list string) (m : gomap) : bool :=
  match values with
  | [] => false
  | v :: rest => if go_has m v then true else rangeAllows rest m
  end.

(** ** [sync.RWMutex], as one thread of control sees it *)

Module RWMutex.

Record t : Type := mk { writer : bool; readers : nat }.

Definition zero : t := mk false 0.

Definition Lock (m : t) : option t :=
  match writer m, readers m with
  | false, 0 => Some (mk true 0)
  | _, _ => None
  end.

Definition Unlock (m : t) : t := mk false (readers m).

Definition RLock (m : t) : option t :=
  if writer m then None else Some (mk false (S (readers m))).

Definition RUnlock (m : t) : t := mk (writer m) (pred (readers m)).

End RWMutex.

(** ** The [Filter] interface *)

Class Filter (F : Type) : Type := {
  Add : list string → M F unit;
  Remove : list string → M F unit;
  Set_ : list string → M F unit;
  SetMap : gomap → M F unit;
  SetAllowEmptyFilter : bool → M F unit;
  Allows : list string → M F bool
}.

(** ** [concurrentMapFilter] *)

Module concurrentMapFilter.

Record t : Type := mk {
  mu : RWMutex.t;
  allowEmptyFilter : bool;
  filters : gomap
}.

(** [f.Lock(); defer f.Unlock(); body] *)
Definition locked {A} (body : t → option (A * t)) : M t A :=
  λ f, match RWMutex.Lock (mu f) with
       | None => Block
       | Some held =>
           let f1 := mk held (allowEmptyFilter f) (filters f) in
           match body f1 with
           | Some (a, f2) =>
               Ok a (mk (RWMutex.Unlock (mu f2)) (allowEmptyFilter f2) (filters f2))
           | None =>
               Panic (mk (RWMutex.Unlock held) (allowEmptyFilter f) (filters f))
           end
       end.

(** [f.RLock(); defer f.RUnlock(); body], for a body that only reads *)
Definition rlocked {A} (body : t → A) : M t A :=
  λ f, match RWMutex.RLock (mu f) with
       | None => Block
       | Some held =>
           let f1 := mk held (allowEmptyFilter f) (filters f) in
           Ok (body f1) (mk (RWMutex.RUnlock held) (allowEmptyFilter f) (filters f))
       end.

Definition NewConcurrentMapFilter (allowEmptyFilter : bool) : t :=
  mk RWMutex.zero allowEmptyFilter go_make.

Definition Add (fs : list string) : M t unit :=
  locked (λ f, m ← rangeAdd fs (filters f);
               Some (tt, mk (mu f) (allowEmptyFilter f) m)).

Definition Remove (fs : list string) : M t unit :=
  locked (λ f, Some (tt, mk (mu f) (allowEmptyFilter f)
                            (rangeRemove fs (filters f)))).

Definition Set_ (fs : list string) : M t unit :=
  locked (λ f, m ← rangeAdd fs go_make;
               Some (tt, mk (mu f) (allowEmptyFilter f) m)).

Definition SetMap (m : gomap) : M t unit :=
  locked (λ f, Some (tt, mk (mu f) (allowEmptyFilter f) (rangeStrip m))).

Definition SetAllowEmptyFilter (allowEmpty : bool) : M t unit :=
  locked (λ f, Some (tt, mk (mu f) allowEmpty (filters f))).

Definition Allows (values : list string) : M t bool :=
  rlocked (λ f,
    if go_isnil (filters f) || Nat.eqb (go_len (filters f)) 0
    then allowEmptyFilter f
    else rangeAllows values (filters f)).

End concurrentMapFilter.

#[export] Instance concurrentMapFilter_Filter : Filter concurrentMapFilter.t := {
  Add := concurrentMapFilter.Add;
  Remove := concurrentMapFilter.Remove;
  Set_ := concurrentMapFilter.Set_;
  SetMap := concurrentMapFilter.SetMap;
  SetAllowEmptyFilter := concurrentMapFilter.SetAllowEmptyFilter;
  Allows := concurrentMapFilter.Allows
}.

(** ** [unsafeMapFilter] *)

Module unsafeMapFilter.

Record t : Type := mk {
  allowEmptyFilter : bool;
  filters : gomap
}.

Definition NewUnsafeMapFilter (allowEmptyFilter : bool) : t :=
  mk allowEmptyFilter go_make.

Definition Add (fs : list string) : M t unit :=
  λ f, match rangeAdd fs (filters f) with
       | Some m => Ok tt (mk (allowEmptyFilter f) m)
       | None => Panic f
       end.

Definition Remove (fs : list string) : M t unit :=
  λ f, Ok tt (mk (allowEmptyFilter f) (rangeRemove fs (filters f))).

Definition Set_ (fs : list string) : M t unit :=
  λ f, match rangeAdd fs go_make with
       | Some m => Ok tt (mk (allowEmptyFilter f) m)
       | None => Panic (mk (allowEmptyFilter f) go_make)
       end.

Definition SetMap (m : gomap) : M t unit :=
  λ f, Ok tt (mk (allowEmptyFilter f) (rangeStrip m)).

Definition SetAllowEmptyFilter (allowEmpty : bool) : M t unit :=
  λ f, Ok tt (mk allowEmpty (filters f)).

Definition Allows (values : list string) : M t bool :=
  λ f, Ok (if go_isnil (filters f) || Nat.eqb (go_len (filters f)) 0
           then allowEmptyFilter f
           else rangeAllows values (filters f)) f.

End unsafeMapFilter.

#[export] Instance unsafeMapFilter_Filter : Filter unsafeMapFilter.t := {
  Add := unsafeMapFilter.Add;
  Remove := unsafeMapFilter.Remove;
  Set_ := unsafeMapFilter.Set_;
  SetMap := unsafeMapFilter.SetMap;
  SetAllowEmptyFilter := unsafeMapFilter.SetAllowEmptyFilter;
  Allows := unsafeMapFilter.Allows
}.

(** ** A filter behind the interface: either struct, called through
    its method set *)

Inductive FilterObj : Type :=
| Concurrent (f : concurrentMapFilter.t)
| Unsafe (f : unsafeMapFilter.t).

Definition outcome_map {S T A} (g : S → T) (o : Outcome S A) : Outcome T A :=
  match o with
  | Ok a s => Ok a (g s)
  | Panic s => Panic (g s)
  | Exit s => Exit (g s)
  | Block => Block
  end.

Definition dispatch {A} (mc : M concurrentMapFilter.t A)
    (mu : M unsafeMapFilter.t A) : M FilterObj A :=
  λ o, match o with
       | Concurrent f => outcome_map Concurrent (mc f)
       | Unsafe f => outcome_map Unsafe (mu f)
       end.

#[export] Instance FilterObj_Filter : Filter FilterObj := {
  Add fs := dispatch (Add fs) (Add fs);
  Remove fs := dispatch (Remove fs) (Remove fs);
  Set_ fs := dispatch (Set_ fs) (Set_ fs);
  SetMap m := dispatch (SetMap m) (SetMap m);
  SetAllowEmptyFilter b := dispatch (SetAllowEmptyFilter b) (SetAllowEmptyFilter b);
  Allows vs := dispatch (Allows vs) (Allows vs)
}.

Definition NewConcurrentMapFilter (allowEmptyFilter : bool) : FilterObj :=
  Concurrent (concurrentMapFilter.NewConcurrentMapFilter allowEmptyFilter).

Definition NewUnsafeMapFilter (allowEmptyFilter : bool) : FilterObj :=
  Unsafe (unsafeMapFilter.NewUnsafeMapFilter allowEmptyFilter).

(** What a filter holds: its map, the set of active topics (the keys of
    the map; none for a nil map), its policy for the empty set, and
    whether its lock is free. *)

Definition obj_filters (o : FilterObj) : gomap :=
  match o with
  | Concurrent f => concurrentMapFilter.filters f
  | Unsafe f => unsafeMapFilter.filters f
  end.

Definition obj_allowEmptyFilter (o : FilterObj) : bool :=
  match o with
  | Concurrent f => concurrentMapFilter.allowEmptyFilter f
  | Unsafe f => unsafeMapFilter.allowEmptyFilter f
  end.

Definition keyset (m : gomap) : gset string := from_option dom ∅ m.

Definition active (o : FilterObj) : gset string := keyset (obj_filters o).

Definition ready (o : FilterObj) : bool :=
  match o with
  | Concurrent f =>
      match concurrentMapFilter.mu f with
      | RWMutex.mk false 0 => true
      | _ => false
      end
  | Unsafe _ => true
  end.

(** A filter with the map and policy given, of the same struct as [o]
    and with its lock free. *)
Definition obj_with (o : FilterObj) (allow : bool) (m : gomap) : FilterObj :=
  match o with
  | Concurrent _ => Concurrent (concurrentMapFilter.mk RWMutex.zero allow m)
  | Unsafe _ => Unsafe (unsafeMapFilter.mk allow m)
  end.

(** Sequences of mutations, as a caller issues them one after another. *)

Inductive Mutation : Type :=
| MAdd (fs : list string)
| MRemove (fs : list string)
| MSet (fs : list string)
| MSetMap (m : gomap)
| MSetAllowEmptyFilter (allowEmpty : bool).

Definition mutate (mt : Mutation) : M FilterObj unit :=
  match mt with
  | MAdd fs => Add fs
  | MRemove fs => Remove fs
  | MSet fs => Set_ fs
  | MSetMap m => SetMap m
  | MSetAllowEmptyFilter b => SetAllowEmptyFilter b
  end.

Fixpoint mutations (ms : list Mutation) : M FilterObj unit :=
  match ms with
  | [] => ret tt
  | mt :: rest => mutate mt ;; mutations rest
  end.

(** * [log.go] *)

(** ** Values of type [interface{}]: message arguments and field values.
    Functions are left out; they are what [logrus] refuses as a field. *)

Inductive Value : Type :=
| VString (s : string)
| VInt (z : Z)
| VBool (b : bool)
| VNil.

(** Addresses in the stores below. *)
Abbreviation loc := nat.

(** ** The parts of the Go library that [log.go] calls *)

(** A frame is the file and line of a pending call.  A function is given
    the frames of its callers, the nearest first; [Caller] sees the
    function's own frame in front of them. *)
Abbreviation Frame := (string * nat)%type.

Definition runtime_Caller (self : Frame) (callers : list Frame) (skip : nat)
    : option Frame :=
  (self :: callers) !! skip.

Fixpoint strings_LastIndex_from (s substr : string) (i : nat) (last : Z) : Z :=
  let last' := if String.prefix substr s then Z.of_nat i else last in
  match s with
  | EmptyString => last'
  | String _ s' => strings_LastIndex_from s' substr (S i) last'
  end.

Definition strings_LastIndex (s substr : string) : Z :=
  strings_LastIndex_from s substr 0 (-1).

(** [s[from:]] *)
Definition slice_from (s : string) (from : Z) : string :=
  String.substring (Z.to_nat from) (String.length s - Z.to_nat from) s.

(** [strings.Split(s, sep)] for a separator of one byte *)
Fixpoint strings_Split (s : string) (sep : Ascii.ascii) : list string :=
  match s with
  | EmptyString => [""]
  | String c rest =>
      if Ascii.eqb c sep then "" :: strings_Split rest sep
      else match strings_Split rest sep with
           | p :: ps => String c p :: ps
           | [] => [String c ""]
           end
  end.

Definition strconv_ParseBool (str : string) : option bool :=
  match str with
  | "1" | "t" | "T" | "TRUE" | "true" | "True" => Some true
  | "0" | "f" | "F" | "FALSE" | "false" | "False" => Some false
  | _ => None
  end.

(** [fmt.Sprintf(" %s:%d ", file, line)] *)
Definition Sprintf_source (file : string) (line : nat) : string :=
  " " ++ file ++ ":" ++ pretty line ++ " ".

(** ** [logrus]: the sink

    Rendering is not modelled: what reaches the formatter and the writer
    is kept as it is handed over, in the order written. *)

Module logrus.

Inductive Level : Type :=
| PanicLevel | FatalLevel | ErrorLevel | WarnLevel
| InfoLevel | DebugLevel | TraceLevel.

Definition Level_uint (l : Level) : nat :=
  match l with
  | PanicLevel => 0 | FatalLevel => 1 | ErrorLevel => 2 | WarnLevel => 3
  | InfoLevel => 4 | DebugLevel => 5 | TraceLevel => 6
  end.

Definition Level_String (l : Level) : string :=
  match l with
  | PanicLevel => "panic" | FatalLevel => "fatal" | ErrorLevel => "error"
  | WarnLevel => "warning" | InfoLevel => "info" | DebugLevel => "debug"
  | TraceLevel => "trace"
  end.

Inductive Formatter : Type :=
| JSONFormatter
| TextFormatter (ForceColors DisableColors : bool)
| OtherFormatter.

Abbreviation Fields := (gmap string Value).

Inductive Message : Type :=
| Sprint (args : list Value)
| Sprintln (args : list Value)
| Sprintf (format : string) (args : list Value).

Record Line : Type := mkLine {
  Line_Level : Level;
  Line_Data : Fields;
  Line_Message : Message;
  Line_Formatter : Formatter
}.

Record Logger : Type := mkLogger {
  Out : list Line;
  Formatter_ : Formatter;
  Level_ : Level
}.

Definition New : Logger := mkLogger [] (TextFormatter false false) InfoLevel.

Definition IsLevelEnabled (logger : Logger) (level : Level) : bool :=
  Nat.leb (Level_uint level) (Level_uint (Level_ logger)).

Definition write (logger : Logger) (level : Level) (data : Fields)
    (msg : Message) : Logger :=
  mkLogger (Out logger ++ [mkLine level data msg (Formatter_ logger)])
           (Formatter_ logger) (Level_ logger).

Record Entry : Type := mkEntry {
  Entry_Logger : loc;
  Data : Fields
}.

Definition NewEntry (logger : loc) : Entry := mkEntry logger ∅.

(** A new entry with a new map: the receiver's fields, then the given
    ones over them. *)
Definition WithFields (entry : Entry) (fields : Fields) : Entry :=
  mkEntry (Entry_Logger entry) (fields ∪ Data entry).

Definition WithField (entry : Entry) (key : string) (value : Value) : Entry :=
  WithFields entry {[key := value]}.

End logrus.

(** ** The error counter: a [prometheus.CounterVec] with its label names *)

Module prometheus.

Record CounterVec : Type := mkCounterVec {
  labelNames : list string;
  children : gmap (list string) nat
}.

Definition NewCounterVec (labelNames : list string) : CounterVec :=
  mkCounterVec labelNames ∅.

(** [WithLabelValues(lvs...).Inc()]; [WithLabelValues] panics unless it
    is given one value for each label name. *)
Definition WithLabelValues_Inc (lvs : list string) (c : CounterVec)
    : option CounterVec :=
  if Nat.eqb (length lvs) (length (labelNames c))
  then Some (mkCounterVec (labelNames c)
               (<[lvs := S (default 0 (children c !! lvs))]> (children c)))
  else None.

Definition total (c : CounterVec) : nat :=
  map_fold (λ _ n acc, n + acc) 0 (children c).

End prometheus.

(** ** The [logger] struct and the store *)

Record logger : Type := mklogger {
  logger_Logger : loc;
  entry : logrus.Entry;
  fmt : string;
  logFilter : loc
}.

Record World : Type := mkWorld {
  sinks : list logrus.Logger;
  filterObjs : list FilterObj;
  loggers : list logger;
  ErrorCounter : prometheus.CounterVec
}.

Definition origLogger : loc := 0.
Definition defaultLogger : loc := 0.

(** The package variables as [init] leaves them. *)
Definition init : World :=
  mkWorld [logrus.New]
          [NewConcurrentMapFilter false]
          [mklogger origLogger (logrus.NewEntry origLogger) "short" 0]
          (prometheus.NewCounterVec ["line"]).

(** Dereferencing a pointer that is not in the store panics. *)

Definition deref (l : loc) : M World logger :=
  λ w, match loggers w !! l with
       | Some lr => Ok lr w
       | None => Panic w
       end.

Definition new_logger (lr : logger) : M World loc :=
  λ w, Ok (length (loggers w))
          (mkWorld (sinks w) (filterObjs w) (loggers w ++ [lr]) (ErrorCounter w)).

Definition set_logger (l : loc) (lr : logger) : M World unit :=
  λ w, match loggers w !! l with
       | Some _ => Ok tt (mkWorld (sinks w) (filterObjs w)
                            (<[l := lr]> (loggers w)) (ErrorCounter w))
       | None => Panic w
       end.

Definition get_sink (s : loc) : M World logrus.Logger :=
  λ w, match sinks w !! s with
       | Some lg => Ok lg w
       | None => Panic w
       end.

Definition set_sink (s : loc) (lg : logrus.Logger) : M World unit :=
  λ w, match sinks w !! s with
       | Some _ => Ok tt (mkWorld (<[s := lg]> (sinks w)) (filterObjs w)
                            (loggers w) (ErrorCounter w))
       | None => Panic w
       end.

(** A method call on the filter at [ref]; the filter is left in the
    store as the call leaves it. *)
Definition onFilter {A} (ref : loc) (m : M FilterObj A) : M World A :=
  λ w, match filterObjs w !! ref with
       | Some o =>
           let put o' := mkWorld (sinks w) (<[ref := o']> (filterObjs w))
                                 (loggers w) (ErrorCounter w) in
           match m o with
           | Ok a o' => Ok a (put o')
           | Panic o' => Panic (put o')
           | Exit o' => Exit (put o')
           | Block => Block
           end
       | None => Panic w
       end.

(** ** [logrus.Entry]: logging through an entry *)

Module Entry.

Import logrus.

(** An enabled level is written; what is written at [PanicLevel] then
    panics. *)
Definition log (e : Entry) (level : Level) (msg : Message) : M World unit :=
  lg <- get_sink (Entry_Logger e) ;;
  if IsLevelEnabled lg level then
    set_sink (Entry_Logger e) (write lg level (Data e) msg) ;;
    match level with
    | PanicLevel => λ w, Panic w
    | _ => ret tt
    end
  else ret tt.

Definition Log (e : Entry) (level : Level) (args : list Value) : M World unit :=
  log e level (Sprint args).

Definition Logln (e : Entry) (level : Level) (args : list Value) : M World unit :=
  log e level (Sprintln args).

Definition Logf (e : Entry) (level : Level) (format : string)
    (args : list Value) : M World unit :=
  log e level (Sprintf format args).

Definition exit : M World unit := λ w, Exit w.

Definition Debug (e : Entry) (args : list Value) : M World unit :=
  Log e DebugLevel args.

Definition Debugln (e : Entry) (args : list Value) : M World unit :=
  Logln e DebugLevel args.

Definition Debugf (e : Entry) (format : string) (args : list Value) : M World unit :=
  Logf e DebugLevel format args.

Definition Info (e : Entry) (args : list Value) : M World unit :=
  Log e InfoLevel args.

Definition Infoln (e : Entry) (args : list Value) : M World unit :=
  Logln e InfoLevel args.

Definition Infof (e : Entry) (format : string) (args : list Value) : M World unit :=
  Logf e InfoLevel format args.

Definition Warn (e : Entry) (args : list Value) : M World unit :=
  Log e WarnLevel args.

Definition Warnln (e : Entry) (args : list Value) : M World unit :=
  Logln e WarnLevel args.

Definition Warnf (e : Entry) (format : string) (args : list Value) : M World unit :=
  Logf e WarnLevel format args.

Definition Error (e : Entry) (args : list Value) : M World unit :=
  Log e ErrorLevel args.

Definition Errorln (e : Entry) (args : list Value) : M World unit :=
  Logln e ErrorLevel args.

Definition Errorf (e : Entry) (format : string) (args : list Value) : M World unit :=
  Logf e ErrorLevel format args.

Definition Fatal (e : Entry) (args : list Value) : M World unit :=
  Log e FatalLevel args ;;
  exit.

Definition Fatalln (e : Entry) (args : list Value) : M World unit :=
  Logln e FatalLevel args ;;
  exit.

Definition Fatalf (e : Entry) (format : string) (args : list Value) : M World unit :=
  Logf e FatalLevel format args ;;
  exit.

Definition Panic (e : Entry) (args : list Value) : M World unit :=
  Log e PanicLevel args.

Definition Panicln (e : Entry) (args : list Value) : M World unit :=
  Logln e PanicLevel args.

Definition Panicf (e : Entry) (format : string) (args : list Value) : M World unit :=
  Logf e PanicLevel format args.

End Entry.

(** ** The methods of [*logger], which implement the [Logger] interface

    Each takes the address of its receiver, then the arguments of the Go
    method, then the frames of its callers. *)

(** The path under which the compiler recorded this file. *)
Definition log_go : string := "/src/github.com/jenish-rudani/logsift/log.go".

Module Logger.

(** The body of [withSource], once the receiver is read. *)
Definition withSource_entry (lr : logger) (callers : list Frame) : logrus.Entry :=
  if String.eqb (fmt lr) "none" then entry lr
  else
    let '(file, line) :=
      match runtime_Caller (log_go, 243) callers 2 with
      | None => ("<???>", 1)
      | Some (file, line) =>
          if String.eqb (fmt lr) "short"
          then let slash := strings_LastIndex file "/" in
               (slice_from file (slash + 1), line)
          else (file, line)
      end in
    logrus.WithField (entry lr) "source" (VString (Sprintf_source file line)).

Definition withSource (l : loc) (callers : list Frame) : M World logrus.Entry :=
  lr <- deref l ;; ret (withSource_entry lr callers).

Definition FiltersAllow (l : loc) (filters : list string) : M World bool :=
  lr <- deref l ;; onFilter (logFilter lr) (Allows filters).

Definition RemoveFilter (l : loc) (filter : string) : M World unit :=
  lr <- deref l ;; onFilter (logFilter lr) (Remove [filter]).

Definition AddFilter (l : loc) (filter : string) : M World unit :=
  lr <- deref l ;; onFilter (logFilter lr) (Add [filter]).

Definition UpdateFilter (l : loc) (filter : gomap) : M World unit :=
  lr <- deref l ;; onFilter (logFilter lr) (SetMap filter).

Definition SetAllowEmptyFilter (l : loc) (allow : bool) : M World unit :=
  lr <- deref l ;; onFilter (logFilter lr) (SetAllowEmptyFilter allow).

Definition incrementErrorCounter (l : loc) : M World unit :=
  λ w, match prometheus.WithLabelValues_Inc [] (ErrorCounter w) with
       | Some c => Ok tt (mkWorld (sinks w) (filterObjs w) (loggers w) c)
       | None => Panic w
       end.

Definition With (l : loc) (key : string) (value : Value) : M World loc :=
  lr <- deref l ;;
  new_logger (mklogger origLogger (logrus.WithField (entry lr) key value)
                       (fmt lr) (logFilter lr)).

Definition WithFields (l : loc) (fields : logrus.Fields) : M World loc :=
  lr <- deref l ;;
  new_logger (mklogger origLogger (logrus.WithFields (entry lr) fields)
                       (fmt lr) (logFilter lr)).

Definition Debug (l : loc) (args : list Value) (callers : list Frame)
    : M World unit :=
  e <- withSource l ((log_go, 43) :: callers) ;; Entry.Debug e args.

Definition Debugln (l : loc) (args : list Value) (callers : list Frame)
    : M World unit :=
  e <- withSource l ((log_go, 47) :: callers) ;; Entry.Debugln e args.

Definition Debugf (l : loc) (msg : string) (args : list Value)
    (callers : list Frame) : M World unit :=
  e <- withSource l ((log_go, 51) :: callers) ;; Entry.Debugf e msg args.

Definition DebugFilter (l : loc) (filter : string) (args : list Value)
    (callers : list Frame) : M World unit :=
  allowed <- FiltersAllow l [filter] ;;
  if allowed
  then e <- withSource l ((log_go, 57) :: callers) ;; Entry.Debug e args
  else ret tt.

Definition DebugFilterLn (l : loc) (filter : string) (args : list Value)
    (callers : list Frame) : M World unit :=
  allowed <- FiltersAllow l [filter] ;;
  if allowed
  then e <- withSource l ((log_go, 64) :: callers) ;; Entry.Debugln e args
  else ret tt.

Definition DebugFilterf (l : loc) (filter : string) (fmt : string)
    (args : list Value) (callers : list Frame) : M World unit :=
  allowed <- FiltersAllow l [filter] ;;
  if allowed
  then e <- withSource l ((log_go, 71) :: callers) ;; Entry.Debugf e fmt args
  else ret tt.

Definition DebugFilters (l : loc) (filters : list string) (args : list Value)
    (callers : list Frame) : M World unit :=
  allowed <- FiltersAllow l filters ;;
  if allowed
  then e <- withSource l ((log_go, 78) :: callers) ;; Entry.Debug e args
  else ret tt.

Definition DebugFiltersLn (l : loc) (filters : list string) (args : list Value)
    (callers : list Frame) : M World unit :=
  allowed <- FiltersAllow l filters ;;
  if allowed
  then e <- withSource l ((log_go, 85) :: callers) ;; Entry.Debugln e args
  else ret tt.

Definition DebugFiltersf (l : loc) (filters : list string) (fmt : string)
    (args : list Value) (callers : list Frame) : M World unit :=
  allowed <- FiltersAllow l filters ;;
  if allowed
  then e <- withSource l ((log_go, 92) :: callers) ;; Entry.Debugf e fmt args
  else ret tt.

Definition Info (l : loc) (args : list Value) (callers : list Frame)
    : M World unit :=
  e <- withSource l ((log_go, 97) :: callers) ;; Entry.Info e args.

Definition Infoln (l : loc) (args : list Value) (callers : list Frame)
    : M World unit :=
  e <- withSource l ((log_go, 101) :: callers) ;; Entry.Infoln e args.

Definition Infof (l : loc) (msg : string) (args : list Value)
    (callers : list Frame) : M World unit :=
  e <- withSource l ((log_go, 105) :: callers) ;; Entry.Infof e msg args.

Definition InfoFilter (l : loc) (filter : string) (args : list Value)
    (callers : list Frame) : M World unit :=
  allowed <- FiltersAllow l [filter] ;;
  if allowed
  then e <- withSource l ((log_go, 111) :: callers) ;; Entry.Info e args
  else ret tt.

Definition InfoFilterLn (l : loc) (filter : string) (args : list Value)
    (callers : list Frame) : M World unit :=
  allowed <- FiltersAllow l [filter] ;;
  if allowed
  then e <- withSource l ((log_go, 118) :: callers) ;; Entry.Infoln e args
  else ret tt.

Definition InfoFilterf (l : loc) (filter : string) (fmt : string)
    (args : list Value) (callers : list Frame) : M World unit :=
  allowed <- FiltersAllow l [filter] ;;
  if allowed
  then e <- withSource l ((log_go, 125) :: callers) ;; Entry.Infof e fmt args
  else ret tt.

Definition InfoFilters (l : loc) (filters : list string) (args : list Value)
    (callers : list Frame) : M World unit :=
  allowed <- FiltersAllow l filters ;;
  if allowed
  then e <- withSource l ((log_go, 132) :: callers) ;; Entry.Info e args
  else ret tt.

Definition InfoFiltersLn (l : loc) (filters : list string) (args : list Value)
    (callers : list Frame) : M World unit :=
  allowed <- FiltersAllow l filters ;;
  if allowed
  then e <- withSource l ((log_go, 139) :: callers) ;; Entry.Infoln e args
  else ret tt.

Definition InfoFiltersf (l : loc) (filters : list string) (fmt : string)
    (args : list Value) (callers : list Frame) : M World unit :=
  allowed <- FiltersAllow l filters ;;
  if allowed
  then e <- withSource l ((log_go, 146) :: callers) ;; Entry.Infof e fmt args
  else ret tt.

Definition Warn (l : loc) (args : list Value) (callers : list Frame)
    : M World unit :=
  e <- withSource l ((log_go, 171) :: callers) ;; Entry.Warn e args.

Definition Warnln (l : loc) (args : list Value) (callers : list Frame)
    : M World unit :=
  e <- withSource l ((log_go, 175) :: callers) ;; Entry.Warnln e args.

Definition Warnf (l : loc) (msg : string) (args : list Value)
    (callers : list Frame) : M World unit :=
  e <- withSource l ((log_go, 179) :: callers) ;; Entry.Warnf e msg args.

Definition Error (l : loc) (args : list Value) (callers : list Frame)
    : M World unit :=
  e <- withSource l ((log_go, 188) :: callers) ;; Entry.Error e args.

Definition Errorln (l : loc) (args : list Value) (callers : list Frame)
    : M World unit :=
  e <- withSource l ((log_go, 192) :: callers) ;; Entry.Errorln e args.

Definition Errorf (l : loc) (msg : string) (args : list Value)
    (callers : list Frame) : M World unit :=
  e <- withSource l ((log_go, 196) :: callers) ;; Entry.Errorf e msg args.

Definition Fatal (l : loc) (args : list Value) (callers : list Frame)
    : M World unit :=
  e <- withSource l ((log_go, 200) :: callers) ;; Entry.Fatal e args.

Definition Fatalln (l : loc) (args : list Value) (callers : list Frame)
    : M World unit :=
  e <- withSource l ((log_go, 204) :: callers) ;; Entry.Fatalln e args.

Definition Fatalf (l : loc) (msg : string) (args : list Value)
    (callers : list Frame) : M World unit :=
  e <- withSource l ((log_go, 208) :: callers) ;; Entry.Fatalf e msg args.

Definition Panic (l : loc) (args : list Value) (callers : list Frame)
    : M World unit :=
  e <- withSource l ((log_go, 212) :: callers) ;; Entry.Panic e args.

Definition Panicln (l : loc) (args : list Value) (callers : list Frame)
    : M World unit :=
  e <- withSource l ((log_go, 216) :: callers) ;; Entry.Panicln e args.

Definition Panicf (l : loc) (msg : string) (args : list Value)
    (callers : list Frame) : M World unit :=
  e <- withSource l ((log_go, 220) :: callers) ;; Entry.Panicf e msg args.

End Logger.

(** ** The package-level functions, on the default logger *)

Module logsift.

Import logrus.

Definition Entry : M World logrus.Entry :=
  d <- deref defaultLogger ;; ret (entry d).

Definition SetFormat (format : string) : M World unit :=
  d <- deref defaultLogger ;;
  lg <- get_sink (Entry_Logger (entry d)) ;;
  set_sink (Entry_Logger (entry d))
    (mkLogger (Out lg)
       (if String.eqb format "json" then JSONFormatter
        else if String.eqb format "nocolor" then TextFormatter false true
        else if String.eqb format "forceColor" then TextFormatter true false
        else TextFormatter false false)
       (Level_ lg)).

Definition SetSourceFormat (format : string) : M World unit :=
  d <- deref defaultLogger ;;
  set_logger defaultLogger
    (mklogger (logger_Logger d) (entry d)
       (if String.eqb format "short" then format
        else if String.eqb format "long" then format
        else "short")
       (logFilter d)).

Section SetLevel.

(** [logrus.ParseLevel], a function of the library, taken as it is. *)
Variable ParseLevel : string → option Level.

Definition SetLevel (level : string) : M World unit :=
  d <- deref defaultLogger ;;
  lg <- get_sink (Entry_Logger (entry d)) ;;
  match ParseLevel level with
  | None => set_sink (Entry_Logger (entry d))
              (mkLogger (Out lg) (Formatter_ lg) InfoLevel)
  | Some lvl => set_sink (Entry_Logger (entry d))
              (mkLogger (Out lg) (Formatter_ lg) lvl)
  end.

End SetLevel.

Definition SetAllowEmptyFilter (allow : bool) : M World unit :=
  d <- deref defaultLogger ;;
  onFilter (logFilter d) (SetAllowEmptyFilter allow).

Definition IsDebugEnabled : M World bool :=
  d <- deref defaultLogger ;;
  lg <- get_sink (logger_Logger d) ;;
  ret (match Level_ lg with DebugLevel => true | _ => false end).

Definition GetLevel : M World string :=
  d <- deref defaultLogger ;;
  lg <- get_sink (Entry_Logger (entry d)) ;;
  ret (Level_String (Level_ lg)).

Definition GetSourceFormat : M World string :=
  d <- deref defaultLogger ;; ret (fmt d).

Definition GetFormat : M World string :=
  d <- deref defaultLogger ;;
  lg <- get_sink (Entry_Logger (entry d)) ;;
  ret (match Formatter_ lg with
       | JSONFormatter => "json"
       | TextFormatter ForceColors DisableColors =>
           if negb ForceColors && DisableColors then "nocolor" else "text"
       | OtherFormatter => ""
       end).

Definition RemoveFilter (filter : string) : M World unit :=
  Logger.RemoveFilter defaultLogger filter.

Definition AddFilter (filter : string) : M World unit :=
  Logger.AddFilter defaultLogger filter.

Definition UpdateFilter (filter : gomap) : M World unit :=
  Logger.UpdateFilter defaultLogger filter.

Definition Debug (args : list Value) (callers : list Frame)
    : M World unit :=
  e <- Logger.withSource defaultLogger ((log_go, 390) :: callers) ;; Entry.Debug e args.

Definition Debugln (args : list Value) (callers : list Frame)
    : M World unit :=
  e <- Logger.withSource defaultLogger ((log_go, 394) :: callers) ;; Entry.Debugln e args.

Definition Debugf (msg : string) (args : list Value)
    (callers : list Frame) : M World unit :=
  e <- Logger.withSource defaultLogger ((log_go, 398) :: callers) ;; Entry.Debugf e msg args.

Definition DebugFilter (filter : string) (args : list Value)
    (callers : list Frame) : M World unit :=
  Logger.DebugFilter defaultLogger filter args ((log_go, 430) :: callers).

Definition DebugFilterLn (filter : string) (args : list Value)
    (callers : list Frame) : M World unit :=
  Logger.DebugFilterLn defaultLogger filter args ((log_go, 435) :: callers).

Definition DebugFilterf (filter : string) (fmt : string) (args : list Value)
    (callers : list Frame) : M World unit :=
  Logger.DebugFilterf defaultLogger filter fmt args ((log_go, 440) :: callers).

Definition DebugFilters (filters : list string) (args : list Value)
    (callers : list Frame) : M World unit :=
  Logger.DebugFilters defaultLogger filters args ((log_go, 445) :: callers).

Definition DebugFiltersLn (filters : list string) (args : list Value)
    (callers : list Frame) : M World unit :=
  Logger.DebugFiltersLn defaultLogger filters args ((log_go, 450) :: callers).

Definition DebugFiltersf (filters : list string) (fmt : string) (args : list Value)
    (callers : list Frame) : M World unit :=
  Logger.DebugFiltersf defaultLogger filters fmt args ((log_go, 455) :: callers).

Definition Info (args : list Value) (callers : list Frame)
    : M World unit :=
  e <- Logger.withSource defaultLogger ((log_go, 402) :: callers) ;; Entry.Info e args.

Definition Infoln (args : list Value) (callers : list Frame)
    : M World unit :=
  e <- Logger.withSource defaultLogger ((log_go, 406) :: callers) ;; Entry.Infoln e args.

Definition Infof (msg : string) (args : list Value)
    (callers : list Frame) : M World unit :=
  e <- Logger.withSource defaultLogger ((log_go, 410) :: callers) ;; Entry.Infof e msg args.

Definition InfoFilter (filter : string) (args : list Value)
    (callers : list Frame) : M World unit :=
  Logger.InfoFilter defaultLogger filter args ((log_go, 460) :: callers).

Definition InfoFilterLn (filter : string) (args : list Value)
    (callers : list Frame) : M World unit :=
  Logger.InfoFilterLn defaultLogger filter args ((log_go, 465) :: callers).

Definition InfoFilterf (filter : string) (fmt : string) (args : list Value)
    (callers : list Frame) : M World unit :=
  Logger.InfoFilterf defaultLogger filter fmt args ((log_go, 470) :: callers).

Definition InfoFilters (filters : list string) (args : list Value)
    (callers : list Frame) : M World unit :=
  Logger.InfoFilters defaultLogger filters args ((log_go, 475) :: callers).

Definition InfoFiltersLn (filters : list string) (args : list Value)
    (callers : list Frame) : M World unit :=
  Logger.InfoFiltersLn defaultLogger filters args ((log_go, 480) :: callers).

Definition InfoFiltersf (filters : list string) (fmt : string) (args : list Value)
    (callers : list Frame) : M World unit :=
  Logger.InfoFiltersf defaultLogger filters fmt args ((log_go, 485) :: callers).

Definition Warn (args : list Value) (callers : list Frame)
    : M World unit :=
  e <- Logger.withSource defaultLogger ((log_go, 489) :: callers) ;; Entry.Warn e args.

Definition Warnln (args : list Value) (callers : list Frame)
    : M World unit :=
  e <- Logger.withSource defaultLogger ((log_go, 493) :: callers) ;; Entry.Warnln e args.

Definition Warnf (msg : string) (args : list Value)
    (callers : list Frame) : M World unit :=
  e <- Logger.withSource defaultLogger ((log_go, 497) :: callers) ;; Entry.Warnf e msg args.

Definition Error (args : list Value) (callers : list Frame)
    : M World unit :=
  e <- Logger.withSource defaultLogger ((log_go, 501) :: callers) ;; Entry.Error e args.

Definition Errorln (args : list Value) (callers : list Frame)
    : M World unit :=
  e <- Logger.withSource defaultLogger ((log_go, 505) :: callers) ;; Entry.Errorln e args.

Definition Errorf (msg : string) (args : list Value)
    (callers : list Frame) : M World unit :=
  e <- Logger.withSource defaultLogger ((log_go, 509) :: callers) ;; Entry.Errorf e msg args.

Definition Fatal (args : list Value) (callers : list Frame)
    : M World unit :=
  e <- Logger.withSource defaultLogger ((log_go, 513) :: callers) ;; Entry.Fatal e args.

Definition Fatalln (args : list Value) (callers : list Frame)
    : M World unit :=
  e <- Logger.withSource defaultLogger ((log_go, 517) :: callers) ;; Entry.Fatalln e args.

Definition Fatalf (msg : string) (args : list Value)
    (callers : list Frame) : M World unit :=
  e <- Logger.withSource defaultLogger ((log_go, 521) :: callers) ;; Entry.Fatalf e msg args.

Definition Panic (args : list Value) (callers : list Frame)
    : M World unit :=
  e <- Logger.withSource defaultLogger ((log_go, 525) :: callers) ;; Entry.Panic e args.

Definition Panicln (args : list Value) (callers : list Frame)
    : M World unit :=
  e <- Logger.withSource defaultLogger ((log_go, 529) :: callers) ;; Entry.Panicln e args.

Definition Panicf (msg : string) (args : list Value)
    (callers : list Frame) : M World unit :=
  e <- Logger.withSource defaultLogger ((log_go, 533) :: callers) ;; Entry.Panicf e msg args.

Definition Default : loc := defaultLogger.

Definition With (key : string) (value : Value) : M World loc :=
  Logger.With defaultLogger key value.

Definition WithFields (fields : logrus.Fields) : M World loc :=
  Logger.WithFields defaultLogger fields.

(** [for _, p := range parts { if p == "" { continue }; res[p] = true }] *)
Fixpoint ParseFilters_range (parts : list string) (res : gmap string bool)
    : gmap string bool :=
  match parts with
  | [] => res
  | p :: rest =>
      if String.eqb p "" then ParseFilters_range rest res
      else ParseFilters_range rest (<[p := true]> res)
  end.

Definition ParseFilters (filters : string) : gomap :=
  Some (ParseFilters_range (strings_Split filters ","%char) ∅).

(** ** The HTTP handler

    The request is its parsed form; [FormValue] is the first value of a
    key, or the empty string. *)

Abbreviation Request := (gmap string (list string)).

Definition FormValue (r : Request) (key : string) : string :=
  match r !! key with
  | Some (v :: _) => v
  | _ => ""
  end.

Section Handler.

Variable ParseLevel : string → option Level.

Definition Handler_level (r : Request) (callers : list Frame) : M World unit :=
  let level := FormValue r "level" in
  if negb (String.eqb level "") then
    Warn [VString "updating log level to "; VString level]
         ((log_go, 556) :: callers) ;;
    SetLevel ParseLevel level
  else ret tt.

Definition Handler_format (r : Request) (callers : list Frame) : M World unit :=
  let format := FormValue r "format" in
  if negb (String.eqb format "") then
    Warn [VString "updating format to "; VString format]
         ((log_go, 560) :: callers) ;;
    SetFormat format
  else ret tt.

Definition Handler_sourceFormat (r : Request) (callers : list Frame)
    : M World unit :=
  let sourceFormat := FormValue r "sourceFormat" in
  if negb (String.eqb sourceFormat "") then
    Warn [VString "updating sourceFormat to "; VString sourceFormat]
         ((log_go, 564) :: callers) ;;
    SetSourceFormat sourceFormat
  else ret tt.

Definition Handler_filter (r : Request) (callers : list Frame) : M World unit :=
  let enabledFilters := FormValue r "filter" in
  if negb (String.eqb enabledFilters "") then
    Warn [VString "updating filter to "; VString enabledFilters]
         ((log_go, 568) :: callers) ;;
    UpdateFilter (ParseFilters enabledFilters)
  else ret tt.

Definition Handler_resetFilter (r : Request) (callers : list Frame)
    : M World unit :=
  let resetFilter := FormValue r "resetFilter" in
  if negb (String.eqb resetFilter "") then
    match strconv_ParseBool resetFilter with
    | None =>
        Warn [VString "invalid value for reset filter: "; VString resetFilter]
             ((log_go, 583) :: callers)
    | Some reset =>
        if reset then
          Warn [VString "resetting filter"] ((log_go, 587) :: callers) ;;
          UpdateFilter go_make
        else ret tt
    end
  else ret tt.

(** The two blocks that may return early are followed by what comes
    after them only where they fall through. *)
Definition Handler_allowEmptyFilter (r : Request) (callers : list Frame)
    : M World unit :=
  let allowEmpty := FormValue r "allowEmptyFilter" in
  if negb (String.eqb allowEmpty "") then
    match strconv_ParseBool allowEmpty with
    | None =>
        Warn [VString "invalid value for allow empty filter: ";
              VString allowEmpty] ((log_go, 574) :: callers)
    | Some allow =>
        Warn [VString "updating allow empty filter to "; VBool allow]
             ((log_go, 577) :: callers) ;;
        SetAllowEmptyFilter allow ;;
        Handler_resetFilter r callers
    end
  else Handler_resetFilter r callers.

Definition Handler (r : Request) (callers : list Frame) : M World unit :=
  Handler_level r callers ;;
  Handler_format r callers ;;
  Handler_sourceFormat r callers ;;
  Handler_filter r callers ;;
  Handler_allowEmptyFilter r callers.

End Handler.

End logsift.

(** * Auxiliary definitions for the statements *)

(** The non-empty topics of an argument list. *)
Definition topics (fs : list string) : gset string :=
  list_to_set (filter (λ x, x ≠ "") fs).

(** A property of a new filter of either struct. *)
Definition both (P : FilterObj → Prop) (allowEmpty : bool) : Prop :=
  P (NewConcurrentMapFilter allowEmpty) ∧ P (NewUnsafeMapFilter allowEmpty).

(** A handle is live when its struct, the sink of its entry and its
    filter are in the store and the filter's lock is free. *)
Definition valid (w : World) (l : loc) : bool :=
  match loggers w !! l with
  | Some lr =>
      match sinks w !! logrus.Entry_Logger (entry lr),
            filterObjs w !! logFilter lr with
      | Some _, Some o => ready o
      | _, _ => false
      end
  | None => false
  end.

(** The emission methods of the facade, by severity and by form. *)

Inductive Severity : Type :=
| SDebug | SInfo | SWarn | SError | SFatal | SPanic.

Inductive Form : Type :=
| Plain
| Ln
| Formatted (format : string).

Definition emit (sev : Severity) (form : Form) (l : loc) (args : list Value)
    (callers : list Frame) : M World unit :=
  match sev, form with
  | SDebug, Plain => Logger.Debug l args callers
  | SDebug, Ln => Logger.Debugln l args callers
  | SDebug, Formatted f => Logger.Debugf l f args callers
  | SInfo, Plain => Logger.Info l args callers
  | SInfo, Ln => Logger.Infoln l args callers
  | SInfo, Formatted f => Logger.Infof l f args callers
  | SWarn, Plain => Logger.Warn l args callers
  | SWarn, Ln => Logger.Warnln l args callers
  | SWarn, Formatted f => Logger.Warnf l f args callers
  | SError, Plain => Logger.Error l args callers
  | SError, Ln => Logger.Errorln l args callers
  | SError, Formatted f => Logger.Errorf l f args callers
  | SFatal, Plain => Logger.Fatal l args callers
  | SFatal, Ln => Logger.Fatalln l args callers
  | SFatal, Formatted f => Logger.Fatalf l f args callers
  | SPanic, Plain => Logger.Panic l args callers
  | SPanic, Ln => Logger.Panicln l args callers
  | SPanic, Formatted f => Logger.Panicf l f args callers
  end.

(** The same eighteen as package-level functions. *)
Definition emit_default (sev : Severity) (form : Form) (args : list Value)
    (callers : list Frame) : M World unit :=
  match sev, form with
  | SDebug, Plain => logsift.Debug args callers
  | SDebug, Ln => logsift.Debugln args callers
  | SDebug, Formatted f => logsift.Debugf f args callers
  | SInfo, Plain => logsift.Info args callers
  | SInfo, Ln => logsift.Infoln args callers
  | SInfo, Formatted f => logsift.Infof f args callers
  | SWarn, Plain => logsift.Warn args callers
  | SWarn, Ln => logsift.Warnln args callers
  | SWarn, Formatted f => logsift.Warnf f args callers
  | SError, Plain => logsift.Error args callers
  | SError, Ln => logsift.Errorln args callers
  | SError, Formatted f => logsift.Errorf f args callers
  | SFatal, Plain => logsift.Fatal args callers
  | SFatal, Ln => logsift.Fatalln args callers
  | SFatal, Formatted f => logsift.Fatalf f args callers
  | SPanic, Plain => logsift.Panic args callers
  | SPanic, Ln => logsift.Panicln args callers
  | SPanic, Formatted f => logsift.Panicf f args callers
  end.

(** What the entry methods are given, by severity and by form. *)
Definition entry_emit (sev : Severity) (form : Form) (e : logrus.Entry)
    (args : list Value) : M World unit :=
  match sev, form with
  | SDebug, Plain => Entry.Debug e args
  | SDebug, Ln => Entry.Debugln e args
  | SDebug, Formatted f => Entry.Debugf e f args
  | SInfo, Plain => Entry.Info e args
  | SInfo, Ln => Entry.Infoln e args
  | SInfo, Formatted f => Entry.Infof e f args
  | SWarn, Plain => Entry.Warn e args
  | SWarn, Ln => Entry.Warnln e args
  | SWarn, Formatted f => Entry.Warnf e f args
  | SError, Plain => Entry.Error e args
  | SError, Ln => Entry.Errorln e args
  | SError, Formatted f => Entry.Errorf e f args
  | SFatal, Plain => Entry.Fatal e args
  | SFatal, Ln => Entry.Fatalln e args
  | SFatal, Formatted f => Entry.Fatalf e f args
  | SPanic, Plain => Entry.Panic e args
  | SPanic, Ln => Entry.Panicln e args
  | SPanic, Formatted f => Entry.Panicf e f args
  end.

(** The filter-gated methods: one topic, or a list of them; only the
    debug and info severities have them. *)

Inductive Gated : Type := GDebug | GInfo.

Definition severity (g : Gated) : Severity :=
  match g with GDebug => SDebug | GInfo => SInfo end.

Definition emitFilter (g : Gated) (form : Form) (l : loc) (filter : string)
    (args : list Value) (callers : list Frame) : M World unit :=
  match g, form with
  | GDebug, Plain => Logger.DebugFilter l filter args callers
  | GDebug, Ln => Logger.DebugFilterLn l filter args callers
  | GDebug, Formatted f => Logger.DebugFilterf l filter f args callers
  | GInfo, Plain => Logger.InfoFilter l filter args callers
  | GInfo, Ln => Logger.InfoFilterLn l filter args callers
  | GInfo, Formatted f => Logger.InfoFilterf l filter f args callers
  end.

Definition emitFilters (g : Gated) (form : Form) (l : loc)
    (filters : list string) (args : list Value) (callers : list Frame)
    : M World unit :=
  match g, form with
  | GDebug, Plain => Logger.DebugFilters l filters args callers
  | GDebug, Ln => Logger.DebugFiltersLn l filters args callers
  | GDebug, Formatted f => Logger.DebugFiltersf l filters f args callers
  | GInfo, Plain => Logger.InfoFilters l filters args callers
  | GInfo, Ln => Logger.InfoFiltersLn l filters args callers
  | GInfo, Formatted f => Logger.InfoFiltersf l filters f args callers
  end.

Definition emitFilter_default (g : Gated) (form : Form) (filter : string)
    (args : list Value) (callers : list Frame) : M World unit :=
  match g, form with
  | GDebug, Plain => logsift.DebugFilter filter args callers
  | GDebug, Ln => logsift.DebugFilterLn filter args callers
  | GDebug, Formatted f => logsift.DebugFilterf filter f args callers
  | GInfo, Plain => logsift.InfoFilter filter args callers
  | GInfo, Ln => logsift.InfoFilterLn filter args callers
  | GInfo, Formatted f => logsift.InfoFilterf filter f args callers
  end.

Definition emitFilters_default (g : Gated) (form : Form)
    (filters : list string) (args : list Value) (callers : list Frame)
    : M World unit :=
  match g, form with
  | GDebug, Plain => logsift.DebugFilters filters args callers
  | GDebug, Ln => logsift.DebugFiltersLn filters args callers
  | GDebug, Formatted f => logsift.DebugFiltersf filters f args callers
  | GInfo, Plain => logsift.InfoFilters filters args callers
  | GInfo, Ln => logsift.InfoFiltersLn filters args callers
  | GInfo, Formatted f => logsift.InfoFiltersf filters f args callers
  end.

(** The state an outcome carries; a call that waits forever leaves the
    state it found. *)
Definition state_after {A} (o : Outcome World A) (w : World) : World :=
  match o with
  | Ok _ w' | Panic w' | Exit w' => w'
  | Block => w
  end.

(** Everything written so far, over all sinks. *)
Definition written (w : World) : list logrus.Line :=
  mjoin (logrus.Out <$> sinks w).

(** What a filter answers to [Allows]. *)
Definition answer (o : FilterObj) (filters : list string) : bool :=
  if bool_decide (active o = ∅) then obj_allowEmptyFilter o
  else rangeAllows filters (obj_filters o).


(** ** The configuration in effect

    What the default logger is set to, as its getters and its filter
    report it, with the messages its sink has been handed so far. *)

Record Config : Type := mkConfig {
  cfg_level : logrus.Level;
  cfg_formatter : logrus.Formatter;
  cfg_fmt : string;
  cfg_active : gset string;
  cfg_policy : bool;
  cfg_messages : list logrus.Message
}.

Definition config (w : World) : option Config :=
  d ← loggers w !! defaultLogger;
  lg ← sinks w !! logrus.Entry_Logger (entry d);
  o ← filterObjs w !! logFilter d;
  if ready o
  then Some (mkConfig (logrus.Level_ lg) (logrus.Formatter_ lg) (fmt d)
               (active o) (obj_allowEmptyFilter o)
               (logrus.Line_Message <$> logrus.Out lg))
  else None.

Definition with_level (lvl : logrus.Level) (c : Config) : Config :=
  mkConfig lvl (cfg_formatter c) (cfg_fmt c) (cfg_active c) (cfg_policy c)
           (cfg_messages c).

Definition with_formatter (f : logrus.Formatter) (c : Config) : Config :=
  mkConfig (cfg_level c) f (cfg_fmt c) (cfg_active c) (cfg_policy c)
           (cfg_messages c).

Definition with_fmt (s : string) (c : Config) : Config :=
  mkConfig (cfg_level c) (cfg_formatter c) s (cfg_active c) (cfg_policy c)
           (cfg_messages c).

Definition with_active (a : gset string) (c : Config) : Config :=
  mkConfig (cfg_level c) (cfg_formatter c) (cfg_fmt c) a (cfg_policy c)
           (cfg_messages c).

Definition with_policy (b : bool) (c : Config) : Config :=
  mkConfig (cfg_level c) (cfg_formatter c) (cfg_fmt c) (cfg_active c) b
           (cfg_messages c).

(** A warning reaches the sink when the level in effect lets it. *)
Definition warned (args : list Value) (c : Config) : Config :=
  if Nat.leb (logrus.Level_uint logrus.WarnLevel) (logrus.Level_uint (cfg_level c))
  then mkConfig (cfg_level c) (cfg_formatter c) (cfg_fmt c) (cfg_active c)
         (cfg_policy c) (cfg_messages c ++ [logrus.Sprint args])
  else c.

(** The names the setters know, and what they fall back to. *)

Definition formatter_named (format : string) : logrus.Formatter :=
  if String.eqb format "json" then logrus.JSONFormatter
  else if String.eqb format "nocolor" then logrus.TextFormatter false true
  else if String.eqb format "forceColor" then logrus.TextFormatter true false
  else logrus.TextFormatter false false.

Definition format_name (f : logrus.Formatter) : string :=
  match f with
  | logrus.JSONFormatter => "json"
  | logrus.TextFormatter ForceColors DisableColors =>
      if negb ForceColors && DisableColors then "nocolor" else "text"
  | logrus.OtherFormatter => ""
  end.

Definition sourceFormat_named (format : string) : string :=
  if String.eqb format "short" then format
  else if String.eqb format "long" then format
  else "short".

(** The directives of a request, as the configuration sees them: each
    one present is announced by a warning and then applied. *)

Section Directives.

Variable ParseLevel : string → option logrus.Level.

Definition directive_level (v : string) (c : Config) : Config :=
  if String.eqb v "" then c
  else with_level (default logrus.InfoLevel (ParseLevel v))
         (warned [VString "updating log level to "; VString v] c).

Definition directive_format (v : string) (c : Config) : Config :=
  if String.eqb v "" then c
  else with_formatter (formatter_named v)
         (warned [VString "updating format to "; VString v] c).

Definition directive_sourceFormat (v : string) (c : Config) : Config :=
  if String.eqb v "" then c
  else with_fmt (sourceFormat_named v)
         (warned [VString "updating sourceFormat to "; VString v] c).

Definition directive_filter (v : string) (c : Config) : Config :=
  if String.eqb v "" then c
  else with_active (topics (strings_Split v ","%char))
         (warned [VString "updating filter to "; VString v] c).

Definition directive_allowEmptyFilter (allow : bool) (c : Config) : Config :=
  with_policy allow
    (warned [VString "updating allow empty filter to "; VBool allow] c).

Definition directive_resetFilter (v : string) (c : Config) : Config :=
  if String.eqb v "" then c
  else match strconv_ParseBool v with
       | None => warned [VString "invalid value for reset filter: "; VString v] c
       | Some true => with_active ∅ (warned [VString "resetting filter"] c)
       | Some false => c
       end.

(** The first four, in the order of the handler. *)
Definition directives_before_allowEmptyFilter (r : logsift.Request)
    (c : Config) : Config :=
  directive_filter (logsift.FormValue r "filter")
    (directive_sourceFormat (logsift.FormValue r "sourceFormat")
       (directive_format (logsift.FormValue r "format")
          (directive_level (logsift.FormValue r "level") c))).

(** All six: the two boolean directives stop the request where their
    value does not parse. *)
Definition directives (r : logsift.Request) (c : Config) : Config :=
  let c4 := directives_before_allowEmptyFilter r c in
  let allowEmpty := logsift.FormValue r "allowEmptyFilter" in
  let resetFilter := logsift.FormValue r "resetFilter" in
  if String.eqb allowEmpty "" then directive_resetFilter resetFilter c4
  else match strconv_ParseBool allowEmpty with
       | None =>
           warned [VString "invalid value for allow empty filter: ";
                   VString allowEmpty] c4
       | Some allow =>
           directive_resetFilter resetFilter
             (directive_allowEmptyFilter allow c4)
       end.

End Directives.

(** [logrus.ParseLevel] on the names written in lower case, to run the
    handler on examples. *)
Definition ParseLevel_lower (lvl : string) : option logrus.Level :=
  match lvl with
  | "panic" => Some logrus.PanicLevel
  | "fatal" => Some logrus.FatalLevel
  | "error" => Some logrus.ErrorLevel
  | "warn" | "warning" => Some logrus.WarnLevel
  | "info" => Some logrus.InfoLevel
  | "debug" => Some logrus.DebugLevel
  | "trace" => Some logrus.TraceLevel
  | _ => None
  end.

(** A caller somewhere in a program that uses the package. *)
Definition main_go_12 : list Frame := [("/home/dev/app/main.go", 12)].

(** The level and the message of an emission. *)

Definition level_of (sev : Severity) : logrus.Level :=
  match sev with
  | SDebug => logrus.DebugLevel
  | SInfo => logrus.InfoLevel
  | SWarn => logrus.WarnLevel
  | SError => logrus.ErrorLevel
  | SFatal => logrus.FatalLevel
  | SPanic => logrus.PanicLevel
  end.

Definition message_of (form : Form) (args : list Value) : logrus.Message :=
  match form with
  | Plain => logrus.Sprint args
  | Ln => logrus.Sprintln args
  | Formatted f => logrus.Sprintf f args
  end.

(** The source string of the short mode for the caller at the head of
    [callers], or for the placeholder when there is none. *)
Definition short_source (callers : list Frame) : string :=
  match callers !! 0 with
  | Some (file, line) =>
      Sprintf_source (slice_from file (strings_LastIndex file "/" + 1)) line
  | None => Sprintf_source "<???>" 1
  end.

(** A request with a level, a filter, a malformed allowEmptyFilter and a
    resetFilter. *)
Definition bad_request : logsift.Request :=
  <["level" := ["debug"]]>
    (<["filter" := ["auth,db"]]>
       (<["allowEmptyFilter" := ["notabool"]]>
          (<["resetFilter" := ["true"]]> ∅))).

(** The configuration of [init]. *)
Definition config_init : Config :=
  mkConfig logrus.InfoLevel (logrus.TextFormatter false false) "short" ∅ false [].

(** A store with a second logger whose mode is [none]. *)
Definition world_with_none : World :=
  mkWorld (sinks init) (filterObjs init)
          (loggers init ++ [mklogger origLogger (logrus.NewEntry origLogger) "none" 0])
          (ErrorCounter init).


(** * Further definitions for the statements *)

(** Two filters hold the same map and the same policy. *)
Definition same_contents (o1 o2 : FilterObj) : Prop :=
  obj_filters o1 = obj_filters o2 ∧
  obj_allowEmptyFilter o1 = obj_allowEmptyFilter o2.

(** Two outcomes are of the same kind, with the same result and related
    states. *)
Definition outcome_rel {S T A} (R : S → T → Prop) (x : Outcome S A)
    (y : Outcome T A) : Prop :=
  match x, y with
  | Ok a s, Ok b t => a = b ∧ R s t
  | Panic s, Panic t => R s t
  | Exit s, Exit t => R s t
  | Block, Block => True
  | _, _ => False
  end.

(** A byte occurs in a string. *)
Fixpoint contains (c : Ascii.ascii) (s : string) : bool :=
  match s with
  | EmptyString => false
  | String a s' => Ascii.eqb a c || contains c s'
  end.

(** The index of the last occurrence of the byte ["/"], counted from the
    front. *)
Fixpoint last_slash (s : string) : option nat :=
  match s with
  | EmptyString => None
  | String a s' =>
      match last_slash s' with
      | Some j => Some (S j)
      | None => if Ascii.eqb a "/" then Some 0 else None
      end
  end.

(** ** Programs over the package

    A call of the facade by a user of the package; the package-level
    emission and filter functions are the methods on the default logger.
    The handles that [With] and [WithFields] return are the addresses
    handed out in order, so a later call names them by number. *)

Inductive Call : Type :=
| CWith (l : loc) (key : string) (value : Value)
| CWithFields (l : loc) (fields : logrus.Fields)
| CEmit (sev : Severity) (form : Form) (l : loc) (args : list Value)
    (callers : list Frame)
| CEmitFilter (g : Gated) (form : Form) (l : loc) (filter : string)
    (args : list Value) (callers : list Frame)
| CEmitFilters (g : Gated) (form : Form) (l : loc) (filters : list string)
    (args : list Value) (callers : list Frame)
| CFiltersAllow (l : loc) (filters : list string)
| CAddFilter (l : loc) (filter : string)
| CRemoveFilter (l : loc) (filter : string)
| CUpdateFilter (l : loc) (filter : gomap)
| CSetAllowEmptyFilter (l : loc) (allow : bool)
| CSetLevel (level : string)
| CSetFormat (format : string)
| CSetSourceFormat (format : string)
| CHandler (r : logsift.Request) (callers : list Frame).

Section Calls.

Variable ParseLevel : string → option logrus.Level.

Definition call (c : Call) : M World unit :=
  match c with
  | CWith l key value => Logger.With l key value ;; ret tt
  | CWithFields l fields => Logger.WithFields l fields ;; ret tt
  | CEmit sev form l args callers => emit sev form l args callers
  | CEmitFilter g form l filter args callers =>
      emitFilter g form l filter args callers
  | CEmitFilters g form l filters args callers =>
      emitFilters g form l filters args callers
  | CFiltersAllow l filters => Logger.FiltersAllow l filters ;; ret tt
  | CAddFilter l filter => Logger.AddFilter l filter
  | CRemoveFilter l filter => Logger.RemoveFilter l filter
  | CUpdateFilter l filter => Logger.UpdateFilter l filter
  | CSetAllowEmptyFilter l allow => Logger.SetAllowEmptyFilter l allow
  | CSetLevel level => logsift.SetLevel ParseLevel level
  | CSetFormat format => logsift.SetFormat format
  | CSetSourceFormat format => logsift.SetSourceFormat format
  | CHandler r callers => logsift.Handler ParseLevel r callers
  end.

Fixpoint calls (cs : list Call) : M World unit :=
  match cs with
  | [] => ret tt
  | c :: rest => call c ;; calls rest
  end.

End Calls.

(** What the package keeps true of its store: the error counter as
    [init] made it; one sink; one filter, of the concurrent struct, with
    its lock free; a default logger; and every logger struct pointing at
    that sink and that filter, in the short or the long mode. *)
Definition coherent (w : World) : Prop :=
  ErrorCounter w = ErrorCounter init ∧
  length (sinks w) = 1 ∧
  (∃ f, filterObjs w = [Concurrent f] ∧
        concurrentMapFilter.mu f = RWMutex.zero) ∧
  is_Some (loggers w !! defaultLogger) ∧
  ∀ l lr, loggers w !! l = Some lr →
    logger_Logger lr = origLogger ∧
    logrus.Entry_Logger (entry lr) = origLogger ∧
    logFilter lr = 0 ∧
    (fmt lr = "short" ∨ fmt lr = "long").

(** A computation keeps the store coherent where it returns, leaves the
    error counter alone where it panics or exits, and does not wait. *)
Definition safe {A} (m : M World A) : Prop :=
  ∀ w, coherent w →
    match m w with
    | Ok _ w' => coherent w'
    | Panic w' | Exit w' => ErrorCounter w' = ErrorCounter init
    | Block => False
    end.

(** A filter method leaves the one filter of the package as it found
    it: of the concurrent struct, with its lock free. *)
Definition fsafe {A} (m : M FilterObj A) : Prop :=
  ∀ f, concurrentMapFilter.mu f = RWMutex.zero →
    match m (Concurrent f) with
    | Ok _ o' => ∃ f', o' = Concurrent f' ∧
                       concurrentMapFilter.mu f' = RWMutex.zero
    | Block => False
    | _ => True
    end.

(** * Properties of the filters *)

Lemma topics_nil : topics [] = ∅.
Proof. reflexivity. Qed.

Lemma topics_cons x fs :
  topics (x :: fs) = if String.eqb x "" then topics fs else {[x]} ∪ topics fs.
Proof.
  unfold topics. rewrite filter_cons.
  destruct (String.eqb_spec x ""); case_decide; done.
Qed.

Lemma elem_of_topics x fs : x ∈ topics fs ↔ x ∈ fs ∧ x ≠ "".
Proof.
  unfold topics. rewrite elem_of_list_to_set, list_elem_of_filter. tauto.
Qed.

Lemma empty_notin_topics fs : "" ∉ topics fs.
Proof. rewrite elem_of_topics. tauto. Qed.

(** ** The loops *)

Lemma rangeAdd_make fs (g : gmap string bool) :
  ∃ g', rangeAdd fs (Some g) = Some (Some g') ∧ dom g' = dom g ∪ topics fs.
Proof.
  revert g. induction fs as [|x fs IH]; intros g; simpl.
  - exists g. rewrite topics_nil. split; [done | set_solver].
  - rewrite topics_cons. destruct (String.eqb x ""); [apply IH|].
    simpl. destruct (IH (<[x:=true]> g)) as (g' & -> & Hd).
    exists g'. split; [done|]. rewrite Hd, dom_insert_L. set_solver.
Qed.

Lemma rangeAdd_nil_map fs :
  rangeAdd fs None = if bool_decide (topics fs = ∅) then Some None else None.
Proof.
  induction fs as [|x fs IH]; simpl; [done|].
  rewrite topics_cons. destruct (String.eqb x ""); [apply IH|].
  simpl. rewrite bool_decide_eq_false_2; [done|].
  intros He. assert (x ∈ (∅ : gset string)) as Hx by (rewrite <- He; set_solver).
  set_solver.
Qed.

Lemma rangeAdd_keyset fs m m' :
  rangeAdd fs m = Some m' → keyset m' = keyset m ∪ topics fs.
Proof.
  destruct m as [g|].
  - destruct (rangeAdd_make fs g) as (g' & -> & Hd). by intros [= <-].
  - rewrite rangeAdd_nil_map. case_bool_decide as Ht; [|done].
    intros [= <-]. rewrite Ht. set_solver.
Qed.

Lemma rangeRemove_keyset fs m :
  keyset (rangeRemove fs m) = keyset m ∖ topics fs.
Proof.
  revert m. induction fs as [|x fs IH]; intros m; simpl.
  - rewrite topics_nil. set_solver.
  - rewrite topics_cons. destruct (String.eqb x ""); [apply IH|].
    rewrite IH. destruct m as [g|]; simpl; [|set_solver].
    rewrite dom_delete_L. set_solver.
Qed.

Lemma go_delete_twice m k : go_delete (go_delete m k) k = go_delete m k.
Proof. destruct m as [g|]; simpl; [|done]. by rewrite delete_delete_eq. Qed.

Lemma rangeStripKeys_spec keys m :
  rangeStripKeys keys m = if bool_decide ("" ∈ keys) then go_delete m "" else m.
Proof.
  revert m. induction keys as [|k keys IH]; intros m; cbn [rangeStripKeys].
  - rewrite bool_decide_eq_false_2; [done | apply not_elem_of_nil].
  - rewrite IH. destruct (String.eqb_spec k "") as [->|Hk].
    + rewrite go_delete_twice.
      rewrite (bool_decide_eq_true_2 ("" ∈ "" :: keys)) by left.
      by case_bool_decide.
    + case_bool_decide as H1; case_bool_decide as H2; try done.
      * exfalso. apply H2. by right.
      * apply elem_of_cons in H2 as [?|?]; done.
Qed.

(** Ranging over the map and deleting the empty key where it is met is
    deleting the empty key, whatever the order of the keys. *)
Lemma rangeStrip_delete m : rangeStrip m = go_delete m "".
Proof.
  unfold rangeStrip. rewrite rangeStripKeys_spec.
  case_bool_decide as Hk; [done|].
  destruct m as [g|]; simpl in *; [|done].
  rewrite delete_id; [done|].
  destruct (g !! "") as [b|] eqn:Hg; [|done].
  exfalso. apply Hk. apply list_elem_of_fmap. exists ("", b).
  split; [done|]. by apply elem_of_map_to_list.
Qed.

Lemma rangeStrip_keyset m : keyset (rangeStrip m) = keyset m ∖ {[""]}.
Proof.
  rewrite rangeStrip_delete. destruct m as [g|]; simpl; [|set_solver].
  by rewrite dom_delete_L.
Qed.

Lemma go_has_keyset m k : go_has m k = bool_decide (k ∈ keyset m).
Proof.
  unfold go_has, keyset. destruct m as [g|]; simpl.
  - destruct (g !! k) eqn:Hk.
    + rewrite bool_decide_eq_true_2; [done|]. apply elem_of_dom. eauto.
    + rewrite bool_decide_eq_false_2; [done|]. by apply not_elem_of_dom.
  - rewrite bool_decide_eq_false_2; [done | set_solver].
Qed.

Lemma rangeAllows_true vs m :
  rangeAllows vs m = true ↔ ∃ v, v ∈ vs ∧ v ∈ keyset m.
Proof.
  induction vs as [|v vs IH]; simpl.
  - split; [done | intros (v & Hv & _); by apply elem_of_nil in Hv].
  - rewrite go_has_keyset. case_bool_decide as Hv.
    + split; [|done]. intros _. exists v. split; [left | done].
    + rewrite IH. split.
      * intros (u & Hu & Hm). exists u. split; [by right | done].
      * intros (u & Hu & Hm). apply elem_of_cons in Hu as [->|Hu]; [done|].
        eauto.
Qed.

Lemma go_empty_keyset m :
  go_isnil m || Nat.eqb (go_len m) 0 = bool_decide (keyset m = ∅).
Proof.
  destruct m as [g|]; simpl; [|done].
  destruct (Nat.eqb_spec (size g) 0) as [Hs|Hs].
  - apply map_size_empty_iff in Hs as ->. by rewrite dom_empty_L.
  - rewrite bool_decide_eq_false_2; [done|].
    intros Hd. apply Hs, map_size_empty_iff. by apply dom_empty_iff_L.
Qed.

(** ** The methods, on a filter whose lock is free *)

Lemma obj_with_id o :
  ready o = true → obj_with o (obj_allowEmptyFilter o) (obj_filters o) = o.
Proof. by destruct o as [[[[] []] a m]|[a m]]. Qed.

Lemma ready_obj_with o a m : ready (obj_with o a m) = true.
Proof. by destruct o. Qed.

Lemma filters_obj_with o a m : obj_filters (obj_with o a m) = m.
Proof. by destruct o. Qed.

Lemma allow_obj_with o a m : obj_allowEmptyFilter (obj_with o a m) = a.
Proof. by destruct o. Qed.

Lemma obj_with_twice o a m a' m' :
  obj_with (obj_with o a m) a' m' = obj_with o a' m'.
Proof. by destruct o. Qed.

Ltac ready_cases o :=
  destruct o as [[[[] []] ? ?]|[? ?]]; try discriminate; intros _.

Lemma Add_ready fs o :
  ready o = true →
  Add fs o = match rangeAdd fs (obj_filters o) with
             | Some m => Ok tt (obj_with o (obj_allowEmptyFilter o) m)
             | None => Panic o
             end.
Proof.
  revert o. intros o. ready_cases o; simpl;
    unfold concurrentMapFilter.Add, concurrentMapFilter.locked,
      unsafeMapFilter.Add; simpl;
    by destruct (rangeAdd fs _).
Qed.

Lemma Remove_ready fs o :
  ready o = true →
  Remove fs o = Ok tt (obj_with o (obj_allowEmptyFilter o)
                                (rangeRemove fs (obj_filters o))).
Proof. ready_cases o; done. Qed.

Lemma Set_ready fs o :
  ready o = true →
  ∃ g, rangeAdd fs go_make = Some (Some g) ∧ dom g = topics fs ∧
       Set_ fs o = Ok tt (obj_with o (obj_allowEmptyFilter o) (Some g)).
Proof.
  destruct (rangeAdd_make fs ∅) as (g & Hg & Hd).
  intros Hr. exists g. split; [done|]. split; [rewrite Hd; set_solver|].
  revert Hr. ready_cases o; simpl;
    unfold concurrentMapFilter.Set_, concurrentMapFilter.locked,
      unsafeMapFilter.Set_, go_make; simpl; by rewrite Hg.
Qed.

Lemma SetMap_ready m o :
  ready o = true →
  SetMap m o = Ok tt (obj_with o (obj_allowEmptyFilter o) (rangeStrip m)).
Proof. ready_cases o; done. Qed.

Lemma SetAllowEmptyFilter_ready b o :
  ready o = true →
  SetAllowEmptyFilter b o = Ok tt (obj_with o b (obj_filters o)).
Proof. ready_cases o; done. Qed.

Lemma Allows_ready vs o :
  ready o = true →
  Allows vs o = Ok (if bool_decide (active o = ∅) then obj_allowEmptyFilter o
                    else rangeAllows vs (obj_filters o)) o.
Proof.
  unfold active. rewrite <- go_empty_keyset. ready_cases o; done.
Qed.

(** A mutation that returns leaves the lock free. *)
Lemma mutate_ready mt o o' :
  ready o = true → mutate mt o = Ok tt o' → ready o' = true.
Proof.
  intros Hr. destruct mt as [fs|fs|fs|m|b]; cbn [mutate].
  - rewrite Add_ready by done. destruct (rangeAdd _ _); [|done].
    intros [= <-]. apply ready_obj_with.
  - rewrite Remove_ready by done. intros [= <-]. apply ready_obj_with.
  - destruct (Set_ready fs o Hr) as (g & _ & _ & ->).
    intros [= <-]. apply ready_obj_with.
  - rewrite SetMap_ready by done. intros [= <-]. apply ready_obj_with.
  - rewrite SetAllowEmptyFilter_ready by done. intros [= <-].
    apply ready_obj_with.
Qed.

Lemma mutations_cons mt ms o o' :
  mutations (mt :: ms) o = Ok tt o' ↔
  ∃ o1, mutate mt o = Ok tt o1 ∧ mutations ms o1 = Ok tt o'.
Proof.
  cbn [mutations]. unfold bind.
  destruct (mutate mt o) as [[] o1| | |]; split; try done; eauto.
  - by intros (? & [= <-] & ?).
  - by intros (? & ? & ?).
  - by intros (? & ? & ?).
  - by intros (? & ? & ?).
Qed.

Lemma mutations_ready ms o o' :
  ready o = true → mutations ms o = Ok tt o' → ready o' = true.
Proof.
  revert o. induction ms as [|mt ms IH]; intros o Hr.
  - by intros [= <-].
  - intros (o1 & H1 & H2)%mutations_cons. eauto using mutate_ready.
Qed.

(** What each mutation does to the active set and to the policy. *)
Lemma mutate_active mt o o' :
  ready o = true → mutate mt o = Ok tt o' →
  active o' = match mt with
              | MAdd fs => active o ∪ topics fs
              | MRemove fs => active o ∖ topics fs
              | MSet fs => topics fs
              | MSetMap m => keyset m ∖ {[""]}
              | MSetAllowEmptyFilter _ => active o
              end.
Proof.
  intros Hr. unfold active. destruct mt as [fs|fs|fs|m|b]; cbn [mutate].
  - rewrite Add_ready by done. destruct (rangeAdd _ _) eqn:Ha; [|done].
    intros [= <-]. rewrite filters_obj_with. eauto using rangeAdd_keyset.
  - rewrite Remove_ready by done. intros [= <-].
    by rewrite filters_obj_with, rangeRemove_keyset.
  - destruct (Set_ready fs o Hr) as (g & _ & Hd & ->).
    intros [= <-]. by rewrite filters_obj_with.
  - rewrite SetMap_ready by done. intros [= <-].
    by rewrite filters_obj_with, rangeStrip_keyset.
  - rewrite SetAllowEmptyFilter_ready by done. intros [= <-].
    by rewrite filters_obj_with.
Qed.

Lemma mutate_keeps_empty_out mt o o' :
  ready o = true → "" ∉ active o → mutate mt o = Ok tt o' → "" ∉ active o'.
Proof.
  intros Hr Hi Hm. rewrite (mutate_active mt o o' Hr Hm).
  pose proof (empty_notin_topics). destruct mt; set_solver.
Qed.

Lemma mutations_keep_empty_out ms o o' :
  ready o = true → "" ∉ active o → mutations ms o = Ok tt o' → "" ∉ active o'.
Proof.
  revert o. induction ms as [|mt ms IH]; intros o Hr Hi.
  - by intros [= <-].
  - intros (o1 & H1 & H2)%mutations_cons.
    apply (IH o1); [by eapply mutate_ready | | done].
    by eapply mutate_keeps_empty_out.
Qed.

(** [Add] changes the map only: same struct, same policy. *)
Lemma adds_shape (adds : list (list string)) o o' :
  ready o = true → mutations (MAdd <$> adds) o = Ok tt o' →
  ∃ m, o' = obj_with o (obj_allowEmptyFilter o) m.
Proof.
  revert o. induction adds as [|fs adds IH]; intros o Hr.
  - intros [= <-]. exists (obj_filters o). by rewrite obj_with_id.
  - rewrite fmap_cons. intros (o1 & H1 & H2)%mutations_cons.
    cbn [mutate] in H1. rewrite Add_ready in H1 by done.
    destruct (rangeAdd _ _) as [m1|]; [|done]. injection H1 as <-.
    destruct (IH _ (ready_obj_with _ _ _) H2) as (m & ->).
    exists m. by rewrite allow_obj_with, obj_with_twice.
Qed.

(** C3: for both filter structs and after every sequence of mutations,
    [Allows] returns, leaves the filter as it was, and its answer is: on
    a non-empty active set, true exactly when one of the topics given is
    a member; on an empty active set, the current [allowEmptyFilter]
    whatever the topics; so with no topic and a non-empty set, false. *)
Theorem Allows_decides (o0 o : FilterObj) (ms : list Mutation)
    (vs : list string) :
  ready o0 = true →
  mutations ms o0 = Ok tt o →
  ∃ b, Allows vs o = Ok b o ∧
       (b = true ↔
          (active o ≠ ∅ ∧ ∃ v, v ∈ vs ∧ v ∈ active o) ∨
          (active o = ∅ ∧ obj_allowEmptyFilter o = true)) ∧
       (active o = ∅ → b = obj_allowEmptyFilter o) ∧
       (active o ≠ ∅ → Allows [] o = Ok false o).
Proof.
  intros Hr0 Hms. pose proof (mutations_ready _ _ _ Hr0 Hms) as Hr.
  eexists. split; [by apply Allows_ready|].
  rewrite (Allows_ready [] o Hr).
  case_bool_decide as He; (split; [|split]); try done.
  - split; [by right | intros [[? _]|[_ ?]]; done].
  - rewrite rangeAllows_true. split; [by left | intros [[_ ?]|[? _]]; done].
Qed.

Lemma Allows_decides_witness :
  ∃ b, Allows ["db"; "auth"] (obj_with (NewConcurrentMapFilter false) false
                                (Some {["auth" := true]})) = Ok b
         (obj_with (NewConcurrentMapFilter false) false (Some {["auth" := true]}))
       ∧ b = true.
Proof.
  destruct (Allows_decides (NewConcurrentMapFilter false)
              (obj_with (NewConcurrentMapFilter false) false
                 (Some {["auth" := true]}))
              [MAdd ["auth"]] ["db"; "auth"])
    as (b & Hb & _); [reflexivity | reflexivity |].
  exists b. split; [exact Hb|].
  vm_compute in Hb. by injection Hb as <-.
Defined.

(** C6: for both filter structs, [Set] after any mutations leaves exactly
    the non-empty topics of its arguments active, so a topic added before
    and not given again is refused and a topic given is allowed; after
    [Add] calls only, [Set] ends in the very state [Set] alone ends in. *)
Theorem Set_supersedes (o o1 : FilterObj) (ms : list Mutation)
    (xs : list string) :
  ready o = true →
  mutations ms o = Ok tt o1 →
  ∃ o2, Set_ xs o1 = Ok tt o2 ∧
        active o2 = topics xs ∧
        (∀ v, topics xs ≠ ∅ →
              Allows [v] o2 = Ok (bool_decide (v ∈ xs ∧ v ≠ "")) o2) ∧
        (∀ adds : list (list string), ms = MAdd <$> adds →
              Set_ xs o = Ok tt o2).
Proof.
  intros Hr0 Hms. pose proof (mutations_ready _ _ _ Hr0 Hms) as Hr.
  destruct (Set_ready xs o1 Hr) as (g & Hg & Hd & HS).
  eexists. split; [exact HS|].
  assert (active (obj_with o1 (obj_allowEmptyFilter o1) (Some g)) = topics xs)
    as Hact by (unfold active; by rewrite filters_obj_with).
  split; [done|]. split.
  - intros v Hne. rewrite Allows_ready by apply ready_obj_with.
    rewrite Hact, bool_decide_eq_false_2 by done.
    rewrite filters_obj_with. cbn [rangeAllows]. rewrite go_has_keyset.
    cbn [keyset from_option]. rewrite Hd.
    rewrite (bool_decide_ext _ _ (elem_of_topics v xs)).
    by case_bool_decide.
  - intros adds ->. destruct (adds_shape adds o o1 Hr0 Hms) as (m & ->).
    destruct (Set_ready xs o Hr0) as (g' & Hg' & _ & ->).
    rewrite Hg in Hg'. injection Hg' as <-.
    by rewrite allow_obj_with, obj_with_twice.
Qed.

Lemma Set_supersedes_witness :
  ∃ o2, Set_ ["x"] (obj_with (NewUnsafeMapFilter false) false
                      (Some (<["b" := true]> {["a" := true]}))) = Ok tt o2 ∧
        Allows ["a"] o2 = Ok false o2 ∧
        Allows ["b"] o2 = Ok false o2 ∧
        Allows ["x"] o2 = Ok true o2 ∧
        Set_ ["x"] (NewUnsafeMapFilter false) = Ok tt o2.
Proof.
  destruct (Set_supersedes (NewUnsafeMapFilter false)
              (obj_with (NewUnsafeMapFilter false) false
                 (Some (<["b" := true]> {["a" := true]})))
              [MAdd ["a"]; MAdd ["b"]] ["x"])
    as (o2 & HS & _ & HA & Hadds); [reflexivity | reflexivity |].
  exists o2. split; [exact HS|].
  assert (topics ["x"] ≠ ∅) as Hne by (by vm_compute).
  rewrite (HA "a" Hne), (HA "b" Hne), (HA "x" Hne).
  repeat split; try reflexivity.
  exact (Hadds [["a"]; ["b"]] eq_refl).
Defined.

(** C7: for both filter structs, the empty string is never active: not in
    a new filter, and not after any sequence of [Add], [Remove], [Set],
    [SetMap] and [SetAllowEmptyFilter]; an empty-string argument to [Add]
    or [Remove] changes nothing, [SetMap] leaves the given keys without
    the empty one, and [Allows("")] is false on every non-empty set. *)
Theorem empty_topic_never_active (o0 o : FilterObj) (ms : list Mutation) :
  (∃ allowEmpty, o0 = NewConcurrentMapFilter allowEmpty ∨
                 o0 = NewUnsafeMapFilter allowEmpty) →
  mutations ms o0 = Ok tt o →
  ("" ∉ active o) ∧
  (active o ≠ ∅ → Allows [""] o = Ok false o) ∧
  Add [""] o = Ok tt o ∧
  Remove [""] o = Ok tt o ∧
  (∀ m, ∃ o', SetMap m o = Ok tt o' ∧ active o' = keyset m ∖ {[""]}) ∧
  (∀ fs, ∃ o', Set_ fs o = Ok tt o' ∧ active o' = topics fs ∧ "" ∉ active o').
Proof.
  intros (a & Ho0) Hms.
  assert (ready o0 = true ∧ "" ∉ active o0) as [Hr0 Hi0].
  { destruct Ho0 as [-> | ->]; (split; [done|]); unfold active; simpl;
      rewrite dom_empty_L; set_solver. }
  pose proof (mutations_ready _ _ _ Hr0 Hms) as Hr.
  pose proof (mutations_keep_empty_out _ _ _ Hr0 Hi0 Hms) as Hi.
  split; [done|]. split; [|split; [|split; [|split]]].
  - intros Hne. rewrite Allows_ready by done.
    rewrite bool_decide_eq_false_2 by done. cbn [rangeAllows].
    fold (active o). rewrite go_has_keyset.
    by rewrite bool_decide_eq_false_2.
  - rewrite Add_ready by done. simpl. by rewrite obj_with_id.
  - rewrite Remove_ready by done. simpl. by rewrite obj_with_id.
  - intros m. eexists. split; [by apply SetMap_ready|].
    unfold active. by rewrite filters_obj_with, rangeStrip_keyset.
  - intros fs. destruct (Set_ready fs o Hr) as (g & _ & Hd & ->).
    eexists. split; [done|]. unfold active. rewrite filters_obj_with. simpl.
    rewrite Hd. split; [done | apply empty_notin_topics].
Qed.

Lemma empty_topic_never_active_witness :
  ("" ∉ active (obj_with (NewConcurrentMapFilter false) false
                  (Some {["a" := true]}))) ∧
  Allows [""] (obj_with (NewConcurrentMapFilter false) false
                 (Some {["a" := true]}))
  = Ok false (obj_with (NewConcurrentMapFilter false) false
                 (Some {["a" := true]})).
Proof.
  destruct (empty_topic_never_active (NewConcurrentMapFilter false)
              (obj_with (NewConcurrentMapFilter false) false
                 (Some {["a" := true]}))
              [MSetMap (Some (<["" := true]> {["a" := true]}))])
    as (Hi & HA & _).
  - exists false. by left.
  - reflexivity.
  - split; [exact Hi|]. apply HA. by vm_compute.
Defined.

(** ** The cases of [filter_test.go], run on both structs *)

Example TestFilter_Add_and_Allows :
  both (λ f, ∃ f1, Add ["auth"] f = Ok tt f1 ∧
                   Allows ["auth"] f1 = Ok true f1 ∧
                   Allows ["db"] f1 = Ok false f1) false.
Proof. split; eexists; repeat split; by vm_compute. Qed.

Example TestFilter_Add_IgnoresEmptyString :
  both (λ f, Add [""] f = Ok tt f ∧ Allows [""] f = Ok false f) false.
Proof. split; repeat split; by vm_compute. Qed.

Example TestFilter_SetMap :
  both (λ f, ∃ f1,
          SetMap (Some (<["" := true]> (<["db" := true]> {["auth" := true]}))) f
            = Ok tt f1 ∧
          Allows ["auth"] f1 = Ok true f1 ∧
          Allows ["db"] f1 = Ok true f1 ∧
          Allows [""] f1 = Ok false f1) false.
Proof. split; eexists; repeat split; by vm_compute. Qed.

Example TestFilter_Allows_EmptyFilter :
  both (λ f, Allows ["anything"] f = Ok true f) true ∧
  both (λ f, Allows ["anything"] f = Ok false f) false.
Proof. repeat split; by vm_compute. Qed.

Example TestFilter_Allows_NoArgs :
  both (λ f, ∃ f1, Add ["auth"] f = Ok tt f1 ∧ Allows [] f1 = Ok false f1) false.
Proof. split; eexists; repeat split; by vm_compute. Qed.

(** A nil map handed to [SetMap] is kept: [Allows] falls back to the
    policy, and the next [Add] of a topic panics on the store. *)
Example SetMap_nil_then_Add :
  both (λ f, ∃ f1, SetMap None f = Ok tt f1 ∧
                   Allows ["x"] f1 = Ok false f1 ∧
                   Add [""] f1 = Ok tt f1 ∧
                   Add ["x"] f1 = Panic f1) false.
Proof. split; eexists; repeat split; by vm_compute. Qed.

(** A second writer finds the lock of the concurrent filter held. *)
Example Add_waits_for_the_lock :
  Add ["x"] (Concurrent (concurrentMapFilter.mk (RWMutex.mk true 0) false go_make))
  = Block.
Proof. reflexivity. Qed.

(** * Properties of the facade *)

Lemma world_eta w :
  mkWorld (sinks w) (filterObjs w) (loggers w) (ErrorCounter w) = w.
Proof. by destruct w. Qed.

Lemma bind_Ok {S A B} (m : M S A) (k : A → M S B) s a s' :
  m s = Ok a s' → bind m k s = k a s'.
Proof. unfold bind. by intros ->. Qed.

Lemma bind_Panic {S A B} (m : M S A) (k : A → M S B) s s' :
  m s = Panic s' → bind m k s = Panic s'.
Proof. unfold bind. by intros ->. Qed.

Lemma deref_Some w l lr : loggers w !! l = Some lr → deref l w = Ok lr w.
Proof. unfold deref. by intros ->. Qed.

Lemma get_sink_Some w s lg : sinks w !! s = Some lg → get_sink s w = Ok lg w.
Proof. unfold get_sink. by intros ->. Qed.

Lemma valid_inv w l :
  valid w l = true →
  ∃ lr lg o, loggers w !! l = Some lr ∧
             sinks w !! logrus.Entry_Logger (entry lr) = Some lg ∧
             filterObjs w !! logFilter lr = Some o ∧ ready o = true.
Proof.
  unfold valid. destruct (loggers w !! l) as [lr|] eqn:Hl; [|done].
  destruct (sinks w !! _) as [lg|] eqn:Hs; [|done].
  destruct (filterObjs w !! _) as [o|] eqn:Ho; [|done].
  intros Hr. by exists lr, lg, o.
Qed.

(** ** Source capture *)

Lemma withSource_Some w l lr callers :
  loggers w !! l = Some lr →
  Logger.withSource l callers w = Ok (Logger.withSource_entry lr callers) w.
Proof.
  intros Hl. unfold Logger.withSource. by rewrite (bind_Ok _ _ _ _ _ (deref_Some _ _ _ Hl)).
Qed.

(** The frame of the method that calls [withSource] is skipped: the one
    read is the frame of that method's caller. *)
Lemma withSource_skips_method l (m1 m2 : Frame) callers :
  Logger.withSource l (m1 :: callers) = Logger.withSource l (m2 :: callers).
Proof. reflexivity. Qed.

(** ** Asking the filter through a handle *)

Lemma onFilter_Allows w ref o filters :
  filterObjs w !! ref = Some o → ready o = true →
  onFilter ref (Allows filters) w = Ok (answer o filters) w.
Proof.
  intros Ho Hr. unfold onFilter. rewrite Ho, Allows_ready by done.
  by rewrite list_insert_id, world_eta.
Qed.

Lemma FiltersAllow_Some w l lr o filters :
  loggers w !! l = Some lr → filterObjs w !! logFilter lr = Some o →
  ready o = true →
  Logger.FiltersAllow l filters w = Ok (answer o filters) w.
Proof.
  intros Hl Ho Hr. unfold Logger.FiltersAllow.
  rewrite (bind_Ok _ _ _ _ _ (deref_Some _ _ _ Hl)).
  by apply onFilter_Allows.
Qed.

(** X27: the twelve filter-gated methods.  On a live handle, each of them
    first asks the filter, which answers and changes nothing; on a
    refusal the call returns with the state untouched, and on an
    approval it is, as a state transformer, the ungated method of the
    same severity and form called from the same place.  The
    package-level functions of the same names are these methods on the
    default logger, called from a line of [log.go]. *)
Theorem filter_gated_emission (w : World) (l : loc) (g : Gated) (form : Form)
    (filter : string) (filters : list string) (args : list Value)
    (callers : list Frame) :
  valid w l = true →
  ∃ one many : bool,
    Logger.FiltersAllow l [filter] w = Ok one w ∧
    Logger.FiltersAllow l filters w = Ok many w ∧
    emitFilter g form l filter args callers w =
      (if one then emit (severity g) form l args callers w else Ok tt w) ∧
    emitFilters g form l filters args callers w =
      (if many then emit (severity g) form l args callers w else Ok tt w) ∧
    (l = defaultLogger → ∃ line1 line2 : nat,
       emitFilter_default g form filter args callers w =
         (if one
          then emit (severity g) form l args ((log_go, line1) :: callers) w
          else Ok tt w) ∧
       emitFilters_default g form filters args callers w =
         (if many
          then emit (severity g) form l args ((log_go, line2) :: callers) w
          else Ok tt w)).
Proof.
  intros (lr & lg & o & Hl & _ & Ho & Hr)%valid_inv.
  pose proof (FiltersAllow_Some w l lr o [filter] Hl Ho Hr) as H1.
  pose proof (FiltersAllow_Some w l lr o filters Hl Ho Hr) as H2.
  exists (answer o [filter]), (answer o filters).
  split; [done|]. split; [done|].
  assert (∀ line form' ,
    (emitFilter g form' l filter args ((log_go, line) :: callers) w =
      (if answer o [filter]
       then emit (severity g) form' l args ((log_go, line) :: callers) w
       else Ok tt w)) ∧
    (emitFilters g form' l filters args ((log_go, line) :: callers) w =
      (if answer o filters
       then emit (severity g) form' l args ((log_go, line) :: callers) w
       else Ok tt w))) as Hany.
  { intros line form'.
    destruct g, form'; cbn [emitFilter emitFilters emit severity];
      unfold Logger.DebugFilter, Logger.DebugFilterLn, Logger.DebugFilterf,
        Logger.InfoFilter, Logger.InfoFilterLn, Logger.InfoFilterf,
        Logger.DebugFilters, Logger.DebugFiltersLn, Logger.DebugFiltersf,
        Logger.InfoFilters, Logger.InfoFiltersLn, Logger.InfoFiltersf;
      rewrite (bind_Ok _ _ _ _ _ H1), (bind_Ok _ _ _ _ _ H2);
      (split; [destruct (answer o [filter]) | destruct (answer o filters)]);
      reflexivity. }
  assert (
    (emitFilter g form l filter args callers w =
      (if answer o [filter]
       then emit (severity g) form l args callers w else Ok tt w)) ∧
    (emitFilters g form l filters args callers w =
      (if answer o filters
       then emit (severity g) form l args callers w else Ok tt w))) as [Hf Hfs].
  { destruct g, form; cbn [emitFilter emitFilters emit severity];
      unfold Logger.DebugFilter, Logger.DebugFilterLn, Logger.DebugFilterf,
        Logger.InfoFilter, Logger.InfoFilterLn, Logger.InfoFilterf,
        Logger.DebugFilters, Logger.DebugFiltersLn, Logger.DebugFiltersf,
        Logger.InfoFilters, Logger.InfoFiltersLn, Logger.InfoFiltersf;
      rewrite (bind_Ok _ _ _ _ _ H1), (bind_Ok _ _ _ _ _ H2);
      (split; [destruct (answer o [filter]) | destruct (answer o filters)]);
      reflexivity. }
  split; [done|]. split; [done|].
  intros ->.
  destruct g, form; eexists _, _;
    cbn [emitFilter_default emitFilters_default];
    unfold logsift.DebugFilter, logsift.DebugFilterLn, logsift.DebugFilterf,
      logsift.InfoFilter, logsift.InfoFilterLn, logsift.InfoFilterf,
      logsift.DebugFilters, logsift.DebugFiltersLn, logsift.DebugFiltersf,
      logsift.InfoFilters, logsift.InfoFiltersLn, logsift.InfoFiltersf;
    (split; [apply (Hany _ Plain) || apply (Hany _ Ln) || apply (Hany _ (Formatted _))
            | apply (Hany _ Plain) || apply (Hany _ Ln) || apply (Hany _ (Formatted _))]).
Qed.

(** ** What reaches the sink *)

Lemma log_Some w (e : logrus.Entry) level msg lg :
  sinks w !! logrus.Entry_Logger e = Some lg →
  Entry.log e level msg w =
    if logrus.IsLevelEnabled lg level then
      let w' := mkWorld (<[logrus.Entry_Logger e :=
                            logrus.write lg level (logrus.Data e) msg]> (sinks w))
                        (filterObjs w) (loggers w) (ErrorCounter w) in
      match level with
      | logrus.PanicLevel => Panic w'
      | _ => Ok tt w'
      end
    else Ok tt w.
Proof.
  intros Hs. unfold Entry.log.
  rewrite (bind_Ok _ _ _ _ _ (get_sink_Some _ _ _ Hs)).
  destruct (logrus.IsLevelEnabled lg level); [|done].
  unfold bind, set_sink. rewrite Hs. by destruct level.
Qed.

Lemma log_None w (e : logrus.Entry) level msg :
  sinks w !! logrus.Entry_Logger e = None →
  Entry.log e level msg w = Panic w.
Proof. intros Hs. unfold Entry.log, bind, get_sink. by rewrite Hs. Qed.

Lemma withSource_entry_Logger lr callers :
  logrus.Entry_Logger (Logger.withSource_entry lr callers)
  = logrus.Entry_Logger (entry lr).
Proof.
  unfold Logger.withSource_entry. destruct (String.eqb (fmt lr) "none"); [done|].
  by destruct (runtime_Caller _ _ _) as [[file line]|];
    [destruct (String.eqb (fmt lr) "short")|].
Qed.

(** ** The default logger's configuration under the package functions *)

Lemma config_inv w c :
  config w = Some c →
  ∃ d lg o,
    loggers w !! defaultLogger = Some d ∧
    sinks w !! logrus.Entry_Logger (entry d) = Some lg ∧
    filterObjs w !! logFilter d = Some o ∧ ready o = true ∧
    c = mkConfig (logrus.Level_ lg) (logrus.Formatter_ lg) (fmt d)
          (active o) (obj_allowEmptyFilter o)
          (logrus.Line_Message <$> logrus.Out lg).
Proof.
  unfold config. destruct (loggers w !! defaultLogger) as [d|] eqn:Hd; [|done].
  simpl. destruct (sinks w !! _) as [lg|] eqn:Hs; [|done].
  simpl. destruct (filterObjs w !! _) as [o|] eqn:Ho; [|done].
  simpl. destruct (ready o) eqn:Hr; [|done].
  intros [= <-]. by exists d, lg, o.
Qed.

Lemma config_intro w d lg o :
  loggers w !! defaultLogger = Some d →
  sinks w !! logrus.Entry_Logger (entry d) = Some lg →
  filterObjs w !! logFilter d = Some o → ready o = true →
  config w = Some (mkConfig (logrus.Level_ lg) (logrus.Formatter_ lg) (fmt d)
                     (active o) (obj_allowEmptyFilter o)
                     (logrus.Line_Message <$> logrus.Out lg)).
Proof. intros Hd Hs Ho Hr. unfold config. rewrite Hd. simpl. rewrite Hs. simpl. rewrite Ho. simpl. by rewrite Hr. Qed.

Lemma config_valid w : is_Some (config w) ↔ valid w defaultLogger = true.
Proof.
  unfold valid. split.
  - intros [c (d & lg & o & -> & -> & -> & Hr & _)%config_inv]. done.
  - intros (d & lg & o & Hd & Hs & Ho & Hr)%valid_inv.
    eexists. by eapply config_intro.
Qed.

Lemma config_put_sink w d lg o lg' :
  loggers w !! defaultLogger = Some d →
  sinks w !! logrus.Entry_Logger (entry d) = Some lg →
  filterObjs w !! logFilter d = Some o → ready o = true →
  config (mkWorld (<[logrus.Entry_Logger (entry d) := lg']> (sinks w))
                  (filterObjs w) (loggers w) (ErrorCounter w))
  = Some (mkConfig (logrus.Level_ lg') (logrus.Formatter_ lg') (fmt d)
            (active o) (obj_allowEmptyFilter o)
            (logrus.Line_Message <$> logrus.Out lg')).
Proof.
  intros Hd Hs Ho Hr. apply config_intro; cbn [loggers sinks filterObjs]; try done.
  apply list_lookup_insert_eq. by eapply lookup_lt_Some.
Qed.

Lemma config_put_filter w d lg o o' :
  loggers w !! defaultLogger = Some d →
  sinks w !! logrus.Entry_Logger (entry d) = Some lg →
  filterObjs w !! logFilter d = Some o → ready o' = true →
  config (mkWorld (sinks w) (<[logFilter d := o']> (filterObjs w))
                  (loggers w) (ErrorCounter w))
  = Some (mkConfig (logrus.Level_ lg) (logrus.Formatter_ lg) (fmt d)
            (active o') (obj_allowEmptyFilter o')
            (logrus.Line_Message <$> logrus.Out lg)).
Proof.
  intros Hd Hs Ho Hr. apply config_intro; cbn [loggers sinks filterObjs]; try done.
  apply list_lookup_insert_eq. by eapply lookup_lt_Some.
Qed.

Lemma config_put_logger w d lg o d' :
  loggers w !! defaultLogger = Some d →
  sinks w !! logrus.Entry_Logger (entry d) = Some lg →
  filterObjs w !! logFilter d = Some o → ready o = true →
  logrus.Entry_Logger (entry d') = logrus.Entry_Logger (entry d) →
  logFilter d' = logFilter d →
  config (mkWorld (sinks w) (filterObjs w)
                  (<[defaultLogger := d']> (loggers w)) (ErrorCounter w))
  = Some (mkConfig (logrus.Level_ lg) (logrus.Formatter_ lg) (fmt d')
            (active o) (obj_allowEmptyFilter o)
            (logrus.Line_Message <$> logrus.Out lg)).
Proof.
  intros Hd Hs Ho Hr He Hf.
  apply config_intro; cbn [loggers sinks filterObjs]; try done.
  - apply list_lookup_insert_eq. by eapply lookup_lt_Some.
  - by rewrite He.
  - by rewrite Hf.
Qed.

Lemma Warn_config w c args callers :
  config w = Some c →
  ∃ w', logsift.Warn args callers w = Ok tt w' ∧
        config w' = Some (warned args c).
Proof.
  intros (d & lg & o & Hd & Hs & Ho & Hr & ->)%config_inv.
  unfold logsift.Warn. rewrite (bind_Ok _ _ _ _ _ (withSource_Some _ _ _ _ Hd)).
  unfold Entry.Warn, Entry.Log.
  rewrite (log_Some _ _ _ _ lg) by by rewrite withSource_entry_Logger.
  unfold warned, logrus.IsLevelEnabled. cbn [cfg_level].
  destruct (Nat.leb _ _).
  - eexists. split; [done|]. rewrite withSource_entry_Logger.
    rewrite (config_put_sink _ d lg o) by done.
    cbn. by rewrite fmap_app.
  - exists w. split; [done|]. by apply config_intro.
Qed.

Lemma SetLevel_config PL w c level :
  config w = Some c →
  ∃ w', logsift.SetLevel PL level w = Ok tt w' ∧
        config w' = Some (with_level (default logrus.InfoLevel (PL level)) c).
Proof.
  intros (d & lg & o & Hd & Hs & Ho & Hr & ->)%config_inv.
  unfold logsift.SetLevel.
  rewrite (bind_Ok _ _ _ _ _ (deref_Some _ _ _ Hd)).
  rewrite (bind_Ok _ _ _ _ _ (get_sink_Some _ _ _ Hs)).
  destruct (PL level) as [lvl|]; unfold set_sink; rewrite Hs;
    (eexists; split; [done|]); by rewrite (config_put_sink _ d lg o).
Qed.

Lemma SetFormat_config w c format :
  config w = Some c →
  ∃ w', logsift.SetFormat format w = Ok tt w' ∧
        config w' = Some (with_formatter (formatter_named format) c).
Proof.
  intros (d & lg & o & Hd & Hs & Ho & Hr & ->)%config_inv.
  unfold logsift.SetFormat.
  rewrite (bind_Ok _ _ _ _ _ (deref_Some _ _ _ Hd)).
  rewrite (bind_Ok _ _ _ _ _ (get_sink_Some _ _ _ Hs)).
  unfold set_sink; rewrite Hs.
  (eexists; split; [done|]); by rewrite (config_put_sink _ d lg o).
Qed.

Lemma SetSourceFormat_config w c format :
  config w = Some c →
  ∃ w', logsift.SetSourceFormat format w = Ok tt w' ∧
        config w' = Some (with_fmt (sourceFormat_named format) c).
Proof.
  intros (d & lg & o & Hd & Hs & Ho & Hr & ->)%config_inv.
  unfold logsift.SetSourceFormat.
  rewrite (bind_Ok _ _ _ _ _ (deref_Some _ _ _ Hd)).
  unfold set_logger; rewrite Hd.
  (eexists; split; [done|]); by rewrite (config_put_logger _ d lg o).
Qed.

Lemma UpdateFilter_config w c m :
  config w = Some c →
  ∃ w', logsift.UpdateFilter m w = Ok tt w' ∧
        config w' = Some (with_active (keyset m ∖ {[""]}) c).
Proof.
  intros (d & lg & o & Hd & Hs & Ho & Hr & ->)%config_inv.
  unfold logsift.UpdateFilter, Logger.UpdateFilter.
  rewrite (bind_Ok _ _ _ _ _ (deref_Some _ _ _ Hd)).
  unfold onFilter. rewrite Ho, SetMap_ready by done.
  eexists; split; [done|].
  rewrite (config_put_filter _ d lg o) by (done || apply ready_obj_with).
  unfold with_active, active. cbn.
  by rewrite filters_obj_with, allow_obj_with, rangeStrip_keyset.
Qed.

Lemma SetAllowEmptyFilter_config w c allow :
  config w = Some c →
  ∃ w', logsift.SetAllowEmptyFilter allow w = Ok tt w' ∧
        config w' = Some (with_policy allow c).
Proof.
  intros (d & lg & o & Hd & Hs & Ho & Hr & ->)%config_inv.
  unfold logsift.SetAllowEmptyFilter.
  rewrite (bind_Ok _ _ _ _ _ (deref_Some _ _ _ Hd)).
  unfold onFilter. rewrite Ho, SetAllowEmptyFilter_ready by done.
  eexists; split; [done|].
  rewrite (config_put_filter _ d lg o) by (done || apply ready_obj_with).
  unfold with_policy, active. cbn.
  by rewrite filters_obj_with, allow_obj_with.
Qed.

(** The getters read the configuration and change nothing. *)
Lemma getters_config w c :
  config w = Some c →
  logsift.GetLevel w = Ok (logrus.Level_String (cfg_level c)) w ∧
  logsift.GetFormat w = Ok (format_name (cfg_formatter c)) w ∧
  logsift.GetSourceFormat w = Ok (cfg_fmt c) w.
Proof.
  intros (d & lg & o & Hd & Hs & Ho & Hr & ->)%config_inv.
  unfold logsift.GetLevel, logsift.GetFormat, logsift.GetSourceFormat.
  rewrite !(bind_Ok _ _ _ _ _ (deref_Some _ _ _ Hd)).
  by rewrite !(bind_Ok _ _ _ _ _ (get_sink_Some _ _ _ Hs)).
Qed.

Lemma FiltersAllow_config w c filters :
  config w = Some c →
  Logger.FiltersAllow defaultLogger filters w =
    Ok (if bool_decide (cfg_active c = ∅) then cfg_policy c
        else bool_decide (Exists (λ v, v ∈ cfg_active c) filters)) w.
Proof.
  intros (d & lg & o & Hd & Hs & Ho & Hr & ->)%config_inv.
  rewrite (FiltersAllow_Some w _ d o filters) by done.
  unfold answer. cbn. case_bool_decide; [done|].
  f_equal. apply eq_true_iff_eq.
  by rewrite rangeAllows_true, bool_decide_eq_true, Exists_exists.
Qed.

(** ** The handler *)

Lemma ParseFilters_range_dom parts res :
  dom (logsift.ParseFilters_range parts res) = dom res ∪ topics parts.
Proof.
  revert res. induction parts as [|p parts IH]; intros res; simpl.
  - rewrite topics_nil. set_solver.
  - rewrite topics_cons. destruct (String.eqb p ""); [apply IH|].
    rewrite IH, dom_insert_L. set_solver.
Qed.

Lemma ParseFilters_keyset filters :
  keyset (logsift.ParseFilters filters) ∖ {[""]}
  = topics (strings_Split filters ","%char).
Proof.
  unfold logsift.ParseFilters. cbn [keyset from_option].
  rewrite ParseFilters_range_dom, dom_empty_L.
  pose proof (empty_notin_topics (strings_Split filters ",")). set_solver.
Qed.

Create Rewrite HintDb cfg.

Ltac config_fields :=
  repeat first
    [ progress cbn [cfg_level cfg_formatter cfg_fmt cfg_active cfg_policy
                    with_level with_formatter with_fmt with_active
                    with_policy]
    | progress (autorewrite with cfg) ].

Ltac step H :=
  let w1 := fresh "w" in
  let E := fresh "E" in
  let C := fresh "C" in
  destruct H as (w1 & E & C); rewrite (bind_Ok _ _ _ _ _ E); clear E.

Lemma warned_level args c : cfg_level (warned args c) = cfg_level c.
Proof. unfold warned. by destruct (Nat.leb _ _). Qed.

Lemma warned_formatter args c :
  cfg_formatter (warned args c) = cfg_formatter c.
Proof. unfold warned. by destruct (Nat.leb _ _). Qed.

Lemma warned_fmt args c : cfg_fmt (warned args c) = cfg_fmt c.
Proof. unfold warned. by destruct (Nat.leb _ _). Qed.

Lemma warned_active args c : cfg_active (warned args c) = cfg_active c.
Proof. unfold warned. by destruct (Nat.leb _ _). Qed.

Lemma warned_policy args c : cfg_policy (warned args c) = cfg_policy c.
Proof. unfold warned. by destruct (Nat.leb _ _). Qed.

#[export] Hint Rewrite warned_level warned_formatter warned_fmt warned_active
  warned_policy : cfg.

Section HandlerProperties.

Variable ParseLevel : string → option logrus.Level.

Lemma Handler_level_config r callers w c :
  config w = Some c →
  ∃ w', logsift.Handler_level ParseLevel r callers w = Ok tt w' ∧
        config w' = Some (directive_level ParseLevel (logsift.FormValue r "level") c).
Proof.
  intros Hc. unfold logsift.Handler_level, directive_level.
  destruct (String.eqb _ ""); cbn [negb]; [by exists w|].
  step (Warn_config w c [VString "updating log level to ";
                         VString (logsift.FormValue r "level")]
          ((log_go, 556) :: callers) Hc).
  by apply SetLevel_config.
Qed.

Lemma Handler_format_config r callers w c :
  config w = Some c →
  ∃ w', logsift.Handler_format r callers w = Ok tt w' ∧
        config w' = Some (directive_format (logsift.FormValue r "format") c).
Proof.
  intros Hc. unfold logsift.Handler_format, directive_format.
  destruct (String.eqb _ ""); cbn [negb]; [by exists w|].
  step (Warn_config w c [VString "updating format to ";
                         VString (logsift.FormValue r "format")]
          ((log_go, 560) :: callers) Hc).
  by apply SetFormat_config.
Qed.

Lemma Handler_sourceFormat_config r callers w c :
  config w = Some c →
  ∃ w', logsift.Handler_sourceFormat r callers w = Ok tt w' ∧
        config w' = Some (directive_sourceFormat
                            (logsift.FormValue r "sourceFormat") c).
Proof.
  intros Hc. unfold logsift.Handler_sourceFormat, directive_sourceFormat.
  destruct (String.eqb _ ""); cbn [negb]; [by exists w|].
  step (Warn_config w c [VString "updating sourceFormat to ";
                         VString (logsift.FormValue r "sourceFormat")]
          ((log_go, 564) :: callers) Hc).
  by apply SetSourceFormat_config.
Qed.

Lemma Handler_filter_config r callers w c :
  config w = Some c →
  ∃ w', logsift.Handler_filter r callers w = Ok tt w' ∧
        config w' = Some (directive_filter (logsift.FormValue r "filter") c).
Proof.
  intros Hc. unfold logsift.Handler_filter, directive_filter.
  destruct (String.eqb _ ""); cbn [negb]; [by exists w|].
  step (Warn_config w c [VString "updating filter to ";
                         VString (logsift.FormValue r "filter")]
          ((log_go, 568) :: callers) Hc).
  rewrite <- ParseFilters_keyset. by apply UpdateFilter_config.
Qed.

Lemma Handler_resetFilter_config r callers w c :
  config w = Some c →
  ∃ w', logsift.Handler_resetFilter r callers w = Ok tt w' ∧
        config w' = Some (directive_resetFilter
                            (logsift.FormValue r "resetFilter") c).
Proof.
  intros Hc. unfold logsift.Handler_resetFilter, directive_resetFilter.
  destruct (String.eqb _ ""); cbn [negb]; [by exists w|].
  destruct (strconv_ParseBool _) as [[]|].
  - step (Warn_config w c [VString "resetting filter"]
            ((log_go, 587) :: callers) Hc).
    destruct (UpdateFilter_config _ _ go_make C) as (w' & E & C').
    exists w'. split; [done|]. rewrite C'.
    replace (keyset go_make ∖ {[""]}) with (∅ : gset string); [done|].
    cbn. rewrite dom_empty_L. set_solver.
  - by exists w.
  - by apply Warn_config.
Qed.

Lemma Handler_allowEmptyFilter_config r callers w c :
  config w = Some c →
  ∃ w', logsift.Handler_allowEmptyFilter r callers w = Ok tt w' ∧
        config w' = Some
          (let allowEmpty := logsift.FormValue r "allowEmptyFilter" in
           let resetFilter := logsift.FormValue r "resetFilter" in
           if String.eqb allowEmpty "" then directive_resetFilter resetFilter c
           else match strconv_ParseBool allowEmpty with
                | None =>
                    warned [VString "invalid value for allow empty filter: ";
                            VString allowEmpty] c
                | Some allow =>
                    directive_resetFilter resetFilter
                      (directive_allowEmptyFilter allow c)
                end).
Proof.
  intros Hc. unfold logsift.Handler_allowEmptyFilter. cbn zeta.
  destruct (String.eqb _ ""); cbn [negb];
    [by apply Handler_resetFilter_config|].
  destruct (strconv_ParseBool _) as [allow|]; [|by apply Warn_config].
  step (Warn_config w c [VString "updating allow empty filter to "; VBool allow]
          ((log_go, 577) :: callers) Hc).
  step (SetAllowEmptyFilter_config _ _ allow C).
  by apply Handler_resetFilter_config.
Qed.

(** The handler returns for every request, and leaves the configuration
    the six directives give, taken in their order. *)
Lemma Handler_config r callers w c :
  config w = Some c →
  ∃ w', logsift.Handler ParseLevel r callers w = Ok tt w' ∧
        config w' = Some (directives ParseLevel r c).
Proof.
  intros Hc. unfold logsift.Handler, directives, directives_before_allowEmptyFilter.
  step (Handler_level_config r callers w c Hc).
  step (Handler_format_config r callers _ _ C).
  step (Handler_sourceFormat_config r callers _ _ C0).
  step (Handler_filter_config r callers _ _ C1).
  by apply Handler_allowEmptyFilter_config.
Qed.

Lemma FormValue_insert_ne (r : logsift.Request) k k' x :
  k ≠ k' → logsift.FormValue (<[k := x]> r) k' = logsift.FormValue r k'.
Proof. intros Hne. unfold logsift.FormValue. by rewrite lookup_insert_ne. Qed.

Lemma FormValue_delete_ne (r : logsift.Request) k k' :
  k ≠ k' → logsift.FormValue (delete k r) k' = logsift.FormValue r k'.
Proof. intros Hne. unfold logsift.FormValue. by rewrite lookup_delete_ne. Qed.

(** With a value for [allowEmptyFilter] that is no boolean, the handler
    is the first four blocks and the warning; [resetFilter] is not read. *)
Lemma Handler_bad_allowEmptyFilter r callers v :
  logsift.FormValue r "allowEmptyFilter" = v → v ≠ "" →
  strconv_ParseBool v = None →
  logsift.Handler ParseLevel r callers =
    (logsift.Handler_level ParseLevel r callers ;;
     logsift.Handler_format r callers ;;
     logsift.Handler_sourceFormat r callers ;;
     logsift.Handler_filter r callers ;;
     logsift.Warn [VString "invalid value for allow empty filter: "; VString v]
       ((log_go, 574) :: callers)).
Proof.
  intros Hv Hne Hp. unfold logsift.Handler, logsift.Handler_allowEmptyFilter.
  cbn zeta. rewrite Hv, Hp.
  apply String.eqb_neq in Hne. by rewrite Hne.
Qed.

Lemma Handler_ignores_resetFilter r r' callers v :
  (∀ k, k ≠ "resetFilter" → logsift.FormValue r' k = logsift.FormValue r k) →
  logsift.FormValue r "allowEmptyFilter" = v → v ≠ "" →
  strconv_ParseBool v = None →
  logsift.Handler ParseLevel r' callers = logsift.Handler ParseLevel r callers.
Proof.
  intros Hk Hv Hne Hp.
  rewrite (Handler_bad_allowEmptyFilter r callers v) by done.
  rewrite (Handler_bad_allowEmptyFilter r' callers v);
    [|by rewrite Hk|done|done].
  unfold logsift.Handler_level, logsift.Handler_format,
    logsift.Handler_sourceFormat, logsift.Handler_filter.
  by rewrite !Hk.
Qed.

End HandlerProperties.

(** C5: the handler returns for every request and leaves the
    configuration that the directives give when taken in the order
    level, format, sourceFormat, filter, allowEmptyFilter, resetFilter.
    When the value of allowEmptyFilter is no boolean it still returns:
    level, format, sourceFormat and filter are as their directives set
    them where present and as before where absent, the policy is as
    before, and the request ends in the same state whatever resetFilter
    says or whether it is there at all. *)
Theorem Handler_stops_at_bad_allowEmptyFilter
    (ParseLevel : string → option logrus.Level) (r : logsift.Request)
    (callers : list Frame) (w : World) (c : Config) (v : string) :
  config w = Some c →
  logsift.FormValue r "allowEmptyFilter" = v →
  v ≠ "" →
  strconv_ParseBool v = None →
  ∃ w' c',
    logsift.Handler ParseLevel r callers w = Ok tt w' ∧
    config w' = Some c' ∧
    c' = warned [VString "invalid value for allow empty filter: "; VString v]
           (directives_before_allowEmptyFilter ParseLevel r c) ∧
    cfg_level c' =
      (let level := logsift.FormValue r "level" in
       if String.eqb level "" then cfg_level c
       else default logrus.InfoLevel (ParseLevel level)) ∧
    cfg_formatter c' =
      (let format := logsift.FormValue r "format" in
       if String.eqb format "" then cfg_formatter c
       else formatter_named format) ∧
    cfg_fmt c' =
      (let sourceFormat := logsift.FormValue r "sourceFormat" in
       if String.eqb sourceFormat "" then cfg_fmt c
       else sourceFormat_named sourceFormat) ∧
    cfg_active c' =
      (let filter := logsift.FormValue r "filter" in
       if String.eqb filter "" then cfg_active c
       else topics (strings_Split filter ","%char)) ∧
    cfg_policy c' = cfg_policy c ∧
    (∀ x, logsift.Handler ParseLevel (<["resetFilter" := x]> r) callers w
          = Ok tt w') ∧
    logsift.Handler ParseLevel (delete "resetFilter" r) callers w = Ok tt w' ∧
    (∀ r0, ∃ w0, logsift.Handler ParseLevel r0 callers w = Ok tt w0 ∧
                 config w0 = Some (directives ParseLevel r0 c)).
Proof.
  intros Hc Hv Hne Hp.
  destruct (Handler_config ParseLevel r callers w c Hc) as (w' & HH & Hc').
  assert (directives ParseLevel r c =
          warned [VString "invalid value for allow empty filter: "; VString v]
            (directives_before_allowEmptyFilter ParseLevel r c)) as Hd.
  { unfold directives. cbn zeta. rewrite Hv, Hp.
    apply String.eqb_neq in Hne. by rewrite Hne. }
  rewrite Hd in Hc'.
  exists w', (warned [VString "invalid value for allow empty filter: "; VString v]
                (directives_before_allowEmptyFilter ParseLevel r c)).
  split; [done|]. split; [done|]. split; [done|].
  rewrite warned_level, warned_formatter, warned_fmt, warned_active,
    warned_policy.
  unfold directives_before_allowEmptyFilter, directive_filter,
    directive_sourceFormat, directive_format, directive_level. cbn zeta.
  repeat split.
  1-5: destruct (String.eqb (logsift.FormValue r "filter") "");
       destruct (String.eqb (logsift.FormValue r "sourceFormat") "");
       destruct (String.eqb (logsift.FormValue r "format") "");
       destruct (String.eqb (logsift.FormValue r "level") "");
       config_fields; reflexivity.
  - intros x.
    rewrite (Handler_ignores_resetFilter ParseLevel r _ callers v); try done.
    intros k Hk. by apply FormValue_insert_ne.
  - rewrite (Handler_ignores_resetFilter ParseLevel r _ callers v); try done.
    intros k Hk. by apply FormValue_delete_ne.
  - intros r0. by apply Handler_config.
Qed.


Lemma Handler_stops_at_bad_allowEmptyFilter_witness :
  ∃ w', logsift.Handler ParseLevel_lower bad_request [] init = Ok tt w' ∧
        logsift.Handler ParseLevel_lower (delete "resetFilter" bad_request) [] init
        = Ok tt w' ∧
        ∃ c', config w' = Some c' ∧
              cfg_level c' = logrus.DebugLevel ∧ cfg_policy c' = false.
Proof.
  destruct (Handler_stops_at_bad_allowEmptyFilter ParseLevel_lower bad_request
              [] init config_init "notabool")
    as (w' & c' & HH & Hc' & _ & Hl & _ & _ & _ & Hp & _ & Hdel & _);
    [reflexivity | reflexivity | discriminate | reflexivity |].
  exists w'. split; [exact HH|]. split; [exact Hdel|].
  exists c'. split; [exact Hc'|]. split; [exact Hl | exact Hp].
Defined.

(** ** Emissions *)

Lemma entry_emit_log sev form e args :
  entry_emit sev form e args =
    match sev with
    | SFatal => (Entry.log e (level_of sev) (message_of form args) ;; Entry.exit)
    | _ => Entry.log e (level_of sev) (message_of form args)
    end.
Proof. by destruct sev, form. Qed.

(** Every method of the facade reads its receiver, captures the source
    from the frame of its caller, and hands the entry to the sink. *)
Lemma emit_withSource sev form l args callers (method : Frame) :
  emit sev form l args callers =
    (e <- Logger.withSource l (method :: callers) ;; entry_emit sev form e args).
Proof. by destruct sev, form. Qed.

Lemma emit_Some sev form l lr args callers w :
  loggers w !! l = Some lr →
  emit sev form l args callers w =
    entry_emit sev form (Logger.withSource_entry lr ((log_go, 0) :: callers)) args w.
Proof.
  intros Hl. rewrite (emit_withSource _ _ _ _ _ (log_go, 0)).
  by rewrite (bind_Ok _ _ _ _ _ (withSource_Some _ _ _ _ Hl)).
Qed.

Lemma emit_None sev form l args callers w :
  loggers w !! l = None → emit sev form l args callers w = Panic w.
Proof.
  intros Hl. rewrite (emit_withSource _ _ _ _ _ (log_go, 0)).
  unfold Logger.withSource, bind, deref. by rewrite Hl.
Qed.

(** The package-level functions call [withSource] themselves, one frame
    below their caller, as the methods do. *)
Lemma emit_default_emit sev form args callers :
  emit_default sev form args callers = emit sev form defaultLogger args callers.
Proof. by destruct sev, form. Qed.

(** An emission touches the sinks only. *)
Lemma log_frame e level msg w :
  let w' := state_after (Entry.log e level msg w) w in
  loggers w' = loggers w ∧ filterObjs w' = filterObjs w ∧
  ErrorCounter w' = ErrorCounter w.
Proof.
  destruct (sinks w !! logrus.Entry_Logger e) as [lg|] eqn:Hs.
  - rewrite (log_Some _ _ _ _ lg Hs).
    destruct (logrus.IsLevelEnabled lg level); [|done]. by destruct level.
  - by rewrite log_None.
Qed.

Lemma entry_emit_frame sev form e args w :
  let w' := state_after (entry_emit sev form e args w) w in
  loggers w' = loggers w ∧ filterObjs w' = filterObjs w ∧
  ErrorCounter w' = ErrorCounter w.
Proof.
  rewrite entry_emit_log.
  pose proof (log_frame e (level_of sev) (message_of form args) w) as H.
  destruct sev; try exact H.
  unfold bind, Entry.exit. cbn zeta in H.
  by destruct (Entry.log _ _ _ w).
Qed.

Lemma emit_frame sev form l args callers w :
  let w' := state_after (emit sev form l args callers w) w in
  loggers w' = loggers w ∧ filterObjs w' = filterObjs w ∧
  ErrorCounter w' = ErrorCounter w.
Proof.
  destruct (loggers w !! l) as [lr|] eqn:Hl.
  - rewrite (emit_Some _ _ _ lr) by done. apply entry_emit_frame.
  - by rewrite emit_None.
Qed.

(** C1 (what the code does): an emission at the error severity, by
    [Error], [Errorln] or [Errorf], as a method of any handle or as a
    package-level function, leaves the error counter as it found it,
    whether it returns or not; on the package as initialised,
    [Error("boom")] is written to the sink at the error level with its
    source, and the counter still has no child and counts nothing.  The
    one function that increments the counter is called by none of them,
    and, passing no label value to a counter that has one label, it
    panics where it is called. *)
Theorem Error_leaves_ErrorCounter (l : loc) (form : Form) (args : list Value)
    (callers : list Frame) (w : World) :
  ErrorCounter (state_after (emit SError form l args callers w) w)
    = ErrorCounter w ∧
  ErrorCounter (state_after (emit_default SError form args callers w) w)
    = ErrorCounter w ∧
  (∃ w', logsift.Error [VString "boom"] main_go_12 init = Ok tt w' ∧
         written w' =
           [logrus.mkLine logrus.ErrorLevel
              {["source" := VString " main.go:12 "]}
              (logrus.Sprint [VString "boom"])
              (logrus.TextFormatter false false)] ∧
         prometheus.children (ErrorCounter w') = ∅ ∧
         prometheus.total (ErrorCounter w') = 0) ∧
  Logger.incrementErrorCounter l init = Panic init.
Proof.
  split; [apply emit_frame|].
  split; [rewrite emit_default_emit; apply emit_frame|].
  split; [|reflexivity].
  eexists. split; [reflexivity|]. by vm_compute.
Qed.

(** ** Source capture and the source-format mode *)

Lemma withSource_entry_none lr callers :
  fmt lr = "none" → Logger.withSource_entry lr callers = entry lr.
Proof. unfold Logger.withSource_entry. by intros ->. Qed.

Lemma withSource_entry_short lr (method : Frame) callers :
  fmt lr = "short" →
  Logger.withSource_entry lr (method :: callers) =
    logrus.WithField (entry lr) "source" (VString (short_source callers)).
Proof.
  unfold Logger.withSource_entry, short_source, runtime_Caller. intros ->.
  cbn. by destruct (callers !! 0) as [[file line]|].
Qed.

Lemma sourceFormat_named_other format :
  format ≠ "short" → format ≠ "long" → sourceFormat_named format = "short".
Proof.
  intros H1%String.eqb_neq H2%String.eqb_neq. unfold sourceFormat_named.
  by rewrite H1, H2.
Qed.

(** C4, as the code has it: a handle whose mode is [none] captures
    nothing, its emissions hand the sink the handle's own entry with the
    handle's own fields; [SetSourceFormat] with a value that is neither
    [short] nor [long] (nor [none]) stores [short], [GetSourceFormat]
    reads [short] back, and the emissions of the default logger that
    follow carry a [source] field, in the short form. *)
Theorem source_capture_by_mode (w : World) (c : Config) (l : loc) (lr : logger)
    (format : string) (sev : Severity) (form : Form) (args : list Value)
    (callers : list Frame) :
  config w = Some c →
  loggers w !! l = Some lr →
  (fmt lr = "none" →
     emit sev form l args callers w = entry_emit sev form (entry lr) args w) ∧
  (format ≠ "short" → format ≠ "long" → format ≠ "none" →
     ∃ w' d,
       logsift.SetSourceFormat format w = Ok tt w' ∧
       logsift.GetSourceFormat w' = Ok "short" w' ∧
       loggers w' !! defaultLogger = Some d ∧
       logrus.Data (Logger.withSource_entry d ((log_go, 0) :: callers))
         !! "source" = Some (VString (short_source callers)) ∧
       emit sev form defaultLogger args callers w' =
         entry_emit sev form
           (logrus.WithField (entry d) "source" (VString (short_source callers)))
           args w' ∧
       emit_default sev form args callers w' =
         entry_emit sev form
           (logrus.WithField (entry d) "source" (VString (short_source callers)))
           args w').
Proof.
  intros Hc Hl. split.
  - intros Hn. rewrite (emit_Some _ _ _ lr) by done.
    by rewrite withSource_entry_none.
  - intros H1 H2 _.
    destruct (SetSourceFormat_config w c format Hc) as (w' & HS & Hc').
    rewrite sourceFormat_named_other in Hc' by done.
    destruct (getters_config _ _ Hc') as (_ & _ & HG).
    destruct (config_inv _ _ Hc') as (d & lg & o & Hd & _ & _ & _ & Heq).
    assert (fmt d = "short") as Hfmt by (by injection Heq).
    exists w', d. split; [done|]. split; [done|]. split; [done|].
    rewrite emit_default_emit, (emit_Some _ _ _ d) by done.
    rewrite withSource_entry_short by done.
    split; [|done]. unfold logrus.WithField, logrus.WithFields. cbn.
    apply lookup_union_Some_l, lookup_singleton_eq.
Qed.

Lemma source_capture_by_mode_witness :
  emit SInfo Plain 1 [VString "x"] main_go_12 world_with_none
    = entry_emit SInfo Plain (logrus.NewEntry origLogger) [VString "x"]
        world_with_none ∧
  ∃ w', logsift.SetSourceFormat "bogus" world_with_none = Ok tt w' ∧
        logsift.GetSourceFormat w' = Ok "short" w'.
Proof.
  destruct (source_capture_by_mode world_with_none config_init 1
              (mklogger origLogger (logrus.NewEntry origLogger) "none" 0)
              "bogus" SInfo Plain [VString "x"] main_go_12)
    as [Hnone Hother]; [reflexivity | reflexivity |].
  split; [by apply Hnone|].
  destruct Hother as (w' & d & HS & HG & _); [discriminate..|].
  by exists w'.
Defined.

(** Counterexample to C4 as written: after [SetSourceFormat("bogus")] on
    the package as initialised, [Info("x")] called from [main.go:12] is
    written with the field [source = " main.go:12 "]. *)
Lemma unrecognized_mode_still_captures :
  ∃ w1 w2 line,
    logsift.SetSourceFormat "bogus" init = Ok tt w1 ∧
    logsift.Info [VString "x"] main_go_12 w1 = Ok tt w2 ∧
    written w2 = [line] ∧
    logrus.Line_Data line !! "source" = Some (VString " main.go:12 ").
Proof. do 3 eexists. repeat split; by vm_compute. Qed.

(** ** Derived handles *)

Lemma new_logger_spec lr' w :
  new_logger lr' w =
    Ok (length (loggers w))
       (mkWorld (sinks w) (filterObjs w) (loggers w ++ [lr']) (ErrorCounter w)).
Proof. reflexivity. Qed.

Lemma With_Some w l lr key value :
  loggers w !! l = Some lr →
  Logger.With l key value w =
    Ok (length (loggers w))
       (mkWorld (sinks w) (filterObjs w)
          (loggers w ++ [mklogger origLogger
                           (logrus.WithField (entry lr) key value)
                           (fmt lr) (logFilter lr)])
          (ErrorCounter w)).
Proof.
  intros Hl. unfold Logger.With.
  by rewrite (bind_Ok _ _ _ _ _ (deref_Some _ _ _ Hl)).
Qed.

Lemma WithFields_Some w l lr fields :
  loggers w !! l = Some lr →
  Logger.WithFields l fields w =
    Ok (length (loggers w))
       (mkWorld (sinks w) (filterObjs w)
          (loggers w ++ [mklogger origLogger
                           (logrus.WithFields (entry lr) fields)
                           (fmt lr) (logFilter lr)])
          (ErrorCounter w)).
Proof.
  intros Hl. unfold Logger.WithFields.
  by rewrite (bind_Ok _ _ _ _ _ (deref_Some _ _ _ Hl)).
Qed.

(** C8: [With] and [WithFields] on a handle return a handle that was not
    there before; the receiver and every other handle are, after the
    call, the structs they were, and the sinks and the filters are
    untouched; the new handle's fields are the receiver's with the new
    ones over them, and its filter and its sink are the receiver's, by
    address. *)
Theorem With_leaves_receiver (w : World) (l : loc) (lr : logger)
    (key : string) (value : Value) (fields : logrus.Fields) :
  loggers w !! l = Some lr →
  ∃ (l1 l2 : loc) (w1 w2 : World) (lr1 lr2 : logger),
    Logger.With l key value w = Ok l1 w1 ∧
    Logger.WithFields l fields w = Ok l2 w2 ∧
    l1 ≠ l ∧ l2 ≠ l ∧
    loggers w !! l1 = None ∧ loggers w !! l2 = None ∧
    (∀ h x, loggers w !! h = Some x →
            loggers w1 !! h = Some x ∧ loggers w2 !! h = Some x) ∧
    sinks w1 = sinks w ∧ filterObjs w1 = filterObjs w ∧
    sinks w2 = sinks w ∧ filterObjs w2 = filterObjs w ∧
    loggers w1 !! l1 = Some lr1 ∧ loggers w2 !! l2 = Some lr2 ∧
    logrus.Data (entry lr1) = <[key := value]> (logrus.Data (entry lr)) ∧
    (∀ k, logrus.Data (entry lr2) !! k =
            match fields !! k with
            | Some v => Some v
            | None => logrus.Data (entry lr) !! k
            end) ∧
    logFilter lr1 = logFilter lr ∧ logFilter lr2 = logFilter lr ∧
    logrus.Entry_Logger (entry lr1) = logrus.Entry_Logger (entry lr) ∧
    logrus.Entry_Logger (entry lr2) = logrus.Entry_Logger (entry lr).
Proof.
  intros Hl. pose proof (lookup_lt_Some _ _ _ Hl) as Hlt.
  do 6 eexists.
  split; [by apply With_Some|]. split; [by apply WithFields_Some|].
  cbn [loggers sinks filterObjs].
  split; [lia|]. split; [lia|].
  split; [by apply lookup_ge_None|]. split; [by apply lookup_ge_None|].
  split.
  { intros h x Hh. split; apply lookup_app_l_Some; done. }
  do 4 (split; [done|]).
  split.
  { rewrite lookup_app_r by done. by rewrite Nat.sub_diag. }
  split.
  { rewrite lookup_app_r by done. by rewrite Nat.sub_diag. }
  cbn. split.
  { by rewrite insert_union_singleton_l. }
  split; [|done].
  intros k. rewrite lookup_union. by destruct (fields !! k), (logrus.Data (entry lr) !! k).
Qed.

Lemma With_leaves_receiver_witness :
  ∃ l1 w1 lr1,
    Logger.With defaultLogger "a" (VInt 1) init = Ok l1 w1 ∧
    loggers w1 !! defaultLogger = loggers init !! defaultLogger ∧
    loggers w1 !! l1 = Some lr1 ∧
    logrus.Data (entry lr1) = {["a" := VInt 1]} ∧
    logFilter lr1 = 0.
Proof.
  destruct (With_leaves_receiver init defaultLogger
              (mklogger origLogger (logrus.NewEntry origLogger) "short" 0)
              "a" (VInt 1) ∅ eq_refl)
    as (l1 & l2 & w1 & w2 & lr1 & lr2 & HW & _ & _ & _ & _ & _ & Hold & _ & _
        & _ & _ & Hnew & _ & HD & _ & HF & _).
  exists l1, w1, lr1. split; [exact HW|].
  split; [exact (proj1 (Hold defaultLogger _ eq_refl))|].
  split; [exact Hnew|]. split; [exact HD | exact HF].
Defined.

(** The test of the parent and the child: the parent, made with
    [With("a", 1)], still writes [a] and its source only after a child was
    made from it with [With("b", 2)]. *)
Example parent_keeps_its_fields :
  ∃ parent child w1 w2 w3 line,
    logsift.With "a" (VInt 1) init = Ok parent w1 ∧
    Logger.With parent "b" (VInt 2) w1 = Ok child w2 ∧
    Logger.Info parent [VString "parent only"] main_go_12 w2 = Ok tt w3 ∧
    written w3 = [line] ∧
    logrus.Line_Data line
      = <["a" := VInt 1]> {["source" := VString " main.go:12 "]}.
Proof. do 6 eexists. repeat split; by vm_compute. Qed.

Lemma SetSourceFormat_Some w d format :
  loggers w !! defaultLogger = Some d →
  logsift.SetSourceFormat format w =
    Ok tt (mkWorld (sinks w) (filterObjs w)
             (<[defaultLogger := mklogger (logger_Logger d) (entry d)
                                   (sourceFormat_named format) (logFilter d)]>
                (loggers w))
             (ErrorCounter w)).
Proof.
  intros Hd. unfold logsift.SetSourceFormat.
  rewrite (bind_Ok _ _ _ _ _ (deref_Some _ _ _ Hd)).
  unfold set_logger. by rewrite Hd.
Qed.

Lemma AddFilter_Ok w l lr o t w' :
  loggers w !! l = Some lr → filterObjs w !! logFilter lr = Some o →
  ready o = true → Logger.AddFilter l t w = Ok tt w' →
  ∃ o', w' = mkWorld (sinks w) (<[logFilter lr := o']> (filterObjs w))
               (loggers w) (ErrorCounter w) ∧
        ready o' = true ∧ active o' = active o ∪ topics [t].
Proof.
  intros Hl Ho Hr. unfold Logger.AddFilter.
  rewrite (bind_Ok _ _ _ _ _ (deref_Some _ _ _ Hl)).
  unfold onFilter. rewrite Ho.
  destruct (Add [t] o) as [[] o'| | |] eqn:HA; try done.
  intros [= <-]. exists o'. split; [done|].
  split; [by eapply (mutate_ready (MAdd [t]))|].
  by rewrite (mutate_active (MAdd [t]) o o').
Qed.

(** C9: a handle made by [With] or [WithFields] holds the mode its
    parent had when it was made.  [SetSourceFormat] afterwards returns,
    sets the mode the default logger reports, and leaves the derived
    handle, and every handle other than the default logger, the struct
    it was, so that its emissions capture the source as they did before.  A topic added through the parent afterwards is
    allowed through the derived handle: the two hold one filter. *)
Theorem derived_handle_keeps_mode (w w1 : World) (l l' : loc) (key : string)
    (value : Value) (fields : logrus.Fields) (format : string) :
  valid w l = true →
  (Logger.With l key value w = Ok l' w1 ∨
   Logger.WithFields l fields w = Ok l' w1) →
  ∃ (lr lr' : logger) (w2 : World),
    loggers w !! l = Some lr ∧
    loggers w1 !! l' = Some lr' ∧
    fmt lr' = fmt lr ∧ logFilter lr' = logFilter lr ∧
    l' ≠ defaultLogger ∧
    logsift.SetSourceFormat format w1 = Ok tt w2 ∧
    logsift.GetSourceFormat w2 = Ok (sourceFormat_named format) w2 ∧
    loggers w2 !! l' = Some lr' ∧
    (∀ h, h ≠ defaultLogger → loggers w2 !! h = loggers w1 !! h) ∧
    (∀ sev form args callers,
       emit sev form l' args callers w1 =
         entry_emit sev form
           (Logger.withSource_entry lr' ((log_go, 0) :: callers)) args w1 ∧
       emit sev form l' args callers w2 =
         entry_emit sev form
           (Logger.withSource_entry lr' ((log_go, 0) :: callers)) args w2) ∧
    (∀ t w3, t ≠ "" → Logger.AddFilter l t w2 = Ok tt w3 →
             Logger.FiltersAllow l' [t] w3 = Ok true w3).
Proof.
  intros (lr & lg & o & Hl & Hs & Ho & Hr)%valid_inv Hmade.
  pose proof (lookup_lt_Some _ _ _ Hl) as Hlt.
  assert (∃ e, l' = length (loggers w) ∧
               w1 = mkWorld (sinks w) (filterObjs w)
                      (loggers w ++ [mklogger origLogger e (fmt lr) (logFilter lr)])
                      (ErrorCounter w)) as (e & -> & ->).
  { destruct Hmade as [H|H].
    - rewrite (With_Some _ _ lr) in H by done. injection H as <- <-. eauto.
    - rewrite (WithFields_Some _ _ lr) in H by done. injection H as <- <-. eauto. }
  destruct (loggers w !! defaultLogger) as [d|] eqn:Hd;
    [|apply lookup_ge_None in Hd; unfold defaultLogger in Hd; lia].
  set (lr' := mklogger origLogger e (fmt lr) (logFilter lr)).
  set (w1 := mkWorld _ _ (loggers w ++ [lr']) _).
  assert (loggers w1 !! defaultLogger = Some d) as Hd1
    by (by apply lookup_app_l_Some).
  assert (loggers w1 !! length (loggers w) = Some lr') as Hl1.
  { cbn. rewrite lookup_app_r by done. by rewrite Nat.sub_diag. }
  assert (length (loggers w) ≠ defaultLogger) as Hne
    by (unfold defaultLogger; lia).
  set (w2 := mkWorld (sinks w1) (filterObjs w1)
               (<[defaultLogger := mklogger (logger_Logger d) (entry d)
                                     (sourceFormat_named format) (logFilter d)]>
                  (loggers w1))
               (ErrorCounter w1)).
  assert (loggers w2 !! length (loggers w) = Some lr') as Hl2.
  { cbn [w2 loggers]. by rewrite list_lookup_insert_ne. }
  exists lr, lr', w2.
  split; [done|]. split; [done|]. split; [done|]. split; [done|].
  split; [done|].
  split; [by apply SetSourceFormat_Some|].
  split.
  { unfold logsift.GetSourceFormat.
    assert (loggers w2 !! defaultLogger =
            Some (mklogger (logger_Logger d) (entry d)
                    (sourceFormat_named format) (logFilter d))) as Hd2.
    { cbn [w2 loggers]. apply list_lookup_insert_eq. by eapply lookup_lt_Some. }
    by rewrite (bind_Ok _ _ _ _ _ (deref_Some _ _ _ Hd2)). }
  split; [done|].
  split; [intros h Hh; cbn [w2 loggers]; by rewrite list_lookup_insert_ne|].
  split.
  { intros sev form args callers.
    split; by apply emit_Some. }
  intros t w3 Ht HA.
  assert (∃ lr2, loggers w2 !! l = Some lr2 ∧ logFilter lr2 = logFilter lr)
    as (lr2 & Hl2' & Hf2).
  { cbn [w2 loggers]. destruct (decide (l = defaultLogger)) as [->|Hnd].
    - eexists. split.
      + apply list_lookup_insert_eq. by eapply lookup_lt_Some.
      + cbn. congruence.
    - exists lr. split; [|done]. rewrite list_lookup_insert_ne by done.
      by apply lookup_app_l_Some. }
  destruct (AddFilter_Ok w2 l lr2 o t w3) as (o' & -> & Hr' & Hact);
    [done | by rewrite Hf2 | done | done |].
  rewrite Hf2.
  rewrite (FiltersAllow_Some _ _ lr' o'); cbn [loggers filterObjs]; try done.
  - f_equal. unfold answer.
    assert (t ∈ active o') as Hin.
    { rewrite Hact, topics_cons, topics_nil.
      apply String.eqb_neq in Ht. rewrite Ht. set_solver. }
    rewrite bool_decide_eq_false_2 by set_solver.
    apply rangeAllows_true. exists t. split; [left | done].
  - cbn [lr' logFilter]. apply list_lookup_insert_eq. by eapply lookup_lt_Some.
Qed.

Lemma derived_handle_keeps_mode_witness :
  ∃ lr' w2,
    loggers
      (state_after (Logger.With defaultLogger "a" (VInt 1) init) init) !! 1
      = Some lr' ∧
    fmt lr' = "short" ∧
    logsift.SetSourceFormat "long"
      (state_after (Logger.With defaultLogger "a" (VInt 1) init) init)
      = Ok tt w2 ∧
    logsift.GetSourceFormat w2 = Ok "long" w2 ∧
    loggers w2 !! 1 = Some lr'.
Proof.
  destruct (derived_handle_keeps_mode init
              (state_after (Logger.With defaultLogger "a" (VInt 1) init) init)
              defaultLogger 1 "a" (VInt 1) ∅ "long")
    as (lr & lr' & w2 & Hl & Hl1 & Hfmt & _ & _ & HS & HG & Hl2 & _ & _);
    [reflexivity | by left |].
  exists lr', w2. split; [exact Hl1|].
  split; [rewrite Hfmt; by injection Hl as <- |].
  split; [exact HS|]. split; [exact HG | exact Hl2].
Defined.

(** The derived handle keeps writing the short form after the default
    logger was set to the long one, where the default logger writes the
    full path. *)
Example derived_short_default_long :
  ∃ h w1 w2 w3 w4 line1 line2,
    logsift.With "a" (VInt 1) init = Ok h w1 ∧
    logsift.SetSourceFormat "long" w1 = Ok tt w2 ∧
    Logger.Info h [VString "x"] main_go_12 w2 = Ok tt w3 ∧
    logsift.Info [VString "y"] main_go_12 w3 = Ok tt w4 ∧
    written w4 = [line1; line2] ∧
    logrus.Line_Data line1 !! "source" = Some (VString " main.go:12 ") ∧
    logrus.Line_Data line2 !! "source"
      = Some (VString " /home/dev/app/main.go:12 ").
Proof. do 7 eexists. repeat split; by vm_compute. Qed.

(** ** The format *)

(** C10: on the default logger, [GetFormat] after [SetFormat] gives the
    name back for [json], [nocolor] and [text]; after
    [SetFormat("forceColor")] it gives [text]. *)
Theorem format_round_trip (w : World) (c : Config) :
  config w = Some c →
  (∀ format, format ∈ ["json"; "nocolor"; "text"] →
     ∃ w', logsift.SetFormat format w = Ok tt w' ∧
           logsift.GetFormat w' = Ok format w') ∧
  (∃ w', logsift.SetFormat "forceColor" w = Ok tt w' ∧
         logsift.GetFormat w' = Ok "text" w' ∧
         logsift.GetFormat w' ≠ Ok "forceColor" w').
Proof.
  intros Hc.
  assert (∀ format, ∃ w', logsift.SetFormat format w = Ok tt w' ∧
            logsift.GetFormat w' = Ok (format_name (formatter_named format)) w')
    as Hany.
  { intros format.
    destruct (SetFormat_config w c format Hc) as (w' & HS & Hc').
    exists w'. split; [done|].
    by destruct (getters_config _ _ Hc') as (_ & -> & _). }
  split.
  - intros format Hin. destruct (Hany format) as (w' & HS & HG).
    exists w'. split; [done|]. rewrite HG.
    repeat (apply elem_of_cons in Hin as [->|Hin]; [done|]).
    by apply elem_of_nil in Hin.
  - destruct (Hany "forceColor") as (w' & HS & HG).
    exists w'. split; [done|]. rewrite HG. split; [done|]. discriminate.
Qed.

Lemma format_round_trip_witness :
  (∃ w', logsift.SetFormat "json" init = Ok tt w' ∧
         logsift.GetFormat w' = Ok "json" w') ∧
  (∃ w', logsift.SetFormat "forceColor" init = Ok tt w' ∧
         logsift.GetFormat w' = Ok "text" w').
Proof.
  destruct (format_round_trip init config_init eq_refl) as [Hrt Hfc].
  split.
  - apply Hrt. by left.
  - destruct Hfc as (w' & HS & HG & _). by exists w'.
Defined.

(** The filter-gated calls of the end-to-end test: with [db] added,
    [InfoFilter("auth", ...)] writes nothing and changes nothing, and
    [InfoFilter("db", ...)] is [Info(...)]. *)
Lemma filter_gated_emission_witness :
  Logger.InfoFilter defaultLogger "auth" [VString "x"] main_go_12
    (state_after (logsift.AddFilter "db" init) init)
  = Ok tt (state_after (logsift.AddFilter "db" init) init) ∧
  Logger.InfoFilter defaultLogger "db" [VString "x"] main_go_12
    (state_after (logsift.AddFilter "db" init) init)
  = Logger.Info defaultLogger [VString "x"] main_go_12
      (state_after (logsift.AddFilter "db" init) init).
Proof.
  split.
  - destruct (filter_gated_emission
                (state_after (logsift.AddFilter "db" init) init)
                defaultLogger GInfo Plain "auth" [] [VString "x"] main_go_12
                eq_refl)
      as (one & many & H1 & _ & HF & _).
    cbn [emitFilter emit severity] in HF. rewrite HF.
    vm_compute in H1. by injection H1 as <-.
  - destruct (filter_gated_emission
                (state_after (logsift.AddFilter "db" init) init)
                defaultLogger GInfo Plain "db" [] [VString "x"] main_go_12
                eq_refl)
      as (one & many & H1 & _ & HF & _).
    cbn [emitFilter emit severity] in HF. rewrite HF.
    vm_compute in H1. by injection H1 as <-.
Defined.

(** ** The cases of the package tests *)

Example TestParseFilters :
  logsift.ParseFilters "auth,db,"
    = Some (<["db" := true]> {["auth" := true]}) ∧
  logsift.ParseFilters "" = Some ∅ ∧
  logsift.ParseFilters "auth" = Some {["auth" := true]}.
Proof. repeat split; by vm_compute. Qed.

Example TestSetSourceFormat :
  ∃ w1 w2 w3,
    logsift.SetSourceFormat "long" init = Ok tt w1 ∧
    logsift.GetSourceFormat w1 = Ok "long" w1 ∧
    logsift.SetSourceFormat "short" w1 = Ok tt w2 ∧
    logsift.GetSourceFormat w2 = Ok "short" w2 ∧
    logsift.SetSourceFormat "invalid" w2 = Ok tt w3 ∧
    logsift.GetSourceFormat w3 = Ok "short" w3.
Proof. do 3 eexists. repeat split; by vm_compute. Qed.

Example TestSetLevel_InvalidFallsBackToInfo :
  ∃ w1 w2,
    logsift.SetLevel ParseLevel_lower "debug" init = Ok tt w1 ∧
    logsift.SetLevel ParseLevel_lower "notavalidlevel" w1 = Ok tt w2 ∧
    logsift.GetLevel w2 = Ok "info" w2.
Proof. do 2 eexists. repeat split; by vm_compute. Qed.

Example TestHandler_ResetFilter :
  ∃ w1 w2,
    logsift.AddFilter "auth" init = Ok tt w1 ∧
    logsift.Handler ParseLevel_lower {["resetFilter" := ["true"]]} [] w1
      = Ok tt w2 ∧
    Logger.FiltersAllow defaultLogger ["auth"] w1 = Ok true w1 ∧
    Logger.FiltersAllow defaultLogger ["auth"] w2 = Ok false w2.
Proof. do 2 eexists. repeat split; by vm_compute. Qed.

(** The source that the package-level forms record, called from
    [main.go:12] with [db] active: [Info] and the method [InfoFilter] of
    the default logger name the caller; the function [InfoFilter] goes
    through the method, and the frame two above [withSource] is then its
    own line in [log.go]. *)
Example sources_recorded :
  ∃ w1 w2 w3 w4 line1 line2 line3,
    logsift.AddFilter "db" init = Ok tt w1 ∧
    logsift.Info [VString "x"] main_go_12 w1 = Ok tt w2 ∧
    Logger.InfoFilter logsift.Default "db" [VString "x"] main_go_12 w2
      = Ok tt w3 ∧
    logsift.InfoFilter "db" [VString "x"] main_go_12 w3 = Ok tt w4 ∧
    logrus.Line_Data <$> written w4 = [line1; line2; line3] ∧
    line1 !! "source" = Some (VString " main.go:12 ") ∧
    line2 !! "source" = Some (VString " main.go:12 ") ∧
    line3 !! "source" = Some (VString " log.go:460 ").
Proof. do 7 eexists. repeat split; by vm_compute. Qed.

(** C2: the package-level filter-gated functions do not behave like the
    package-level function of their severity.  Each forwards to the
    method of the default logger, so the frame two above [withSource] is
    the forwarding function itself: what the call does is the same
    whoever calls it, where [Info] and the other ungated functions, and
    the gated methods called directly, record their caller.  On the
    package as initialised with [db] active, [InfoFilter("auth", "x")]
    from [main.go:12] leaves the store as it is, [InfoFilter("db", "x")]
    writes a line whose source is [log.go:460], and [Info("x")] and the
    method [InfoFilter] of the default logger write the same line with
    the source [main.go:12]. *)
Theorem gated_functions_record_their_own_line (g : Gated) (form : Form)
    (filter : string) (filters : list string) (args : list Value)
    (callers callers' : list Frame) (w : World) :
  emitFilter_default g form filter args callers w
    = emitFilter_default g form filter args callers' w ∧
  emitFilters_default g form filters args callers w
    = emitFilters_default g form filters args callers' w ∧
  ∃ w1 w2 w3,
    logsift.AddFilter "db" init = Ok tt w1 ∧
    logsift.InfoFilter "auth" [VString "x"] main_go_12 w1 = Ok tt w1 ∧
    logsift.InfoFilter "db" [VString "x"] main_go_12 w1 = Ok tt w2 ∧
    logsift.Info [VString "x"] main_go_12 w1 = Ok tt w3 ∧
    Logger.InfoFilter logsift.Default "db" [VString "x"] main_go_12 w1
      = Ok tt w3 ∧
    written w2 =
      [logrus.mkLine logrus.InfoLevel
         {["source" := VString " log.go:460 "]}
         (logrus.Sprint [VString "x"])
         (logrus.TextFormatter false false)] ∧
    written w3 =
      [logrus.mkLine logrus.InfoLevel
         {["source" := VString " main.go:12 "]}
         (logrus.Sprint [VString "x"])
         (logrus.TextFormatter false false)] ∧
    w2 ≠ w3.
Proof.
  split; [|split].
  - destruct g, form; cbn [emitFilter_default];
      unfold logsift.DebugFilter, logsift.DebugFilterLn, logsift.DebugFilterf,
        logsift.InfoFilter, logsift.InfoFilterLn, logsift.InfoFilterf,
        Logger.DebugFilter, Logger.DebugFilterLn, Logger.DebugFilterf,
        Logger.InfoFilter, Logger.InfoFilterLn, Logger.InfoFilterf, bind;
      destruct (Logger.FiltersAllow defaultLogger [filter] w)
        as [[] w'|w'|w'|]; try reflexivity;
      unfold Logger.withSource, bind, deref;
      destruct (loggers w' !! defaultLogger); reflexivity.
  - destruct g, form; cbn [emitFilters_default];
      unfold logsift.DebugFilters, logsift.DebugFiltersLn,
        logsift.DebugFiltersf, logsift.InfoFilters, logsift.InfoFiltersLn,
        logsift.InfoFiltersf, Logger.DebugFilters, Logger.DebugFiltersLn,
        Logger.DebugFiltersf, Logger.InfoFilters, Logger.InfoFiltersLn,
        Logger.InfoFiltersf, bind;
      destruct (Logger.FiltersAllow defaultLogger filters w)
        as [[] w'|w'|w'|]; try reflexivity;
      unfold Logger.withSource, bind, deref;
      destruct (loggers w' !! defaultLogger); reflexivity.
  - do 3 eexists.
    split; [by vm_compute|]. split; [by vm_compute|].
    split; [by vm_compute|]. split; [by vm_compute|].
    split; [by vm_compute|]. split; [by vm_compute|].
    split; [by vm_compute|].
    intros H. apply (f_equal written) in H. vm_compute in H. discriminate H.
Qed.

(** * Further properties of the filters and of the facade *)

(** ** The loops, key by key *)

Lemma rangeAdd_lookup fs (g : gmap string bool) :
  ∃ g', rangeAdd fs (Some g) = Some (Some g') ∧
        ∀ k, g' !! k = if bool_decide (k ∈ topics fs) then Some true else g !! k.
Proof.
  revert g. induction fs as [|x fs IH]; intros g; cbn [rangeAdd].
  - exists g. split; [done|]. intros k. rewrite topics_nil.
    by rewrite bool_decide_eq_false_2 by set_solver.
  - rewrite topics_cons. destruct (String.eqb_spec x "") as [->|Hx]; [apply IH|].
    cbn. destruct (IH (<[x:=true]> g)) as (g' & -> & Hg').
    exists g'. split; [done|]. intros k. rewrite Hg'.
    destruct (decide (k ∈ topics fs)) as [Hin|Hout].
    + rewrite !bool_decide_eq_true_2 by set_solver. done.
    + rewrite (bool_decide_eq_false_2 (k ∈ topics fs)) by done.
      destruct (decide (k = x)) as [->|Hne].
      * rewrite lookup_insert_eq. by rewrite bool_decide_eq_true_2 by set_solver.
      * rewrite lookup_insert_ne by done.
        by rewrite bool_decide_eq_false_2 by set_solver.
Qed.

Lemma rangeRemove_lookup fs (g : gmap string bool) :
  ∃ g', rangeRemove fs (Some g) = Some g' ∧
        ∀ k, g' !! k = if bool_decide (k ∈ topics fs) then None else g !! k.
Proof.
  revert g. induction fs as [|x fs IH]; intros g; cbn [rangeRemove].
  - exists g. split; [done|]. intros k. rewrite topics_nil.
    by rewrite bool_decide_eq_false_2 by set_solver.
  - rewrite topics_cons. destruct (String.eqb_spec x "") as [->|Hx]; [apply IH|].
    cbn. destruct (IH (delete x g)) as (g' & -> & Hg').
    exists g'. split; [done|]. intros k. rewrite Hg'.
    destruct (decide (k ∈ topics fs)) as [Hin|Hout].
    + rewrite !bool_decide_eq_true_2 by set_solver. done.
    + rewrite (bool_decide_eq_false_2 (k ∈ topics fs)) by done.
      destruct (decide (k = x)) as [->|Hne].
      * rewrite lookup_delete_eq. by rewrite bool_decide_eq_true_2 by set_solver.
      * rewrite lookup_delete_ne by done.
        by rewrite bool_decide_eq_false_2 by set_solver.
Qed.

Lemma rangeRemove_nil_map fs : rangeRemove fs None = None.
Proof. induction fs as [|x fs IH]; cbn; [done|]. by destruct (String.eqb x ""). Qed.

Lemma rangeAdd_app fs1 fs2 m :
  rangeAdd (fs1 ++ fs2) m = rangeAdd fs1 m ≫= rangeAdd fs2.
Proof.
  revert m. induction fs1 as [|x fs1 IH]; intros m; cbn [rangeAdd app]; [done|].
  destruct (String.eqb x ""); [apply IH|].
  destruct m as [g|]; cbn; [apply IH | done].
Qed.

Lemma rangeRemove_app fs1 fs2 m :
  rangeRemove (fs1 ++ fs2) m = rangeRemove fs2 (rangeRemove fs1 m).
Proof.
  revert m. induction fs1 as [|x fs1 IH]; intros m; cbn [rangeRemove app]; [done|].
  destruct (String.eqb x ""); apply IH.
Qed.

Lemma rangeAdd_Some_nil fs m : rangeAdd fs m = Some None → m = None.
Proof.
  destruct m as [g|]; [|done].
  by destruct (rangeAdd_make fs g) as (g' & -> & _).
Qed.

Lemma rangeAdd_None fs m : rangeAdd fs m = None → m = None.
Proof.
  destruct m as [g|]; [|done].
  by destruct (rangeAdd_make fs g) as (g' & -> & _).
Qed.

Lemma obj_with_same o a m :
  ready o = true → a = obj_allowEmptyFilter o → m = obj_filters o →
  obj_with o a m = o.
Proof. intros Hr -> ->. by apply obj_with_id. Qed.

(** ** The filter methods beyond the claims *)

(** X1: on either struct, once [Add] has returned, every non-empty topic
    it was given is allowed, the topics active before are still active,
    and a topic neither active before nor given is still not active. *)
Theorem Add_makes_allowed (o o1 : FilterObj) (fs : list string) :
  ready o = true →
  Add fs o = Ok tt o1 →
  (∀ t, t ∈ fs → t ≠ "" → Allows [t] o1 = Ok true o1) ∧
  (∀ t, t ∈ active o → t ∈ active o1) ∧
  (∀ t, t ∉ active o → t ∉ fs → t ∉ active o1) ∧
  obj_allowEmptyFilter o1 = obj_allowEmptyFilter o.
Proof.
  intros Hr HA.
  assert (mutate (MAdd fs) o = Ok tt o1) as Hm by done.
  pose proof (mutate_ready _ _ _ Hr Hm) as Hr1.
  pose proof (mutate_active _ _ _ Hr Hm) as Hact. cbn in Hact.
  repeat split.
  - intros t Hin Hne. rewrite Allows_ready by done.
    assert (t ∈ active o1) as Ht by (rewrite Hact, elem_of_union, elem_of_topics; auto).
    rewrite bool_decide_eq_false_2 by set_solver. f_equal.
    apply rangeAllows_true. exists t. split; [left | done].
  - intros t Ht. rewrite Hact. set_solver.
  - intros t Ht Hfs. rewrite Hact, elem_of_union, elem_of_topics. tauto.
  - rewrite Add_ready in HA by done. destruct (rangeAdd _ _); [|done].
    injection HA as <-. apply allow_obj_with.
Qed.

Lemma Add_makes_allowed_witness :
  ∃ o1, Add ["auth"; ""; "db"] (NewConcurrentMapFilter false) = Ok tt o1 ∧
        Allows ["db"] o1 = Ok true o1.
Proof.
  eexists. split; [reflexivity|].
  eapply (Add_makes_allowed (NewConcurrentMapFilter false) _ ["auth"; ""; "db"]);
    [reflexivity | reflexivity | | discriminate].
  right. right. left.
Defined.

(** X2: [Add] is idempotent: a second [Add] of the same topics returns
    and leaves the filter exactly as the first one left it. *)
Theorem Add_idempotent (o o1 : FilterObj) (fs : list string) :
  ready o = true →
  Add fs o = Ok tt o1 →
  Add fs o1 = Ok tt o1.
Proof.
  intros Hr HA. rewrite Add_ready in HA by done.
  destruct (obj_filters o) as [g|] eqn:Hg.
  - destruct (rangeAdd_lookup fs g) as (g' & Hg' & Hl). rewrite Hg' in HA.
    injection HA as <-.
    rewrite Add_ready by apply ready_obj_with. rewrite filters_obj_with.
    destruct (rangeAdd_lookup fs g') as (g'' & -> & Hl').
    rewrite allow_obj_with, obj_with_twice. do 3 f_equal.
    apply map_eq. intros k. rewrite Hl', Hl. by case_bool_decide.
  - rewrite rangeAdd_nil_map in HA. case_bool_decide as Ht; [|done].
    injection HA as <-.
    rewrite Add_ready by apply ready_obj_with. rewrite filters_obj_with.
    rewrite rangeAdd_nil_map, bool_decide_eq_true_2 by done.
    by rewrite allow_obj_with, obj_with_twice.
Qed.

Lemma Add_idempotent_witness :
  ∃ o1, Add ["a"; "b"; "a"] (NewUnsafeMapFilter true) = Ok tt o1 ∧
        Add ["a"; "b"; "a"] o1 = Ok tt o1.
Proof.
  eexists. split; [reflexivity|].
  by apply (Add_idempotent (NewUnsafeMapFilter true)).
Defined.

(** X3: a call with several topics is the calls with its parts one after
    the other: [Add] of [fs1] then of [fs2] is [Add] of both at once, in
    the result and also where it panics; the same for [Remove]. *)
Theorem Add_Remove_of_append (o : FilterObj) (fs1 fs2 : list string) :
  ready o = true →
  (Add fs1 ;; Add fs2) o = Add (fs1 ++ fs2) o ∧
  (Remove fs1 ;; Remove fs2) o = Remove (fs1 ++ fs2) o.
Proof.
  intros Hr. split.
  - unfold bind. rewrite (Add_ready (fs1 ++ fs2)), (Add_ready fs1) by done.
    rewrite rangeAdd_app.
    destruct (rangeAdd fs1 (obj_filters o)) as [m1|] eqn:H1;
      cbn [mbind option_bind]; [|done].
    rewrite Add_ready by apply ready_obj_with.
    rewrite filters_obj_with, allow_obj_with.
    destruct (rangeAdd fs2 m1) as [m2|] eqn:H2.
    + by rewrite obj_with_twice.
    + apply rangeAdd_None in H2 as ->. apply rangeAdd_Some_nil in H1.
      rewrite <- H1. by rewrite obj_with_id.
  - unfold bind. rewrite (Remove_ready (fs1 ++ fs2)), (Remove_ready fs1) by done.
    rewrite Remove_ready by apply ready_obj_with.
    by rewrite filters_obj_with, allow_obj_with, obj_with_twice, rangeRemove_app.
Qed.

Lemma Add_Remove_of_append_witness :
  (Add ["a"] ;; Add ["b"; "c"]) (NewConcurrentMapFilter false)
  = Add ["a"; "b"; "c"] (NewConcurrentMapFilter false).
Proof.
  apply (Add_Remove_of_append (NewConcurrentMapFilter false) ["a"] ["b"; "c"]).
  reflexivity.
Defined.

(** X4: [Remove] always returns, on a nil map too; it takes the non-empty
    topics given out of the active set and keeps the policy; when none of
    them is active the filter is left exactly as it was. *)
Theorem Remove_returns (o : FilterObj) (fs : list string) :
  ready o = true →
  ∃ o1, Remove fs o = Ok tt o1 ∧
        ready o1 = true ∧
        active o1 = active o ∖ topics fs ∧
        obj_allowEmptyFilter o1 = obj_allowEmptyFilter o ∧
        ((∀ t, t ∈ fs → t ∉ active o) → o1 = o).
Proof.
  intros Hr. eexists. split; [by apply Remove_ready|].
  split; [apply ready_obj_with|].
  split; [unfold active; by rewrite filters_obj_with, rangeRemove_keyset|].
  split; [apply allow_obj_with|].
  intros Hnone. apply obj_with_same; [done..|].
  unfold active in Hnone. destruct (obj_filters o) as [g|].
  - destruct (rangeRemove_lookup fs g) as (g' & -> & Hl). f_equal.
    apply map_eq. intros k. rewrite Hl. case_bool_decide as Hk; [|done].
    apply elem_of_topics in Hk as [Hk _]. symmetry.
    apply not_elem_of_dom. by apply Hnone.
  - apply rangeRemove_nil_map.
Qed.

Lemma Remove_returns_witness :
  ∃ o1, Remove ["nonexistent"] (NewUnsafeMapFilter false) = Ok tt o1 ∧
        o1 = NewUnsafeMapFilter false.
Proof.
  destruct (Remove_returns (NewUnsafeMapFilter false) ["nonexistent"] eq_refl)
    as (o1 & HR & _ & _ & _ & Hsame).
  exists o1. split; [exact HR|]. apply Hsame. intros t _. by vm_compute.
Defined.

(** X5: [Remove] undoes [Add]: topics that were not active, once added
    and then removed, leave the filter exactly as it was before. *)
Theorem Remove_undoes_Add (o o1 : FilterObj) (fs : list string) :
  ready o = true →
  (∀ t, t ∈ fs → t ∉ active o) →
  Add fs o = Ok tt o1 →
  Remove fs o1 = Ok tt o.
Proof.
  intros Hr Hnew HA. rewrite Add_ready in HA by done.
  unfold active in Hnew.
  destruct (obj_filters o) as [g|] eqn:Hg.
  - destruct (rangeAdd_lookup fs g) as (g' & Hg' & Hl). rewrite Hg' in HA.
    injection HA as <-. rewrite Remove_ready by apply ready_obj_with.
    rewrite filters_obj_with, allow_obj_with, obj_with_twice.
    destruct (rangeRemove_lookup fs g') as (g'' & -> & Hl').
    f_equal. apply obj_with_same; [done..|]. rewrite Hg. f_equal.
    apply map_eq. intros k. rewrite Hl', Hl. case_bool_decide as Hk; [|done].
    apply elem_of_topics in Hk as [Hk _]. symmetry.
    apply not_elem_of_dom. by apply Hnew.
  - rewrite rangeAdd_nil_map in HA. case_bool_decide as Ht; [|done].
    injection HA as <-. rewrite Remove_ready by apply ready_obj_with.
    rewrite filters_obj_with, allow_obj_with, obj_with_twice, rangeRemove_nil_map.
    f_equal. by apply obj_with_same.
Qed.

Lemma Remove_undoes_Add_witness :
  ∃ o1, Add ["x"; "y"] (NewConcurrentMapFilter true) = Ok tt o1 ∧
        Remove ["x"; "y"] o1 = Ok tt (NewConcurrentMapFilter true).
Proof.
  eexists. split; [reflexivity|].
  apply (Remove_undoes_Add (NewConcurrentMapFilter true)); [reflexivity| |reflexivity].
  intros t _. by vm_compute.
Defined.

(** X6: the one panic of the filters.  On a filter whose lock is free
    [Add] returns unless the map is nil and a non-empty topic is given;
    then it panics and leaves the filter as it was.  [Remove], [Set],
    [SetMap], [SetAllowEmptyFilter] and [Allows] return in every case. *)
Theorem Add_alone_can_panic (o : FilterObj) (fs : list string) (m : gomap)
    (b : bool) :
  ready o = true →
  ((obj_filters o ≠ None ∨ topics fs = ∅) → ∃ o1, Add fs o = Ok tt o1) ∧
  (obj_filters o = None → topics fs ≠ ∅ → Add fs o = Panic o) ∧
  (∃ o1, Remove fs o = Ok tt o1) ∧
  (∃ o1, Set_ fs o = Ok tt o1) ∧
  (∃ o1, SetMap m o = Ok tt o1) ∧
  (∃ o1, SetAllowEmptyFilter b o = Ok tt o1) ∧
  (∃ a, Allows fs o = Ok a o).
Proof.
  intros Hr. repeat split.
  - intros Hok. rewrite Add_ready by done.
    destruct (obj_filters o) as [g|].
    + destruct (rangeAdd_make fs g) as (g' & -> & _). eauto.
    + destruct Hok as [?|Ht]; [done|].
      rewrite rangeAdd_nil_map, bool_decide_eq_true_2 by done. eauto.
  - intros Hn Ht. rewrite Add_ready, Hn, rangeAdd_nil_map by done.
    by rewrite bool_decide_eq_false_2.
  - rewrite Remove_ready by done. eauto.
  - destruct (Set_ready fs o Hr) as (g & _ & _ & ->). eauto.
  - rewrite SetMap_ready by done. eauto.
  - rewrite SetAllowEmptyFilter_ready by done. eauto.
  - rewrite Allows_ready by done. eauto.
Qed.

Lemma Add_alone_can_panic_witness :
  Add ["x"] (obj_with (NewUnsafeMapFilter false) false None)
  = Panic (obj_with (NewUnsafeMapFilter false) false None).
Proof.
  by apply (Add_alone_can_panic (obj_with (NewUnsafeMapFilter false) false None)
              ["x"] None false).
Defined.

(** ** The two structs against each other *)

Lemma same_contents_obj_with o1 o2 a m :
  same_contents (obj_with o1 a m) (obj_with o2 a m).
Proof. split; by rewrite ?filters_obj_with, ?allow_obj_with. Qed.

Lemma mutate_related mt o1 o2 :
  ready o1 = true → ready o2 = true → same_contents o1 o2 →
  outcome_rel (λ a b, same_contents a b ∧ ready a = true ∧ ready b = true)
    (mutate mt o1) (mutate mt o2).
Proof.
  intros H1 H2 [Hf Ha]. destruct mt as [fs|fs|fs|m|b]; cbn [mutate].
  - rewrite !Add_ready, Hf, Ha by done.
    destruct (rangeAdd fs (obj_filters o2)); cbn.
    + by auto using same_contents_obj_with, ready_obj_with.
    + by repeat split.
  - rewrite !Remove_ready, Hf, Ha by done. cbn.
    by auto using same_contents_obj_with, ready_obj_with.
  - destruct (Set_ready fs o1 H1) as (g & Hg & _ & ->).
    destruct (Set_ready fs o2 H2) as (g' & Hg' & _ & ->).
    rewrite Hg in Hg'. injection Hg' as <-. rewrite Ha. cbn.
    by auto using same_contents_obj_with, ready_obj_with.
  - rewrite !SetMap_ready, Ha by done. cbn.
    by auto using same_contents_obj_with, ready_obj_with.
  - rewrite !SetAllowEmptyFilter_ready, Hf by done. cbn.
    by auto using same_contents_obj_with, ready_obj_with.
Qed.

Lemma mutations_related ms o1 o2 :
  ready o1 = true → ready o2 = true → same_contents o1 o2 →
  outcome_rel (λ a b, same_contents a b ∧ ready a = true ∧ ready b = true)
    (mutations ms o1) (mutations ms o2).
Proof.
  revert o1 o2. induction ms as [|mt ms IH]; intros o1 o2 H1 H2 Hs.
  - done.
  - cbn [mutations]. unfold bind.
    pose proof (mutate_related mt o1 o2 H1 H2 Hs) as Hm.
    destruct (mutate mt o1) as [[] s1|s1|s1|], (mutate mt o2) as [[] s2|s2|s2|];
      cbn in Hm; try done.
    destruct Hm as (_ & Hs' & H1' & H2'). by apply IH.
Qed.

(** X7: the two structs keep the same contract.  The same mutations on a
    new concurrent filter and on a new unsafe one end in the same way
    (both return or both panic), with the same map and the same policy,
    and [Allows] then gives the same answer on both. *)
Theorem structs_agree (allowEmpty : bool) (ms : list Mutation)
    (vs : list string) :
  outcome_rel same_contents
    (mutations ms (NewConcurrentMapFilter allowEmpty))
    (mutations ms (NewUnsafeMapFilter allowEmpty)) ∧
  outcome_rel (λ _ _, True)
    ((mutations ms ;; Allows vs) (NewConcurrentMapFilter allowEmpty))
    ((mutations ms ;; Allows vs) (NewUnsafeMapFilter allowEmpty)).
Proof.
  pose proof (mutations_related ms (NewConcurrentMapFilter allowEmpty)
                (NewUnsafeMapFilter allowEmpty) eq_refl eq_refl) as Hm.
  specialize (Hm (conj eq_refl eq_refl)). unfold bind.
  destruct (mutations ms (NewConcurrentMapFilter allowEmpty)) as [[] s1|s1|s1|],
    (mutations ms (NewUnsafeMapFilter allowEmpty)) as [[] s2|s2|s2|];
    cbn in Hm; try done; cbn [outcome_rel]; try tauto.
  destruct Hm as (_ & [Hf Ha] & H1 & H2). split; [done|].
  rewrite !Allows_ready by done. unfold active. rewrite Hf, Ha. by cbn.
Qed.

(** X8: the lock of the concurrent filter.  While a writer holds it,
    every method waits.  While readers hold it, [Allows] still returns,
    leaving the filter as it was, and the five mutators wait.  From a
    free lock every method ends, returning or panicking, with the lock
    free again. *)
Theorem lock_discipline (f : concurrentMapFilter.t) (fs : list string)
    (m : gomap) (b : bool) :
  let freed {A} (o : Outcome concurrentMapFilter.t A) : Prop :=
    match o with
    | Ok _ f' | Panic f' => concurrentMapFilter.mu f' = RWMutex.zero
    | _ => False
    end in
  match concurrentMapFilter.mu f with
  | RWMutex.mk true _ =>
      concurrentMapFilter.Add fs f = Block ∧
      concurrentMapFilter.Remove fs f = Block ∧
      concurrentMapFilter.Set_ fs f = Block ∧
      concurrentMapFilter.SetMap m f = Block ∧
      concurrentMapFilter.SetAllowEmptyFilter b f = Block ∧
      concurrentMapFilter.Allows fs f = Block
  | RWMutex.mk false (S _) =>
      concurrentMapFilter.Add fs f = Block ∧
      concurrentMapFilter.Remove fs f = Block ∧
      concurrentMapFilter.Set_ fs f = Block ∧
      concurrentMapFilter.SetMap m f = Block ∧
      concurrentMapFilter.SetAllowEmptyFilter b f = Block ∧
      ∃ a, concurrentMapFilter.Allows fs f = Ok a f
  | RWMutex.mk false 0 =>
      freed (concurrentMapFilter.Add fs f) ∧
      freed (concurrentMapFilter.Remove fs f) ∧
      freed (concurrentMapFilter.Set_ fs f) ∧
      freed (concurrentMapFilter.SetMap m f) ∧
      freed (concurrentMapFilter.SetAllowEmptyFilter b f) ∧
      freed (concurrentMapFilter.Allows fs f)
  end.
Proof.
  destruct f as [[[] [|n]] a g]; cbn -[rangeAdd rangeRemove rangeStrip rangeAllows];
    unfold concurrentMapFilter.Add, concurrentMapFilter.Remove,
      concurrentMapFilter.Set_, concurrentMapFilter.SetMap,
      concurrentMapFilter.SetAllowEmptyFilter, concurrentMapFilter.Allows,
      concurrentMapFilter.locked, concurrentMapFilter.rlocked;
    cbn -[rangeAdd rangeRemove rangeStrip rangeAllows];
    repeat split; eauto.
  - by destruct (rangeAdd fs g).
  - by destruct (rangeAdd fs go_make).
Qed.

(** X9: [SetMap] goes by the keys alone.  Whatever was active before and
    whatever booleans the map holds, afterwards the active topics are
    the non-empty keys of the map given: a key that maps to [false] is
    active, and two maps with the same keys leave filters that answer
    alike. *)
Theorem SetMap_goes_by_keys (o : FilterObj) (m m' : gomap) :
  ready o = true →
  keyset m = keyset m' →
  ∃ o1 o1',
    SetMap m o = Ok tt o1 ∧ SetMap m' o = Ok tt o1' ∧
    active o1 = keyset m ∖ {[""]} ∧
    obj_allowEmptyFilter o1 = obj_allowEmptyFilter o ∧
    (∀ t value, t ≠ "" → m ≫= (.!! t) = Some value →
                Allows [t] o1 = Ok true o1) ∧
    (∀ vs, ∃ a, Allows vs o1 = Ok a o1 ∧ Allows vs o1' = Ok a o1').
Proof.
  intros Hr Hk. do 2 eexists.
  split; [by apply SetMap_ready|]. split; [by apply SetMap_ready|].
  assert (∀ m0, active (obj_with o (obj_allowEmptyFilter o) (rangeStrip m0))
                = keyset m0 ∖ {[""]}) as Hact.
  { intros m0. unfold active. by rewrite filters_obj_with, rangeStrip_keyset. }
  split; [apply Hact|]. split; [apply allow_obj_with|]. split.
  - intros t value Ht Hm. rewrite Allows_ready by apply ready_obj_with.
    assert (t ∈ keyset m ∖ {[""]}) as Hin.
    { apply elem_of_difference. split; [|set_solver].
      destruct m as [g|]; [|done]. apply elem_of_dom. by exists value. }
    rewrite Hact, bool_decide_eq_false_2 by set_solver. f_equal.
    apply rangeAllows_true. exists t. split; [left|].
    by rewrite filters_obj_with, rangeStrip_keyset.
  - intros vs. eexists. split; [by apply Allows_ready, ready_obj_with|].
    rewrite Allows_ready by apply ready_obj_with.
    rewrite !Hact, !allow_obj_with, Hk. f_equal. case_bool_decide; [done|].
    apply eq_true_iff_eq. rewrite !rangeAllows_true.
    by rewrite !filters_obj_with, !rangeStrip_keyset, Hk.
Qed.

Lemma SetMap_goes_by_keys_witness :
  ∃ o1, SetMap (Some {["a" := false]}) (NewConcurrentMapFilter false) = Ok tt o1 ∧
        Allows ["a"] o1 = Ok true o1.
Proof.
  destruct (SetMap_goes_by_keys (NewConcurrentMapFilter false)
              (Some {["a" := false]}) (Some {["a" := true]}) eq_refl)
    as (o1 & o1' & HS & _ & _ & _ & HA & _).
  - by vm_compute.
  - exists o1. split; [exact HS|]. by apply (HA "a" false).
Defined.

(** X10: with at least one topic, [Allows] of a list is true exactly
    when [Allows] of one of its topics alone is true; this holds on the
    empty set as well, where both are the policy. *)
Theorem Allows_of_list (o : FilterObj) (vs : list string) :
  ready o = true →
  vs ≠ [] →
  ∃ b, Allows vs o = Ok b o ∧
       (b = true ↔ ∃ v, v ∈ vs ∧ Allows [v] o = Ok true o).
Proof.
  intros Hr Hne. eexists. split; [by apply Allows_ready|].
  case_bool_decide as He.
  - split.
    + intros Hp. destruct vs as [|v vs]; [done|]. exists v. split; [left|].
      rewrite Allows_ready, bool_decide_eq_true_2 by done. by rewrite Hp.
    + intros (v & _ & Hv). rewrite Allows_ready, bool_decide_eq_true_2 in Hv by done.
      by injection Hv.
  - rewrite rangeAllows_true. split.
    + intros (v & Hin & Hv). exists v. split; [done|].
      rewrite Allows_ready, bool_decide_eq_false_2 by done. f_equal.
      apply rangeAllows_true. exists v. split; [left | done].
    + intros (v & Hin & Hv). rewrite Allows_ready, bool_decide_eq_false_2 in Hv by done.
      injection Hv as Hv. rewrite go_has_keyset in Hv.
      case_bool_decide; [eauto | done].
Qed.

Lemma Allows_of_list_witness :
  ∃ b, Allows ["db"; "auth"] (obj_with (NewUnsafeMapFilter false) false
                                (Some {["auth" := true]}))
       = Ok b (obj_with (NewUnsafeMapFilter false) false (Some {["auth" := true]})) ∧
       b = true.
Proof.
  destruct (Allows_of_list (obj_with (NewUnsafeMapFilter false) false
                              (Some {["auth" := true]})) ["db"; "auth"])
    as (b & Hb & Hiff); [reflexivity | discriminate |].
  exists b. split; [exact Hb|]. apply Hiff. exists "auth".
  split; [right; left | reflexivity].
Defined.

(** X11: [SetAllowEmptyFilter] changes the policy and nothing else: the
    map is the one there was, the answers on a non-empty active set are
    the same as before, and on an empty one every answer is the new
    policy; a later call overrides an earlier one. *)
Theorem SetAllowEmptyFilter_policy_only (o : FilterObj) (b : bool) :
  ready o = true →
  ∃ o1,
    SetAllowEmptyFilter b o = Ok tt o1 ∧
    obj_filters o1 = obj_filters o ∧
    obj_allowEmptyFilter o1 = b ∧
    (∀ vs, active o = ∅ → Allows vs o1 = Ok b o1) ∧
    (∀ vs, active o ≠ ∅ →
       ∃ a, Allows vs o = Ok a o ∧ Allows vs o1 = Ok a o1) ∧
    (∀ b', SetAllowEmptyFilter b' o1 = SetAllowEmptyFilter b' o).
Proof.
  intros Hr. eexists. split; [by apply SetAllowEmptyFilter_ready|].
  split; [apply filters_obj_with|]. split; [apply allow_obj_with|].
  assert (active (obj_with o b (obj_filters o)) = active o) as Hact
    by (unfold active; by rewrite filters_obj_with).
  repeat split.
  - intros vs He. rewrite Allows_ready by apply ready_obj_with.
    by rewrite Hact, bool_decide_eq_true_2, allow_obj_with.
  - intros vs Hne. eexists. split; [by apply Allows_ready|].
    rewrite Allows_ready by apply ready_obj_with.
    by rewrite Hact, !bool_decide_eq_false_2, filters_obj_with.
  - intros b'. rewrite !SetAllowEmptyFilter_ready by (done || apply ready_obj_with).
    by rewrite filters_obj_with, obj_with_twice.
Qed.

Lemma SetAllowEmptyFilter_policy_only_witness :
  ∃ o1, SetAllowEmptyFilter true (NewConcurrentMapFilter false) = Ok tt o1 ∧
        Allows ["x"] o1 = Ok true o1.
Proof.
  destruct (SetAllowEmptyFilter_policy_only (NewConcurrentMapFilter false) true
              eq_refl) as (o1 & HS & _ & _ & HA & _).
  exists o1. split; [exact HS|]. apply HA. by vm_compute.
Defined.

(** * More of [log.go] *)

(** ** The file name of the short mode *)

Lemma prefix_slash s :
  String.prefix "/" s = match s with
                        | String a _ => Ascii.eqb a "/"
                        | EmptyString => false
                        end.
Proof.
  destruct s as [|a s]; [done|].
  change (String.prefix "/" (String a s))
    with (if ascii_dec "/" a then String.prefix "" s else false).
  destruct (ascii_dec "/" a) as [<-|Hne].
  - rewrite Ascii.eqb_refl. by destruct s.
  - symmetry. apply Ascii.eqb_neq. congruence.
Qed.

Lemma strings_LastIndex_from_slash s i last :
  strings_LastIndex_from s "/" i last =
    match last_slash s with
    | Some j => Z.of_nat (i + j)
    | None => last
    end.
Proof.
  revert i last. induction s as [|a s IH]; intros i last.
  - done.
  - cbn [strings_LastIndex_from last_slash]. rewrite prefix_slash, IH.
    destruct (last_slash s) as [j|].
    + f_equal. lia.
    + destruct (Ascii.eqb a "/"); [f_equal; lia | done].
Qed.

Lemma substring_whole s : String.substring 0 (String.length s) s = s.
Proof. induction s as [|a s IH]; [done|]. cbn. by rewrite IH. Qed.

Lemma last_slash_None s : last_slash s = None → contains "/" s = false.
Proof.
  induction s as [|a s IH]; [done|]. cbn.
  destruct (last_slash s); [done|]. destruct (Ascii.eqb a "/"); [done|].
  intros _. by apply IH.
Qed.

Lemma slice_after_last_slash s j :
  last_slash s = Some j →
  ∃ d, s = (d ++ "/") ++ slice_from s (Z.of_nat j + 1) ∧
       contains "/" (slice_from s (Z.of_nat j + 1)) = false.
Proof.
  unfold slice_from. replace (Z.to_nat (Z.of_nat j + 1)) with (S j) by lia.
  revert j. induction s as [|a s IH]; intros j; [done|].
  cbn [last_slash]. destruct (last_slash s) as [j'|] eqn:Hl.
  - intros [= <-]. destruct (IH j' eq_refl) as (d & Hd & Hc).
    exists (String a d). cbn [String.length Nat.sub String.substring].
    split; [|done]. rewrite Hd at 1. reflexivity.
  - destruct (Ascii.eqb_spec a "/") as [->|]; [|done]. intros [= <-].
    exists "". cbn [String.length Nat.sub String.substring].
    rewrite Nat.sub_0_r, substring_whole. split; [done|].
    by apply last_slash_None.
Qed.

Lemma file_name_split file :
  ∃ dir name,
    file = dir ++ name ∧
    contains "/" name = false ∧
    (dir = "" ∨ ∃ d, dir = d ++ "/") ∧
    slice_from file (strings_LastIndex file "/" + 1) = name.
Proof.
  unfold strings_LastIndex. rewrite strings_LastIndex_from_slash.
  destruct (last_slash file) as [j|] eqn:Hl.
  - destruct (slice_after_last_slash file j Hl) as (d & Hd & Hc).
    exists (d ++ "/"), (slice_from file (Z.of_nat j + 1)).
    split; [done|]. split; [done|]. split; [eauto|done].
  - exists "", file. split; [done|]. split; [by apply last_slash_None|].
    split; [by left|]. unfold slice_from. cbn.
    by rewrite Nat.sub_0_r, substring_whole.
Qed.

(** X12: in the short mode the file of the source is the part of the
    caller's path after its last slash: the path is a directory part,
    empty or ending in a slash, followed by the name recorded, and the
    name recorded has no slash in it. *)
Theorem short_source_is_file_name (lr : logger) (method : Frame)
    (file : string) (line : nat) (above : list Frame) :
  fmt lr = "short" →
  ∃ dir name,
    file = dir ++ name ∧
    contains "/" name = false ∧
    (dir = "" ∨ ∃ d, dir = d ++ "/") ∧
    logrus.Data (Logger.withSource_entry lr (method :: (file, line) :: above))
      !! "source" = Some (VString (" " ++ name ++ ":" ++ pretty line ++ " ")).
Proof.
  intros Hs.
  assert (∀ name, name = slice_from file (strings_LastIndex file "/" + 1) →
    logrus.Data (Logger.withSource_entry lr (method :: (file, line) :: above))
      !! "source" = Some (VString (" " ++ name ++ ":" ++ pretty line ++ " ")))
    as Hsrc.
  { intros name ->. rewrite withSource_entry_short by done.
    unfold logrus.WithField, logrus.WithFields, short_source. cbn.
    apply lookup_union_Some_l, lookup_singleton_eq. }
  unfold strings_LastIndex in Hsrc. rewrite strings_LastIndex_from_slash in Hsrc.
  destruct (last_slash file) as [j|] eqn:Hl.
  - destruct (slice_after_last_slash file j Hl) as (d & Hd & Hc).
    exists (d ++ "/"), (slice_from file (Z.of_nat j + 1)).
    split; [done|]. split; [done|]. split; [eauto|]. by apply Hsrc.
  - exists "", file. split; [done|]. split; [by apply last_slash_None|].
    split; [by left|]. apply Hsrc. unfold slice_from. cbn.
    by rewrite Nat.sub_0_r, substring_whole.
Qed.

Lemma short_source_is_file_name_witness :
  ∃ dir name,
    "/home/dev/app/main.go" = dir ++ name ∧ contains "/" name = false ∧
    logrus.Data (Logger.withSource_entry
                   (mklogger origLogger (logrus.NewEntry origLogger) "short" 0)
                   ((log_go, 97) :: ("/home/dev/app/main.go", 12) :: []))
      !! "source" = Some (VString (" " ++ name ++ ":" ++ "12" ++ " ")).
Proof.
  destruct (short_source_is_file_name
              (mklogger origLogger (logrus.NewEntry origLogger) "short" 0)
              (log_go, 97) "/home/dev/app/main.go" 12 [] eq_refl)
    as (dir & name & Hf & Hc & _ & Hsrc).
  exists dir, name. split; [exact Hf|]. split; [exact Hc | exact Hsrc].
Defined.

(** X13: [withSource] reads the receiver and changes nothing.  The entry
    it returns writes to the receiver's sink and has the receiver's
    fields under every key but [source].  In the mode [none] it is the
    receiver's entry itself.  In every other mode it has a [source]
    field, over one the handle may have had: in the short mode the file
    name of the caller two levels up (its path after the last slash) and
    its line; in any other mode the caller's path as it is and its line;
    and the placeholder [<???>:1] where there is no frame two levels
    up. *)
Theorem withSource_adds_source_only (w : World) (l : loc) (lr : logger)
    (callers : list Frame) :
  loggers w !! l = Some lr →
  ∃ e,
    Logger.withSource l callers w = Ok e w ∧
    logrus.Entry_Logger e = logrus.Entry_Logger (entry lr) ∧
    (∀ k, k ≠ "source" → logrus.Data e !! k = logrus.Data (entry lr) !! k) ∧
    (fmt lr = "none" → e = entry lr) ∧
    (fmt lr ≠ "none" →
       (callers !! 1 = None →
          logrus.Data e !! "source" = Some (VString " <???>:1 ")) ∧
       (∀ file line, callers !! 1 = Some (file, line) → fmt lr ≠ "short" →
          logrus.Data e !! "source"
          = Some (VString (" " ++ file ++ ":" ++ pretty line ++ " "))) ∧
       (∀ file line, callers !! 1 = Some (file, line) → fmt lr = "short" →
          ∃ dir name,
            file = dir ++ name ∧
            contains "/" name = false ∧
            (dir = "" ∨ ∃ d, dir = d ++ "/") ∧
            logrus.Data e !! "source"
            = Some (VString (" " ++ name ++ ":" ++ pretty line ++ " ")))).
Proof.
  intros Hl. exists (Logger.withSource_entry lr callers).
  split; [by apply withSource_Some|].
  split; [apply withSource_entry_Logger|].
  split; [|split; [apply withSource_entry_none|]].
  - unfold Logger.withSource_entry, runtime_Caller.
    change (((log_go, 243) :: callers) !! 2) with (callers !! 1).
    intros k Hk. destruct (String.eqb (fmt lr) "none"); [done|].
    destruct (callers !! 1) as [[file line]|];
      [destruct (String.eqb (fmt lr) "short")|];
      cbn; by rewrite lookup_union_r by by apply lookup_singleton_ne.
  - unfold Logger.withSource_entry, runtime_Caller.
    change (((log_go, 243) :: callers) !! 2) with (callers !! 1).
    intros Hn%String.eqb_neq. rewrite Hn. split; [|split].
    + intros ->. cbn. apply lookup_union_Some_l, lookup_singleton_eq.
    + intros file line -> Hs%String.eqb_neq. rewrite Hs. cbn.
      apply lookup_union_Some_l, lookup_singleton_eq.
    + intros file line -> Hs%String.eqb_eq. rewrite Hs.
      destruct (file_name_split file) as (dir & name & Hf & Hc & Hd & ->).
      exists dir, name. split; [done|]. split; [done|]. split; [done|].
      cbn. apply lookup_union_Some_l, lookup_singleton_eq.
Qed.

Lemma withSource_adds_source_only_witness :
  ∃ e dir name,
    Logger.withSource defaultLogger
      [(log_go, 97); ("/home/dev/app/main.go", 12)] init = Ok e init ∧
    "/home/dev/app/main.go" = dir ++ name ∧
    contains "/" name = false ∧
    logrus.Data e !! "source"
      = Some (VString (" " ++ name ++ ":" ++ "12" ++ " ")).
Proof.
  destruct (withSource_adds_source_only init defaultLogger
              (mklogger origLogger (logrus.NewEntry origLogger) "short" 0)
              [(log_go, 97); ("/home/dev/app/main.go", 12)] eq_refl)
    as (e & He & _ & _ & _ & Hsrc).
  destruct Hsrc as (_ & _ & Hshort); [done|].
  destruct (Hshort _ _ eq_refl eq_refl) as (dir & name & Hf & Hc & _ & Hs).
  exists e, dir, name. split; [exact He|]. split; [exact Hf|].
  split; [exact Hc | exact Hs].
Defined.

(** ** Emission against the level of the sink *)

Lemma entry_emit_plain sev form e args :
  sev ≠ SFatal →
  entry_emit sev form e args = Entry.log e (level_of sev) (message_of form args).
Proof. intros Hf. rewrite entry_emit_log. by destruct sev. Qed.

(** X14: an emission below panic and fatal, through any live handle,
    returns.  If the level of the sink does not reach its severity the
    store is left exactly as it was; otherwise the sink gets one more
    line, after those it had, with the severity, the message, and the
    fields of the handle with the source.  The filter plays no part. *)
Theorem emission_against_level (w : World) (l : loc) (lr : logger)
    (lg : logrus.Logger) (sev : Severity) (form : Form) (args : list Value)
    (callers : list Frame) :
  loggers w !! l = Some lr →
  sinks w !! logrus.Entry_Logger (entry lr) = Some lg →
  sev ≠ SFatal → sev ≠ SPanic →
  ∃ w',
    emit sev form l args callers w = Ok tt w' ∧
    loggers w' = loggers w ∧ filterObjs w' = filterObjs w ∧
    (Nat.ltb (logrus.Level_uint (logrus.Level_ lg))
             (logrus.Level_uint (level_of sev)) = true → w' = w) ∧
    (Nat.leb (logrus.Level_uint (level_of sev))
             (logrus.Level_uint (logrus.Level_ lg)) = true →
       sinks w' =
         <[logrus.Entry_Logger (entry lr) :=
             logrus.mkLogger
               (logrus.Out lg ++
                  [logrus.mkLine (level_of sev)
                     (logrus.Data
                        (Logger.withSource_entry lr ((log_go, 0) :: callers)))
                     (message_of form args) (logrus.Formatter_ lg)])
               (logrus.Formatter_ lg) (logrus.Level_ lg)]> (sinks w)).
Proof.
  intros Hl Hs Hf Hp. rewrite (emit_Some _ _ _ lr) by done.
  rewrite entry_emit_plain by done.
  rewrite (log_Some _ _ _ _ lg) by by rewrite withSource_entry_Logger.
  unfold logrus.IsLevelEnabled.
  destruct (Nat.leb_spec (logrus.Level_uint (level_of sev))
              (logrus.Level_uint (logrus.Level_ lg))) as [Hle|Hgt].
  - eexists. split; [by destruct sev|]. split; [done|]. split; [done|]. split.
    + intros Hlt%Nat.ltb_lt. lia.
    + intros _. cbn [sinks]. by rewrite withSource_entry_Logger.
  - exists w. by repeat split.
Qed.

Lemma emission_against_level_witness :
  emit SDebug Plain defaultLogger [VString "quiet"] main_go_12 init = Ok tt init.
Proof.
  destruct (emission_against_level init defaultLogger
              (mklogger origLogger (logrus.NewEntry origLogger) "short" 0)
              logrus.New SDebug Plain [VString "quiet"] main_go_12)
    as (w' & He & _ & _ & Hbelow & _);
    [reflexivity | reflexivity | discriminate | discriminate |].
  rewrite He. f_equal. by apply Hbelow.
Defined.

(** ** The setters and getters of the default logger *)

Lemma SetLevel_Some ParseLevel w d lg level :
  loggers w !! defaultLogger = Some d →
  sinks w !! logrus.Entry_Logger (entry d) = Some lg →
  logsift.SetLevel ParseLevel level w =
    Ok tt (mkWorld
             (<[logrus.Entry_Logger (entry d) :=
                  logrus.mkLogger (logrus.Out lg) (logrus.Formatter_ lg)
                    (default logrus.InfoLevel (ParseLevel level))]> (sinks w))
             (filterObjs w) (loggers w) (ErrorCounter w)).
Proof.
  intros Hd Hs. unfold logsift.SetLevel.
  rewrite (bind_Ok _ _ _ _ _ (deref_Some _ _ _ Hd)).
  rewrite (bind_Ok _ _ _ _ _ (get_sink_Some _ _ _ Hs)).
  destruct (ParseLevel level); unfold set_sink; by rewrite Hs.
Qed.

(** X15: [SetLevel] then [GetLevel] gives the name of the level parsed,
    and [info] for a name that does not parse, whatever the level was
    before; [IsDebugEnabled] is then true for the debug level exactly, not
    for trace.  ([logrus.ParseLevel] is a parameter, and the default
    logger's two pointers to its sink are taken to be the same, as the
    package sets them.) *)
Theorem SetLevel_reads_back (ParseLevel : string → option logrus.Level)
    (w : World) (c : Config) (d : logger) (level : string) :
  config w = Some c →
  loggers w !! defaultLogger = Some d →
  logger_Logger d = logrus.Entry_Logger (entry d) →
  ∃ w1,
    logsift.SetLevel ParseLevel level w = Ok tt w1 ∧
    logsift.GetLevel w1
      = Ok (logrus.Level_String (default logrus.InfoLevel (ParseLevel level))) w1 ∧
    (ParseLevel level = None → logsift.GetLevel w1 = Ok "info" w1) ∧
    logsift.IsDebugEnabled w1
      = Ok (match ParseLevel level with
            | Some logrus.DebugLevel => true
            | _ => false
            end) w1.
Proof.
  intros Hc Hd HL.
  destruct (config_inv _ _ Hc) as (d' & lg & o & Hd' & Hs & Ho & Hr & _).
  rewrite Hd in Hd'. injection Hd' as <-.
  eexists. split; [by apply SetLevel_Some|].
  set (w1 := mkWorld _ _ _ _).
  assert (sinks w1 !! logrus.Entry_Logger (entry d)
          = Some (logrus.mkLogger (logrus.Out lg) (logrus.Formatter_ lg)
                    (default logrus.InfoLevel (ParseLevel level)))) as Hs1.
  { cbn. apply list_lookup_insert_eq. by eapply lookup_lt_Some. }
  assert (loggers w1 !! defaultLogger = Some d) as Hd1 by done.
  assert (logsift.GetLevel w1
          = Ok (logrus.Level_String
                  (default logrus.InfoLevel (ParseLevel level))) w1) as HG.
  { unfold logsift.GetLevel.
    rewrite (bind_Ok _ _ _ _ _ (deref_Some _ _ _ Hd1)).
    by rewrite (bind_Ok _ _ _ _ _ (get_sink_Some _ _ _ Hs1)). }
  split; [done|]. split; [intros Hn; by rewrite HG, Hn|].
  unfold logsift.IsDebugEnabled.
  rewrite (bind_Ok _ _ _ _ _ (deref_Some _ _ _ Hd1)).
  rewrite HL, (bind_Ok _ _ _ _ _ (get_sink_Some _ _ _ Hs1)).
  unfold ret. do 2 f_equal. cbn. by destruct (ParseLevel level) as [[]|].
Qed.

Lemma SetLevel_reads_back_witness :
  ∃ w1, logsift.SetLevel ParseLevel_lower "trace" init = Ok tt w1 ∧
        logsift.GetLevel w1 = Ok "trace" w1 ∧
        logsift.IsDebugEnabled w1 = Ok false w1.
Proof.
  destruct (SetLevel_reads_back ParseLevel_lower init config_init
              (mklogger origLogger (logrus.NewEntry origLogger) "short" 0)
              "trace" eq_refl eq_refl eq_refl)
    as (w1 & HS & HG & _ & HD).
  exists w1. split; [exact HS|]. split; [exact HG | exact HD].
Defined.




(** ** More of the handler *)

(** X17: a request that has none of the six parameters, or of them only
    a [resetFilter] that parses to false, leaves the store exactly as it
    was: nothing is set and no warning is written.  Parameters of other
    names are not looked at. *)
Theorem Handler_without_directives
    (ParseLevel : string → option logrus.Level) (r : logsift.Request)
    (callers : list Frame) (w : World) :
  (∀ k, k ∈ ["level"; "format"; "sourceFormat"; "filter"; "allowEmptyFilter"] →
        logsift.FormValue r k = "") →
  (logsift.FormValue r "resetFilter" = "" ∨
   strconv_ParseBool (logsift.FormValue r "resetFilter") = Some false) →
  logsift.Handler ParseLevel r callers w = Ok tt w.
Proof.
  intros Hk Hreset.
  unfold logsift.Handler, logsift.Handler_level, logsift.Handler_format,
    logsift.Handler_sourceFormat, logsift.Handler_filter,
    logsift.Handler_allowEmptyFilter, logsift.Handler_resetFilter.
  cbn zeta. rewrite !Hk by set_solver. cbn.
  destruct (String.eqb (logsift.FormValue r "resetFilter") "") eqn:He; [done|].
  destruct Hreset as [Hr | ->]; [|done].
  rewrite Hr in He. done.
Qed.

Lemma Handler_without_directives_witness :
  logsift.Handler ParseLevel_lower
    (<["resetFilter" := ["false"]]> {["verbose" := ["1"]]}) [] init
  = Ok tt init.
Proof.
  apply Handler_without_directives.
  - intros k Hk. repeat (apply elem_of_cons in Hk as [->|Hk]; [reflexivity|]).
    by apply elem_of_nil in Hk.
  - right. reflexivity.
Defined.

Lemma directives_active ParseLevel r c :
  cfg_active (directives_before_allowEmptyFilter ParseLevel r c) =
    if String.eqb (logsift.FormValue r "filter") "" then cfg_active c
    else topics (strings_Split (logsift.FormValue r "filter") ","%char).
Proof.
  unfold directives_before_allowEmptyFilter, directive_filter,
    directive_sourceFormat, directive_format, directive_level.
  destruct (String.eqb (logsift.FormValue r "filter") "");
    destruct (String.eqb (logsift.FormValue r "sourceFormat") "");
    destruct (String.eqb (logsift.FormValue r "format") "");
    destruct (String.eqb (logsift.FormValue r "level") "");
    config_fields; reflexivity.
Qed.

Lemma directives_policy ParseLevel r c :
  cfg_policy (directives_before_allowEmptyFilter ParseLevel r c) = cfg_policy c.
Proof.
  unfold directives_before_allowEmptyFilter, directive_filter,
    directive_sourceFormat, directive_format, directive_level.
  destruct (String.eqb (logsift.FormValue r "filter") "");
    destruct (String.eqb (logsift.FormValue r "sourceFormat") "");
    destruct (String.eqb (logsift.FormValue r "format") "");
    destruct (String.eqb (logsift.FormValue r "level") "");
    config_fields; reflexivity.
Qed.

(** X18: the [filter] parameter replaces the active set, it does not add
    to it.  With no [allowEmptyFilter] and no [resetFilter] in the
    request, a topic is allowed afterwards exactly when it is a non-empty
    segment between the commas of the value, whatever was active before;
    when the value has commas only, no topic is active and the policy
    answers. *)
Theorem Handler_filter_replaces (ParseLevel : string → option logrus.Level)
    (r : logsift.Request) (callers : list Frame) (w : World) (c : Config)
    (v : string) (ts : list string) :
  config w = Some c →
  logsift.FormValue r "filter" = v → v ≠ "" →
  logsift.FormValue r "allowEmptyFilter" = "" →
  logsift.FormValue r "resetFilter" = "" →
  ∃ w',
    logsift.Handler ParseLevel r callers w = Ok tt w' ∧
    Logger.FiltersAllow defaultLogger ts w' =
      Ok (if bool_decide (topics (strings_Split v ","%char) = ∅)
          then cfg_policy c
          else bool_decide
                 (Exists (λ t, t ∈ strings_Split v ","%char ∧ t ≠ "") ts)) w'.
Proof.
  intros Hc Hv Hne Ha Hr.
  destruct (Handler_config ParseLevel r callers w c Hc) as (w' & HH & Hc').
  exists w'. split; [done|].
  rewrite (FiltersAllow_config _ _ ts Hc').
  unfold directives. cbn zeta. rewrite Ha, Hr. cbn.
  rewrite directives_active, directives_policy, Hv.
  apply String.eqb_neq in Hne. rewrite Hne. f_equal.
  case_bool_decide; [done|]. apply bool_decide_ext.
  rewrite !Exists_exists. by setoid_rewrite elem_of_topics.
Qed.

Lemma Handler_filter_replaces_witness :
  ∃ w', logsift.Handler ParseLevel_lower {["filter" := ["auth,db"]]} []
          (state_after (logsift.AddFilter "cache" init) init) = Ok tt w' ∧
        Logger.FiltersAllow defaultLogger ["cache"] w' = Ok false w'.
Proof.
  destruct (Handler_filter_replaces ParseLevel_lower {["filter" := ["auth,db"]]}
              [] (state_after (logsift.AddFilter "cache" init) init)
              (with_active {["cache"]} config_init) "auth,db" ["cache"])
    as (w' & HH & HA); [reflexivity | reflexivity | discriminate
                        | reflexivity | reflexivity |].
  exists w'. split; [exact HH|]. rewrite HA. f_equal.
Defined.

(** X19: [resetFilter], when [allowEmptyFilter] is absent or a boolean.
    A value that parses to true leaves no topic active, also when the
    same request carries a [filter]: the reset comes after it.  A value
    that parses to false, or no value, leaves the active set as [filter]
    set it or as it was.  A value that does not parse does the same and
    the handler still returns; the [allowEmptyFilter] of the request is
    applied in all three cases. *)
Theorem Handler_resetFilter_cases (ParseLevel : string → option logrus.Level)
    (r : logsift.Request) (callers : list Frame) (w : World) (c : Config) :
  config w = Some c →
  (logsift.FormValue r "allowEmptyFilter" = "" ∨
   is_Some (strconv_ParseBool (logsift.FormValue r "allowEmptyFilter"))) →
  ∃ w' c',
    logsift.Handler ParseLevel r callers w = Ok tt w' ∧
    config w' = Some c' ∧
    cfg_policy c' =
      (if String.eqb (logsift.FormValue r "allowEmptyFilter") "" then cfg_policy c
       else default (cfg_policy c)
              (strconv_ParseBool (logsift.FormValue r "allowEmptyFilter"))) ∧
    cfg_active c' =
      (if negb (String.eqb (logsift.FormValue r "resetFilter") "") &&
          bool_decide (strconv_ParseBool (logsift.FormValue r "resetFilter")
                       = Some true)
       then ∅
       else if String.eqb (logsift.FormValue r "filter") "" then cfg_active c
       else topics (strings_Split (logsift.FormValue r "filter") ","%char)).
Proof.
  intros Hc Hallow.
  destruct (Handler_config ParseLevel r callers w c Hc) as (w' & HH & Hc').
  exists w', (directives ParseLevel r c). split; [done|]. split; [done|].
  unfold directives, directive_resetFilter, directive_allowEmptyFilter.
  cbn zeta.
  pose proof (directives_active ParseLevel r c) as Hact.
  pose proof (directives_policy ParseLevel r c) as Hpol.
  destruct (String.eqb (logsift.FormValue r "allowEmptyFilter") "") eqn:Ha.
  - destruct (String.eqb (logsift.FormValue r "resetFilter") ""); cbn [negb andb];
      [by rewrite Hact, Hpol|].
    destruct (strconv_ParseBool (logsift.FormValue r "resetFilter")) as [[]|];
      cbn; config_fields; by rewrite ?Hact, ?Hpol.
  - destruct Hallow as [He | [allow Hp]];
      [apply String.eqb_eq in He; congruence|].
    rewrite Hp. cbn [default from_option].
    destruct (String.eqb (logsift.FormValue r "resetFilter") ""); cbn [negb andb];
      [config_fields; by rewrite Hact|].
    destruct (strconv_ParseBool (logsift.FormValue r "resetFilter")) as [[]|];
      cbn; config_fields; by rewrite ?Hact.
Qed.

Lemma Handler_resetFilter_cases_witness :
  ∃ w' c',
    logsift.Handler ParseLevel_lower
      (<["filter" := ["auth"]]> (<["resetFilter" := ["true"]]>
         {["allowEmptyFilter" := ["1"]]})) [] init = Ok tt w' ∧
    config w' = Some c' ∧ cfg_policy c' = true ∧ cfg_active c' = ∅.
Proof.
  destruct (Handler_resetFilter_cases ParseLevel_lower
              (<["filter" := ["auth"]]> (<["resetFilter" := ["true"]]>
                 {["allowEmptyFilter" := ["1"]]})) [] init config_init eq_refl)
    as (w' & c' & HH & Hc' & Hp & Ha).
  - right. by exists true.
  - exists w', c'. split; [exact HH|]. split; [exact Hc'|].
    split; [exact Hp | exact Ha].
Defined.

(** ** A nil map through the package *)

Lemma onFilter_Ok {A} w ref o (m : M FilterObj A) a o' :
  filterObjs w !! ref = Some o → m o = Ok a o' →
  onFilter ref m w = Ok a (mkWorld (sinks w) (<[ref := o']> (filterObjs w))
                             (loggers w) (ErrorCounter w)).
Proof. intros Ho Hm. unfold onFilter. by rewrite Ho, Hm. Qed.

Lemma onFilter_Ok_same {A} w ref o (m : M FilterObj A) a :
  filterObjs w !! ref = Some o → m o = Ok a o → onFilter ref m w = Ok a w.
Proof.
  intros Ho Hm. unfold onFilter. rewrite Ho, Hm.
  by rewrite list_insert_id, world_eta.
Qed.

Lemma onFilter_Panic_same {A} w ref o (m : M FilterObj A) :
  filterObjs w !! ref = Some o → m o = Panic o → onFilter ref m w = Panic w.
Proof.
  intros Ho Hm. unfold onFilter. rewrite Ho, Hm.
  by rewrite list_insert_id, world_eta.
Qed.

(** X20: [UpdateFilter] with a nil map returns and leaves the filter of
    the default logger on a nil map.  The filter-gated calls then go by
    the policy, removing a topic and adding the empty topic return and
    change nothing, and adding any other topic panics, leaving the store
    as it was; [UpdateFilter] with a map that is not nil mends it. *)
Theorem UpdateFilter_nil_map (w : World) (c : Config) (ts : list string)
    (t : string) (m : gmap string bool) :
  config w = Some c →
  t ≠ "" →
  ∃ w1 w2,
    logsift.UpdateFilter None w = Ok tt w1 ∧
    Logger.FiltersAllow defaultLogger ts w1 = Ok (cfg_policy c) w1 ∧
    logsift.RemoveFilter t w1 = Ok tt w1 ∧
    logsift.AddFilter "" w1 = Ok tt w1 ∧
    logsift.AddFilter t w1 = Panic w1 ∧
    logsift.UpdateFilter (Some m) w1 = Ok tt w2 ∧
    (∃ w3, logsift.AddFilter t w2 = Ok tt w3 ∧
           Logger.FiltersAllow defaultLogger [t] w3 = Ok true w3).
Proof.
  intros Hc Ht.
  destruct (config_inv _ _ Hc) as (d & lg & o & Hd & Hs & Ho & Hr & ->).
  set (o1 := obj_with o (obj_allowEmptyFilter o) None).
  set (w1 := mkWorld (sinks w) (<[logFilter d := o1]> (filterObjs w))
               (loggers w) (ErrorCounter w)).
  assert (filterObjs w1 !! logFilter d = Some o1) as Ho1.
  { cbn. apply list_lookup_insert_eq. by eapply lookup_lt_Some. }
  assert (ready o1 = true) as Hr1 by apply ready_obj_with.
  assert (∀ x, mkWorld (sinks w1) (<[logFilter d := x]> (filterObjs w1))
                 (loggers w1) (ErrorCounter w1)
               = mkWorld (sinks w) (<[logFilter d := x]> (filterObjs w))
                   (loggers w) (ErrorCounter w)) as Hput.
  { intros x. cbn. by rewrite list_insert_insert_eq. }
  assert (logsift.UpdateFilter None w = Ok tt w1) as HU.
  { unfold logsift.UpdateFilter, Logger.UpdateFilter.
    rewrite (bind_Ok _ _ _ _ _ (deref_Some _ _ _ Hd)).
    unfold onFilter. by rewrite Ho, SetMap_ready. }
  assert (loggers w1 !! defaultLogger = Some d) as Hd1 by done.
  set (o2 := obj_with o (obj_allowEmptyFilter o) (Some (delete "" m))).
  exists w1, (mkWorld (sinks w) (<[logFilter d := o2]> (filterObjs w))
                (loggers w) (ErrorCounter w)).
  assert (obj_filters o1 = None) as Hf1 by apply filters_obj_with.
  split; [done|]. split.
  { rewrite (FiltersAllow_Some _ _ d o1) by done. unfold answer, active.
    rewrite Hf1. unfold o1. rewrite allow_obj_with. by cbn. }
  split.
  { unfold logsift.RemoveFilter, Logger.RemoveFilter.
    rewrite (bind_Ok _ _ _ _ _ (deref_Some _ _ _ Hd1)).
    apply (onFilter_Ok_same _ _ o1); [done|].
    rewrite Remove_ready, Hf1, rangeRemove_nil_map by done.
    f_equal. by apply obj_with_same. }
  split.
  { unfold logsift.AddFilter, Logger.AddFilter.
    rewrite (bind_Ok _ _ _ _ _ (deref_Some _ _ _ Hd1)).
    apply (onFilter_Ok_same _ _ o1); [done|].
    rewrite Add_ready, Hf1 by done. cbn [rangeAdd String.eqb].
    f_equal. by apply obj_with_same. }
  split.
  { unfold logsift.AddFilter, Logger.AddFilter.
    rewrite (bind_Ok _ _ _ _ _ (deref_Some _ _ _ Hd1)).
    apply (onFilter_Panic_same _ _ o1); [done|].
    rewrite Add_ready, Hf1, rangeAdd_nil_map by done.
    rewrite bool_decide_eq_false_2; [done|].
    rewrite topics_cons, topics_nil. apply String.eqb_neq in Ht. rewrite Ht.
    set_solver. }
  split.
  { unfold logsift.UpdateFilter, Logger.UpdateFilter.
    rewrite (bind_Ok _ _ _ _ _ (deref_Some _ _ _ Hd1)).
    unfold onFilter. rewrite Ho1, SetMap_ready by done.
    rewrite Hput. unfold o1, o2.
    by rewrite allow_obj_with, obj_with_twice, rangeStrip_delete. }
  set (w2 := mkWorld _ (<[logFilter d := o2]> _) _ _).
  assert (filterObjs w2 !! logFilter d = Some o2) as Ho2.
  { cbn. apply list_lookup_insert_eq. by eapply lookup_lt_Some. }
  assert (loggers w2 !! defaultLogger = Some d) as Hd2 by done.
  destruct (rangeAdd_lookup [t] (delete "" m)) as (g' & Hg' & Hl).
  set (o3 := obj_with o2 (obj_allowEmptyFilter o2) (Some g')).
  exists (mkWorld (sinks w2) (<[logFilter d := o3]> (filterObjs w2))
            (loggers w2) (ErrorCounter w2)).
  split.
  { unfold logsift.AddFilter, Logger.AddFilter.
    rewrite (bind_Ok _ _ _ _ _ (deref_Some _ _ _ Hd2)).
    apply (onFilter_Ok _ _ o2); [done|].
    rewrite Add_ready by apply ready_obj_with.
    unfold o2 at 1. by rewrite filters_obj_with, Hg'. }
  rewrite (FiltersAllow_Some _ _ d o3); cbn [loggers filterObjs]; try done.
  - f_equal. unfold answer, active, o3. rewrite filters_obj_with.
    assert (t ∈ keyset (Some g')) as Hin.
    { apply elem_of_dom. rewrite Hl. rewrite bool_decide_eq_true_2; [done|].
      apply elem_of_topics. split; [left | done]. }
    rewrite bool_decide_eq_false_2 by set_solver.
    apply rangeAllows_true. exists t. split; [left | done].
  - apply list_lookup_insert_eq. by eapply lookup_lt_Some.
  - apply ready_obj_with.
Qed.

Lemma UpdateFilter_nil_map_witness :
  ∃ w1, logsift.UpdateFilter None init = Ok tt w1 ∧
        logsift.AddFilter "auth" w1 = Panic w1.
Proof.
  destruct (UpdateFilter_nil_map init config_init [] "auth" ∅ eq_refl)
    as (w1 & w2 & HU & _ & _ & _ & HP & _); [discriminate|].
  exists w1. split; [exact HU | exact HP].
Defined.

(** ** Chains of derived handles *)

(** X21: fields accumulate along a chain.  A handle made by [With] from a
    handle made by [With] has the fields of the first receiver with the
    first pair and then the second over them, so the second wins on one
    key; it has the first receiver's mode and filter, its entry writes to
    the sink of the first receiver's entry and its own sink pointer is
    the package's; the first receiver is still the struct it was; and
    [WithFields] with the two pairs at once gives a handle with the same
    entry. *)
Theorem With_chain (w : World) (l : loc) (lr : logger) (k1 k2 : string)
    (v1 v2 : Value) :
  loggers w !! l = Some lr →
  ∃ l1 l2 l3 w1 w2 w3 lr2 lr3,
    Logger.With l k1 v1 w = Ok l1 w1 ∧
    Logger.With l1 k2 v2 w1 = Ok l2 w2 ∧
    Logger.WithFields l (<[k2 := v2]> {[k1 := v1]}) w = Ok l3 w3 ∧
    l ≠ l1 ∧ l ≠ l2 ∧ l1 ≠ l2 ∧
    loggers w2 !! l = Some lr ∧
    loggers w2 !! l2 = Some lr2 ∧
    loggers w3 !! l3 = Some lr3 ∧
    logrus.Data (entry lr2)
      = <[k2 := v2]> (<[k1 := v1]> (logrus.Data (entry lr))) ∧
    fmt lr2 = fmt lr ∧ logFilter lr2 = logFilter lr ∧
    logrus.Entry_Logger (entry lr2) = logrus.Entry_Logger (entry lr) ∧
    logger_Logger lr2 = origLogger ∧
    entry lr3 = entry lr2.
Proof.
  intros Hl. pose proof (lookup_lt_Some _ _ _ Hl) as Hlt.
  set (lr1 := mklogger origLogger (logrus.WithField (entry lr) k1 v1)
                (fmt lr) (logFilter lr)).
  set (w1 := mkWorld (sinks w) (filterObjs w) (loggers w ++ [lr1])
               (ErrorCounter w)).
  assert (loggers w1 !! length (loggers w) = Some lr1) as Hl1.
  { cbn. rewrite lookup_app_r by done. by rewrite Nat.sub_diag. }
  do 8 eexists.
  split; [by apply With_Some|].
  split; [by apply (With_Some w1 _ lr1)|].
  split; [by apply WithFields_Some|].
  cbn [loggers w1]. rewrite !length_app. cbn [length].
  split; [lia|]. split; [lia|]. split; [lia|].
  split; [by rewrite <- app_assoc; apply lookup_app_l_Some|].
  split.
  { rewrite lookup_app_r by (rewrite length_app; cbn; lia).
    rewrite length_app. cbn [length].
    by replace (length (loggers w) + 1 - (length (loggers w) + 1)) with 0 by lia. }
  split.
  { rewrite lookup_app_r by done. by rewrite Nat.sub_diag. }
  cbn. split; [by rewrite !insert_union_singleton_l|].
  split; [done|]. split; [done|]. split; [done|]. split; [done|].
  unfold logrus.WithField, logrus.WithFields. cbn. f_equal.
  by rewrite insert_union_singleton_l, (assoc_L (∪)).
Qed.

Lemma With_chain_witness :
  ∃ l1 l2 w1 w2 lr2,
    Logger.With defaultLogger "a" (VInt 1) init = Ok l1 w1 ∧
    Logger.With l1 "b" (VInt 2) w1 = Ok l2 w2 ∧
    loggers w2 !! l2 = Some lr2 ∧
    logrus.Data (entry lr2) = <["b" := VInt 2]> (<["a" := VInt 1]> ∅).
Proof.
  destruct (With_chain init defaultLogger
              (mklogger origLogger (logrus.NewEntry origLogger) "short" 0)
              "a" "b" (VInt 1) (VInt 2) eq_refl)
    as (l1 & l2 & l3 & w1 & w2 & w3 & lr2 & lr3 & H1 & H2 & _ & _ & _ & _ & _
        & Hl2 & _ & HD & _).
  exists l1, l2, w1, w2, lr2.
  split; [exact H1|]. split; [exact H2|]. split; [exact Hl2 | exact HD].
Defined.

(** ** [ParseFilters] *)

Lemma strings_Split_nonempty s sep : strings_Split s sep ≠ [].
Proof.
  destruct s as [|a s]; cbn; [done|].
  destruct (Ascii.eqb a sep); [done|]. by destruct (strings_Split s sep).
Qed.

Lemma strings_Split_app s s' sep :
  strings_Split (s ++ String sep s') sep
  = (strings_Split s sep ++ strings_Split s' sep)%list.
Proof.
  induction s as [|a s IH].
  - change ("" ++ String sep s') with (String sep s').
    cbn [strings_Split]. by rewrite Ascii.eqb_refl.
  - change (String a s ++ String sep s') with (String a (s ++ String sep s')).
    cbn [strings_Split]. rewrite IH.
    destruct (Ascii.eqb a sep); [done|].
    pose proof (strings_Split_nonempty s sep).
    by destruct (strings_Split s sep).
Qed.

Lemma strings_Split_no_sep s sep :
  contains sep s = false → strings_Split s sep = [s].
Proof.
  induction s as [|a s IH]; [done|]. cbn.
  destruct (Ascii.eqb a sep); [done|]. cbn. intros Hc. by rewrite IH.
Qed.

Lemma strings_Split_segments s sep p :
  p ∈ strings_Split s sep → contains sep p = false.
Proof.
  revert p. induction s as [|a s IH]; intros p; cbn.
  - by intros ->%list_elem_of_singleton.
  - destruct (Ascii.eqb a sep) eqn:Ha.
    + intros [->|Hp]%elem_of_cons; [done | by apply IH].
    + pose proof (strings_Split_nonempty s sep).
      destruct (strings_Split s sep) as [|q qs]; [done|].
      intros [->|Hp]%elem_of_cons.
      * cbn. rewrite Ha. apply IH. left.
      * apply IH. by right.
Qed.

Lemma ParseFilters_range_lookup parts res k :
  logsift.ParseFilters_range parts res !! k =
    if bool_decide (k ∈ topics parts) then Some true else res !! k.
Proof.
  revert res. induction parts as [|p parts IH]; intros res;
    cbn [logsift.ParseFilters_range].
  - rewrite topics_nil. by rewrite bool_decide_eq_false_2 by set_solver.
  - rewrite topics_cons. destruct (String.eqb_spec p "") as [->|Hp]; [apply IH|].
    rewrite IH. destruct (decide (k ∈ topics parts)) as [Hin|Hout].
    + by rewrite !bool_decide_eq_true_2 by set_solver.
    + rewrite (bool_decide_eq_false_2 (k ∈ topics parts)) by done.
      destruct (decide (k = p)) as [->|Hne].
      * rewrite lookup_insert_eq. by rewrite bool_decide_eq_true_2 by set_solver.
      * rewrite lookup_insert_ne by done.
        by rewrite bool_decide_eq_false_2 by set_solver.
Qed.

Lemma topics_app (fs1 fs2 : list string) :
  topics (fs1 ++ fs2)%list = topics fs1 ∪ topics fs2.
Proof. unfold topics. by rewrite filter_app, list_to_set_app_L. Qed.

(** X22: [ParseFilters] never gives a nil map.  Its keys are the
    non-empty segments between the commas of its argument, each mapped to
    true and none with a comma in it; a string without a comma gives the
    map of that one key, the empty string the empty map; and two strings
    joined by a comma give the keys of both. *)
Theorem ParseFilters_keys (s s' : string) :
  ∃ g g' g'',
    logsift.ParseFilters s = Some g ∧
    logsift.ParseFilters s' = Some g' ∧
    logsift.ParseFilters (s ++ "," ++ s') = Some g'' ∧
    (∀ k, is_Some (g !! k) ↔ k ∈ strings_Split s ","%char ∧ k ≠ "") ∧
    (∀ k v, g !! k = Some v → v = true ∧ contains ","%char k = false) ∧
    (contains ","%char s = false →
       g = if String.eqb s "" then ∅ else {[s := true]}) ∧
    dom g'' = dom g ∪ dom g'.
Proof.
  unfold logsift.ParseFilters. do 3 eexists.
  split; [done|]. split; [done|]. split; [done|].
  assert (∀ x k, is_Some (logsift.ParseFilters_range (strings_Split x ",") ∅ !! k)
                 ↔ k ∈ strings_Split x ","%char ∧ k ≠ "") as Hkeys.
  { intros x k. rewrite ParseFilters_range_lookup, lookup_empty.
    rewrite <- elem_of_topics. case_bool_decide; split; done. }
  split; [apply Hkeys|]. split; [|split].
  - intros k v Hk. assert (is_Some (logsift.ParseFilters_range
                                      (strings_Split s ",") ∅ !! k)) as Hs by eauto.
    apply Hkeys in Hs as [Hin _]. split; [|by eapply strings_Split_segments].
    rewrite ParseFilters_range_lookup, lookup_empty in Hk.
    case_bool_decide; by simplify_eq.
  - intros Hc. rewrite strings_Split_no_sep by done. cbn.
    by destruct (String.eqb s "").
  - change (s ++ "," ++ s') with (s ++ String "," s').
    rewrite strings_Split_app, !ParseFilters_range_dom, topics_app. set_solver.
Qed.

(** ** What every program over the package keeps *)

Lemma coherent_init : coherent init.
Proof.
  split; [done|]. split; [done|]. split; [by eexists|]. split; [by eexists|].
  intros [|l] lr Hl; [|done]. injection Hl as <-. by repeat split; [..|left].
Qed.

Lemma safe_ret {A} (a : A) : safe (ret a).
Proof. intros w Hw. exact Hw. Qed.

Lemma safe_bind {A B} (m : M World A) (k : A → M World B) :
  safe m → (∀ a, safe (k a)) → safe (bind m k).
Proof.
  intros Hm Hk w Hw. unfold bind. specialize (Hm w Hw).
  destruct (m w) as [a w'|w'|w'|]; try done. by apply Hk.
Qed.

Lemma safe_deref l : safe (deref l).
Proof.
  intros w Hw. unfold deref. destruct (loggers w !! l); [done|apply Hw].
Qed.

Lemma safe_get_sink s : safe (get_sink s).
Proof.
  intros w Hw. unfold get_sink. destruct (sinks w !! s); [done|apply Hw].
Qed.

Lemma safe_set_sink s lg : safe (set_sink s lg).
Proof.
  intros w (Hc & Hs & Hf & Hd & Hl). unfold set_sink.
  destruct (sinks w !! s); [|done].
  split; [exact Hc|].
  split; [cbn; by rewrite length_insert|]. split; [exact Hf|]. by split.
Qed.

Lemma ready_zero f :
  concurrentMapFilter.mu f = RWMutex.zero → ready (Concurrent f) = true.
Proof. intros H. cbn. by rewrite H. Qed.

Lemma fsafe_Add fs : fsafe (Add fs).
Proof.
  intros f Hf. rewrite (Add_ready _ _ (ready_zero _ Hf)).
  destruct (rangeAdd fs _); [|done]. by eexists.
Qed.

Lemma fsafe_Remove fs : fsafe (Remove fs).
Proof.
  intros f Hf. rewrite (Remove_ready _ _ (ready_zero _ Hf)). by eexists.
Qed.

Lemma fsafe_SetMap m : fsafe (SetMap m).
Proof.
  intros f Hf. rewrite (SetMap_ready _ _ (ready_zero _ Hf)). by eexists.
Qed.

Lemma fsafe_SetAllowEmptyFilter b : fsafe (SetAllowEmptyFilter b).
Proof.
  intros f Hf. rewrite (SetAllowEmptyFilter_ready _ _ (ready_zero _ Hf)).
  by eexists.
Qed.

Lemma fsafe_Allows vs : fsafe (Allows vs).
Proof.
  intros f Hf. rewrite (Allows_ready _ _ (ready_zero _ Hf)). by eexists.
Qed.

Lemma safe_onFilter {A} ref (m : M FilterObj A) : fsafe m → safe (onFilter ref m).
Proof.
  intros Hm w (Hc & Hs & (f & Hf & Hmu) & Hd & Hl). unfold onFilter. rewrite Hf.
  destruct ref as [|ref]; [|done]. cbn. specialize (Hm f Hmu).
  destruct (m (Concurrent f)) as [a o'| | |]; try done.
  destruct Hm as (f' & -> & Hmu').
  split; [done|]. split; [done|]. split; [by exists f'|]. by split.
Qed.

Lemma safe_log e level msg : safe (Entry.log e level msg).
Proof.
  unfold Entry.log. apply safe_bind; [apply safe_get_sink|]. intros lg.
  destruct (logrus.IsLevelEnabled lg level); [|apply safe_ret].
  apply safe_bind; [apply safe_set_sink|]. intros _.
  destruct level; try apply safe_ret. intros w Hw. apply Hw.
Qed.

Lemma safe_entry_emit sev form e args : safe (entry_emit sev form e args).
Proof.
  destruct sev, form; try apply safe_log;
    (apply safe_bind; [apply safe_log|]; intros _ w Hw; apply Hw).
Qed.

Lemma safe_withSource l callers : safe (Logger.withSource l callers).
Proof.
  apply safe_bind; [apply safe_deref|]. intros lr. apply safe_ret.
Qed.

Lemma safe_emit sev form l args callers : safe (emit sev form l args callers).
Proof.
  destruct sev, form;
    (apply safe_bind; [apply safe_withSource|]; intros e);
    first [ apply (safe_entry_emit SDebug Plain)
          | apply (safe_entry_emit SDebug Ln)
          | apply (safe_entry_emit SDebug (Formatted format))
          | apply (safe_entry_emit SInfo Plain)
          | apply (safe_entry_emit SInfo Ln)
          | apply (safe_entry_emit SInfo (Formatted format))
          | apply (safe_entry_emit SWarn Plain)
          | apply (safe_entry_emit SWarn Ln)
          | apply (safe_entry_emit SWarn (Formatted format))
          | apply (safe_entry_emit SError Plain)
          | apply (safe_entry_emit SError Ln)
          | apply (safe_entry_emit SError (Formatted format))
          | apply (safe_entry_emit SFatal Plain)
          | apply (safe_entry_emit SFatal Ln)
          | apply (safe_entry_emit SFatal (Formatted format))
          | apply (safe_entry_emit SPanic Plain)
          | apply (safe_entry_emit SPanic Ln)
          | apply (safe_entry_emit SPanic (Formatted format)) ].
Qed.

Lemma safe_FiltersAllow l filters : safe (Logger.FiltersAllow l filters).
Proof.
  apply safe_bind; [apply safe_deref|]. intros lr.
  apply safe_onFilter, fsafe_Allows.
Qed.

Ltac safe_gated :=
  apply safe_bind; [apply safe_FiltersAllow|]; intros [];
  [ apply safe_bind; [apply safe_withSource|]; intros e; apply safe_log
  | apply safe_ret ].

Lemma safe_emitFilter g form l filter args callers :
  safe (emitFilter g form l filter args callers).
Proof. destruct g, form; safe_gated. Qed.

Lemma safe_emitFilters g form l filters args callers :
  safe (emitFilters g form l filters args callers).
Proof. destruct g, form; safe_gated. Qed.

Lemma safe_new_logger l (derive : logrus.Entry → logrus.Entry) :
  (∀ e, logrus.Entry_Logger (derive e) = logrus.Entry_Logger e) →
  safe (lr <- deref l ;;
        new_logger (mklogger origLogger (derive (entry lr)) (fmt lr)
                             (logFilter lr))).
Proof.
  intros Hderive w (Hc & Hs & Hf & Hd & Hl). unfold bind, deref.
  destruct (loggers w !! l) as [lr|] eqn:Hlr; [|done]. cbn.
  destruct (Hl _ _ Hlr) as (H1 & H2 & H3 & H4).
  split; [done|]. split; [done|]. split; [done|]. split.
  - cbn. destruct Hd as [d Hd]. exists d. by apply lookup_app_l_Some.
  - intros l' lr' Hl'. cbn in Hl'.
    apply lookup_app_Some in Hl' as [Hl'|[_ Hl']]; [by eapply Hl|].
    apply list_lookup_singleton_Some in Hl' as [_ <-]. cbn.
    by rewrite Hderive.
Qed.

Lemma safe_With l key value : safe (Logger.With l key value).
Proof. by apply (safe_new_logger l (λ e, logrus.WithField e key value)). Qed.

Lemma safe_WithFields l fields : safe (Logger.WithFields l fields).
Proof. by apply (safe_new_logger l (λ e, logrus.WithFields e fields)). Qed.

Lemma safe_SetLevel PL level : safe (logsift.SetLevel PL level).
Proof.
  apply safe_bind; [apply safe_deref|]. intros d.
  apply safe_bind; [apply safe_get_sink|]. intros lg.
  destruct (PL level); apply safe_set_sink.
Qed.

Lemma safe_SetFormat format : safe (logsift.SetFormat format).
Proof.
  apply safe_bind; [apply safe_deref|]. intros d.
  apply safe_bind; [apply safe_get_sink|]. intros lg. apply safe_set_sink.
Qed.

Lemma safe_SetSourceFormat format : safe (logsift.SetSourceFormat format).
Proof.
  intros w (Hc & Hs & Hf & Hd & Hl). unfold logsift.SetSourceFormat, bind, deref.
  destruct (loggers w !! defaultLogger) as [d|] eqn:Hdl; [|done].
  unfold set_logger. rewrite Hdl.
  destruct (Hl _ _ Hdl) as (H1 & H2 & H3 & H4).
  split; [done|]. split; [done|]. split; [done|]. split.
  - cbn. rewrite list_lookup_insert_eq; [by eexists|].
    by apply lookup_lt_Some in Hdl.
  - intros l' lr' Hl'. cbn in Hl'.
    apply list_lookup_insert_Some in Hl' as [(<- & <- & _)|[_ Hl']];
      [|by eapply Hl].
    cbn. repeat split; try done.
    destruct (String.eqb_spec format "short") as [->|_]; [by left|].
    destruct (String.eqb_spec format "long") as [->|_]; [by right|by left].
Qed.

Lemma safe_onDefault {A} (m : M FilterObj A) :
  fsafe m → safe (d <- deref defaultLogger ;; onFilter (logFilter d) m).
Proof.
  intros Hm. apply safe_bind; [apply safe_deref|]. intros d.
  by apply safe_onFilter.
Qed.

Lemma safe_Warn args callers : safe (logsift.Warn args callers).
Proof. apply (safe_emit SWarn Plain defaultLogger). Qed.

Lemma safe_Handler_resetFilter r callers :
  safe (logsift.Handler_resetFilter r callers).
Proof.
  unfold logsift.Handler_resetFilter.
  destruct (negb _); [|apply safe_ret].
  destruct (strconv_ParseBool _) as [[]|];
    [| apply safe_ret | apply safe_Warn].
  apply safe_bind; [apply safe_Warn|]. intros _.
  apply safe_onDefault, fsafe_SetMap.
Qed.

Lemma safe_Handler PL r callers : safe (logsift.Handler PL r callers).
Proof.
  unfold logsift.Handler.
  repeat (apply safe_bind; [|intros _]).
  - unfold logsift.Handler_level. destruct (negb _); [|apply safe_ret].
    apply safe_bind; [apply safe_Warn|]. intros _. apply safe_SetLevel.
  - unfold logsift.Handler_format. destruct (negb _); [|apply safe_ret].
    apply safe_bind; [apply safe_Warn|]. intros _. apply safe_SetFormat.
  - unfold logsift.Handler_sourceFormat. destruct (negb _); [|apply safe_ret].
    apply safe_bind; [apply safe_Warn|]. intros _. apply safe_SetSourceFormat.
  - unfold logsift.Handler_filter. destruct (negb _); [|apply safe_ret].
    apply safe_bind; [apply safe_Warn|]. intros _.
    apply safe_onDefault, fsafe_SetMap.
  - unfold logsift.Handler_allowEmptyFilter.
    destruct (negb _); [|apply safe_Handler_resetFilter].
    destruct (strconv_ParseBool _) as [allow|]; [|apply safe_Warn].
    apply safe_bind; [apply safe_Warn|]. intros _.
    apply safe_bind; [apply safe_onDefault, fsafe_SetAllowEmptyFilter|].
    intros _. apply safe_Handler_resetFilter.
Qed.

Lemma safe_call PL c : safe (call PL c).
Proof.
  destruct c; cbn [call].
  - apply safe_bind; [apply safe_With|]. intros _. apply safe_ret.
  - apply safe_bind; [apply safe_WithFields|]. intros _. apply safe_ret.
  - apply safe_emit.
  - apply safe_emitFilter.
  - apply safe_emitFilters.
  - apply safe_bind; [apply safe_FiltersAllow|]. intros _. apply safe_ret.
  - apply safe_bind; [apply safe_deref|]. intros lr.
    apply safe_onFilter, fsafe_Add.
  - apply safe_bind; [apply safe_deref|]. intros lr.
    apply safe_onFilter, fsafe_Remove.
  - apply safe_bind; [apply safe_deref|]. intros lr.
    apply safe_onFilter, fsafe_SetMap.
  - apply safe_bind; [apply safe_deref|]. intros lr.
    apply safe_onFilter, fsafe_SetAllowEmptyFilter.
  - apply safe_SetLevel.
  - apply safe_SetFormat.
  - apply safe_SetSourceFormat.
  - apply safe_Handler.
Qed.

Lemma safe_calls PL cs : safe (calls PL cs).
Proof.
  induction cs as [|c cs IH]; [apply safe_ret|].
  cbn [calls]. apply safe_bind; [apply safe_call|]. by intros _.
Qed.

Lemma calls_coherent PL cs w : calls PL cs init = Ok tt w → coherent w.
Proof.
  intros H. pose proof (safe_calls PL cs init coherent_init) as Hs.
  by rewrite H in Hs.
Qed.

(** X23: a program never waits.  Whatever calls of the facade (emission,
    filter-gated emission, the filter methods, [With] and [WithFields],
    the three setters and the handler) a caller makes one after another
    from the state [init] leaves, none of them finds the lock of the
    filter held. *)
Theorem programs_never_wait (PL : string → option logrus.Level)
    (cs : list Call) :
  calls PL cs init ≠ Block.
Proof.
  intros H. pose proof (safe_calls PL cs init coherent_init) as Hs.
  by rewrite H in Hs.
Qed.

(** X24: every handle shares the default logger's filter and sink.  After
    any program that returns, a handle in the store is live, its struct
    names the filter and the sink of the default logger, and a filter
    question or a filter change through it is the same call through the
    default logger. *)
Theorem handles_share_filter_and_sink (PL : string → option logrus.Level)
    (cs : list Call) (w : World) (l : loc) (lr : logger) :
  calls PL cs init = Ok tt w →
  loggers w !! l = Some lr →
  ∃ d, loggers w !! defaultLogger = Some d ∧
    logFilter lr = logFilter d ∧
    logrus.Entry_Logger (entry lr) = logrus.Entry_Logger (entry d) ∧
    valid w l = true ∧
    (∀ ts, Logger.FiltersAllow l ts w
           = Logger.FiltersAllow defaultLogger ts w) ∧
    (∀ t, Logger.AddFilter l t w = Logger.AddFilter defaultLogger t w) ∧
    (∀ t, Logger.RemoveFilter l t w
          = Logger.RemoveFilter defaultLogger t w) ∧
    (∀ m, Logger.UpdateFilter l m w
          = Logger.UpdateFilter defaultLogger m w) ∧
    (∀ b, Logger.SetAllowEmptyFilter l b w
          = Logger.SetAllowEmptyFilter defaultLogger b w).
Proof.
  intros Hcs Hl.
  destruct (calls_coherent _ _ _ Hcs) as (_ & Hs & (f & Hf & Hmu) & [d Hd] & Hall).
  destruct (Hall _ _ Hl) as (_ & H2 & H3 & _).
  destruct (Hall _ _ Hd) as (_ & H2' & H3' & _).
  exists d. split; [done|]. split; [congruence|]. split; [congruence|].
  split.
  { unfold valid. rewrite Hl, H2, H3, Hf. cbn. rewrite Hmu.
    unfold origLogger. by destruct (sinks w). }
  unfold Logger.FiltersAllow, Logger.AddFilter, Logger.RemoveFilter,
    Logger.UpdateFilter, Logger.SetAllowEmptyFilter, bind, deref.
  rewrite Hl, Hd, H3, H3'. by repeat split.
Qed.

Lemma handles_share_filter_and_sink_witness :
  ∃ w lr,
    calls (λ _, None) [CWith 0 "k" (VInt 1); CAddFilter 1 "db"] init = Ok tt w ∧
    loggers w !! 1 = Some lr ∧
    ∃ d, loggers w !! defaultLogger = Some d ∧
      logFilter lr = logFilter d ∧
      logrus.Entry_Logger (entry lr) = logrus.Entry_Logger (entry d) ∧
      valid w 1 = true ∧
      (∀ ts, Logger.FiltersAllow 1 ts w
             = Logger.FiltersAllow defaultLogger ts w) ∧
      (∀ t, Logger.AddFilter 1 t w = Logger.AddFilter defaultLogger t w) ∧
      (∀ t, Logger.RemoveFilter 1 t w
            = Logger.RemoveFilter defaultLogger t w) ∧
      (∀ m, Logger.UpdateFilter 1 m w
            = Logger.UpdateFilter defaultLogger m w) ∧
      (∀ b, Logger.SetAllowEmptyFilter 1 b w
            = Logger.SetAllowEmptyFilter defaultLogger b w).
Proof.
  do 2 eexists. split; [reflexivity|]. split; [reflexivity|].
  apply (handles_share_filter_and_sink (λ _, None)
           [CWith 0 "k" (VInt 1); CAddFilter 1 "db"]); reflexivity.
Defined.

(** X25: no handle is ever in the mode none.  After any program that
    returns, [GetSourceFormat] answers short or long, and the entry that
    [withSource] makes for any handle in the store has a source field,
    whoever the callers are. *)
Theorem source_always_recorded (PL : string → option logrus.Level)
    (cs : list Call) (w : World) (l : loc) (lr : logger) :
  calls PL cs init = Ok tt w →
  loggers w !! l = Some lr →
  (logsift.GetSourceFormat w = Ok "short" w ∨
   logsift.GetSourceFormat w = Ok "long" w) ∧
  ∀ callers, ∃ s,
    Logger.withSource l callers w
      = Ok (Logger.withSource_entry lr callers) w ∧
    logrus.Data (Logger.withSource_entry lr callers) !! "source"
      = Some (VString s).
Proof.
  intros Hcs Hl.
  destruct (calls_coherent _ _ _ Hcs) as (_ & _ & _ & [d Hd] & Hall).
  split.
  { unfold logsift.GetSourceFormat, bind, deref. rewrite Hd. cbn.
    destruct (Hall _ _ Hd) as (_ & _ & _ & [-> | ->]); [by left|by right]. }
  intros callers.
  assert (String.eqb (fmt lr) "none" = false) as Hn.
  { by destruct (Hall _ _ Hl) as (_ & _ & _ & [-> | ->]). }
  unfold Logger.withSource, bind, deref. rewrite Hl.
  unfold Logger.withSource_entry. rewrite Hn.
  destruct (match runtime_Caller _ _ _ with Some _ => _ | None => _ end)
    as [file line].
  eexists. split; [reflexivity|].
  unfold logrus.WithField, logrus.WithFields. cbn.
  apply lookup_union_Some_l, lookup_singleton_eq.
Qed.

Lemma source_always_recorded_witness :
  ∃ w lr,
    calls (λ _, None)
      [CSetSourceFormat "none"; CWith 0 "k" (VInt 1)] init = Ok tt w ∧
    loggers w !! 1 = Some lr ∧
    (logsift.GetSourceFormat w = Ok "short" w ∨
     logsift.GetSourceFormat w = Ok "long" w) ∧
    ∀ callers, ∃ s,
      Logger.withSource 1 callers w
        = Ok (Logger.withSource_entry lr callers) w ∧
      logrus.Data (Logger.withSource_entry lr callers) !! "source"
        = Some (VString s).
Proof.
  do 2 eexists. split; [reflexivity|]. split; [reflexivity|].
  apply (source_always_recorded (λ _, None)
           [CSetSourceFormat "none"; CWith 0 "k" (VInt 1)]); reflexivity.
Defined.

(** X26: no program moves the error counter.  Whatever calls a caller
    makes from the state [init] leaves, and however the last of them
    ends, the counter vector is the one [init] made, with no child. *)
Theorem ErrorCounter_never_moves (PL : string → option logrus.Level)
    (cs : list Call) :
  ErrorCounter (state_after (calls PL cs init) init) = ErrorCounter init ∧
  prometheus.total (ErrorCounter (state_after (calls PL cs init) init)) = 0.
Proof.
  assert (ErrorCounter (state_after (calls PL cs init) init)
          = ErrorCounter init) as H.
  { pose proof (safe_calls PL cs init coherent_init) as Hs.
    destruct (calls PL cs init) as [a w|w|w|]; [apply Hs|done..]. }
  split; [done|]. by rewrite H.
Qed.
